(** * The HHL algorithm of qiskit.aqua: circuit assembly and result extraction

    A shallow embedding of [qiskit/aqua/algorithms/single_sample/hhl/hhl.py]
    (class [HHL]) and the properties its specification states about it.

    Conventions of the embedding.
    - A Python call that may raise returns a [result]; methods of [HHL] that
      read or write [self] live in the monad [M] (state that survives an
      exception, as the attributes of a Python object do).
    - numpy scalars are idealised: a finite float64 is a real number, a
      finite complex128 a pair of reals, and rounding is ignored, except in
      the test [np.log2(n) % 1] of [init_params], whose outcome rests on
      the rounding of the logarithm to float64.  The other IEEE feature
      that is kept is the non-finite value: numpy does not
      raise on a division by zero, it yields inf or nan (and a warning), and
      every later operation on such a value is modelled as non-finite again.
      [None] stands for any non-finite value, [Some x] for the finite [x].
    - numpy arrays are values: the code applies no in-place operation to an
      array, so that two names for one array cannot be told apart.
    - Code of other packages (the pluggable components, the backend, the
      tomography helpers of qiskit.tools.qcvv, numpy.linalg) is a parameter:
      a record of functions, one per method that [HHL] calls. *)

From Stdlib Require Import Reals Lra ZArith Lia Ascii.
From stdpp Require Import gmap strings list pretty sorting.

Set Default Proof Using "Type".
Local Open Scope Z_scope.

(** ** Python exceptions *)

Inductive exn : Type :=
| AquaError (msg : string)
| ValueError (msg : string)
| QiskitError (msg : string)
| ExternalError (msg : string)
| TypeError
| IndexError
| KeyError
| AttributeError
| ZeroDivisionError
| LinAlgError.

Inductive result (A : Type) : Type :=
| Ok (a : A)
| Raise (e : exn).
Arguments Ok {A} a.
Arguments Raise {A} e.

#[global] Instance result_ret : MRet result := λ A a, Ok a.
#[global] Instance result_bind : MBind result := λ A B f r,
  match r with
  | Ok a => f a
  | Raise e => Raise e
  end.

Definition is_ok {A} (r : result A) : bool :=
  match r with
  | Ok _ => true
  | Raise _ => false
  end.
Definition raised {A} (r : result A) : Prop := ∃ e, r = Raise e.
Definition returned {A} (r : result A) : Prop := ∃ a, r = Ok a.

(** ** Python strings: indexing, slicing, [int] *)

Definition py_len (s : string) : Z := Z.of_nat (String.length s).

(** [s[i]]: a negative index counts from the end; out of range raises. *)
Definition py_index (s : string) (i : Z) : result Ascii.ascii :=
  let j := if i <? 0 then i + py_len s else i in
  if (0 <=? j) && (j <? py_len s) then
    match String.get (Z.to_nat j) s with
    | Some c => Ok c
    | None => Raise IndexError
    end
  else Raise IndexError.

(** [s[:e]]: the bound is taken from the end when negative, and clipped. *)
Definition py_slice_to (s : string) (e : Z) : string :=
  let e' := if e <? 0 then Z.max 0 (e + py_len s) else Z.min e (py_len s) in
  String.substring 0 (Z.to_nat e') s.

(** [int(c)] for a one-character string: a decimal digit, or ValueError. *)
Definition py_int (c : Ascii.ascii) : result Z :=
  let n := Z.of_nat (Ascii.nat_of_ascii c) in
  if (48 <=? n) && (n <=? 57) then Ok (n - 48)
  else Raise (ValueError "invalid literal for int() with base 10").

(** [int(s[i])] *)
Definition int_at (s : string) (i : Z) : result Z :=
  c ← py_index s i; py_int c.

(** ** Python dicts with string keys, in insertion order *)

Definition pydict (V : Type) : Type := list (string * V).

(** [d[k] = v]: an existing key keeps its place and takes the new value. *)
Fixpoint py_dict_set {V} (d : pydict V) (k : string) (v : V) : pydict V :=
  match d with
  | [] => [(k, v)]
  | (k', v') :: d' =>
      if String.eqb k' k then (k', v) :: d' else (k', v') :: py_dict_set d' k v
  end.

(** [dict(zip(ks, vs))] *)
Definition py_dict_zip {V} (ks : list string) (vs : list V) : pydict V :=
  foldl (λ d kv, py_dict_set d kv.1 kv.2) [] (zip ks vs).

Definition py_keys {V} (d : pydict V) : list string := d.*1.
Definition py_values {V} (d : pydict V) : list V := d.*2.

(** The builtin [sum] on integers. *)
Definition py_sum (l : list Z) : Z := foldl Z.add 0 l.

(** A dict with integer keys (qubit number to basis label). *)
Fixpoint int_dict_get {V} (d : list (Z * V)) (k : Z) : result V :=
  match d with
  | [] => Raise KeyError
  | (k', v) :: d' => if k' =? k then Ok v else int_dict_get d' k
  end.

(** Measurement counts: bitstring to number of shots. *)
Definition counts : Type := pydict Z.

(** ** numpy scalars and arrays *)

(** Finite complex numbers, as pairs of reals. *)
Definition C : Type := R * R.

#[global] Instance R_eq_dec : EqDecision R := Req_dec_T.
#[global] Instance Rlt_decision (x y : R) : Decision (x < y)%R := Rlt_dec x y.

Section Complex.
Local Open Scope R_scope.

Definition C0 : C := (0, 0).
Definition C1 : C := (1, 0).
Definition RtoC (x : R) : C := (x, 0).
Definition Cadd (a b : C) : C := (a.1 + b.1, a.2 + b.2).
Definition Csub (a b : C) : C := (a.1 - b.1, a.2 - b.2).
Definition Cmul (a b : C) : C := (a.1 * b.1 - a.2 * b.2, a.1 * b.2 + a.2 * b.1).
Definition Cconj (a : C) : C := (a.1, - a.2).
Definition Cmod2 (a : C) : R := a.1 * a.1 + a.2 * a.2.
Definition Cmod (a : C) : R := sqrt (Cmod2 a).
Definition Cdiv (a b : C) : C :=
  ((a.1 * b.1 + a.2 * b.2) / Cmod2 b, (a.2 * b.1 - a.1 * b.2) / Cmod2 b).

(** The principal square root (branch cut on the negative real axis). *)
Definition Csqrt (a : C) : C :=
  (sqrt ((Cmod a + a.1) / 2),
   (if decide (a.2 < 0) then -1 else 1) * sqrt ((Cmod a - a.1) / 2)).

Definition Cexp (a : C) : C := (exp a.1 * cos a.2, exp a.1 * sin a.2).

(** [arctan2(y, x)], the argument of [x + iy] in (-pi, pi]. *)
Definition arctan2 (y x : R) : R :=
  if decide (0 < x) then atan (y / x)
  else if decide (x < 0) then
    (if decide (y < 0) then atan (y / x) - PI else atan (y / x) + PI)
  else if decide (0 < y) then PI / 2
  else if decide (y < 0) then - (PI / 2)
  else 0.

Definition Cangle (a : C) : R := arctan2 a.2 a.1.
End Complex.

(** A float64 and a complex128: finite, or [None] for inf and nan. *)
Definition npfloat : Type := option R.
Definition npcomplex : Type := option C.
Definition vector : Type := list npcomplex.
Definition matrix : Type := list vector.

Definition np_lift2 {A B D} (f : A → B → D) (a : option A) (b : option B)
    : option D :=
  x ← a; y ← b; Some (f x y).

Definition np_fadd : npfloat → npfloat → npfloat := np_lift2 Rplus.
Definition np_fdiv (a b : npfloat) : npfloat :=
  x ← a; y ← b; if decide (y = 0%R) then None else Some (x / y)%R.

Definition np_complex (a : npfloat) : npcomplex := RtoC <$> a.
Definition np_add : npcomplex → npcomplex → npcomplex := np_lift2 Cadd.
Definition np_sub : npcomplex → npcomplex → npcomplex := np_lift2 Csub.
Definition np_mul : npcomplex → npcomplex → npcomplex := np_lift2 Cmul.
Definition np_div (a b : npcomplex) : npcomplex :=
  x ← a; y ← b; if decide (y = C0) then None else Some (Cdiv x y).
Definition np_conj (a : npcomplex) : npcomplex := Cconj <$> a.
Definition np_sqrt (a : npcomplex) : npcomplex := Csqrt <$> a.
Definition np_exp (a : npcomplex) : npcomplex := Cexp <$> a.
Definition np_abs (a : npcomplex) : npfloat := Cmod <$> a.
Definition np_angle (a : npcomplex) : npfloat := Cangle <$> a.

(** [u.dot(v)] for two 1-d arrays: the sum of the products, no conjugate. *)
Definition np_sumprod (u v : vector) : npcomplex :=
  foldr (λ p acc, np_add (np_mul p.1 p.2) acc) (Some C0) (zip u v).
Definition np_dot (u v : vector) : result npcomplex :=
  if decide (length u = length v) then Ok (np_sumprod u v)
  else Raise (ValueError "shapes not aligned").

(** [A.dot(v)] for a 2-d array, given as the list of its rows, and a 1-d
    array. *)
Definition np_matvec (A : matrix) (v : vector) : result vector :=
  mapM (λ row, np_dot row v) A.

(** [np.linalg.norm(v)], the 2-norm. *)
Definition np_sumsq (v : vector) : npfloat :=
  foldr (λ x acc, np_fadd (Cmod2 <$> x) acc) (Some 0%R) v.
Definition np_norm (v : vector) : npfloat := sqrt <$> np_sumsq v.

(** [v / s] and [s * v], elementwise with a scalar. *)
Definition np_vdiv (v : vector) (s : npcomplex) : vector := (λ x, np_div x s) <$> v.
Definition np_vscale (s : npcomplex) (v : vector) : vector := (λ x, np_mul s x) <$> v.
Definition np_vmul_scalar (v : vector) (s : npcomplex) : vector :=
  (λ x, np_mul x s) <$> v.

(** [u * v], elementwise; an operand of length one is broadcast. *)
Definition np_vmul (u v : vector) : result vector :=
  if decide (length u = length v) then Ok (zip_with np_mul u v)
  else match u, v with
       | [x], _ => Ok (np_vscale x v)
       | _, [y] => Ok (np_vmul_scalar u y)
       | _, _ => Raise (ValueError "operands could not be broadcast together")
       end.

(** [rho[:, 0]] and [rho[0, 0]] of a 2-d array. *)
Definition np_column0 (rho : matrix) : result vector :=
  mapM (λ row : vector, from_option Ok (Raise IndexError) (row !! 0%nat)) rho.
Definition np_entry00 (rho : matrix) : result npcomplex :=
  row ← from_option Ok (Raise IndexError) (rho !! 0%nat);
  from_option Ok (Raise IndexError) (row !! 0%nat).

(** The builtin [sum] over an array of floats. *)
Definition py_fsum (l : list npfloat) : npfloat := foldl np_fadd (Some 0%R) l.

(** Values stored in the result dictionary [_ret]. *)
Inductive pyval : Type :=
| VInt (n : Z)
| VFloat (x : npfloat)
| VComplex (z : npcomplex)
| VFloats (l : list npfloat)
| VVector (v : vector)
| VMatrix (m : matrix).

(** ** Registers and circuits (the part of the qiskit API that HHL uses) *)

Record QuantumRegister := { qreg_name : string; qreg_size : Z }.
Record ClassicalRegister := { creg_name : string; creg_size : Z }.

Definition bit : Type := string * Z.

Inductive instruction : Type :=
| Gate (name : string) (qargs : list bit)
| Measure (qubit : bit) (clbit : bit).

Record QuantumCircuit := {
  circ_name : string;
  qregs : list QuantumRegister;
  cregs : list ClassicalRegister;
  data : list instruction
}.

#[global] Instance QuantumRegister_eq_dec : EqDecision QuantumRegister.
Proof. solve_decision. Defined.
#[global] Instance ClassicalRegister_eq_dec : EqDecision ClassicalRegister.
Proof. solve_decision. Defined.
#[global] Instance instruction_eq_dec : EqDecision instruction.
Proof. solve_decision. Defined.

(** ** Tomography data (qiskit.tools.qcvv.tomography) *)

(** One entry of [tomoset['circuits']]: the measurement basis per qubit and,
    for process tomography, the preparation per qubit. *)
Record tomo_circuit := {
  tc_meas : list (Z * string);
  tc_prep : option (list (Z * string))
}.

Record tomography_set := {
  ts_qubits : list Z;
  ts_circuits : list tomo_circuit;
  ts_meas_basis : string;
  ts_prep_basis : option string
}.

(** [circuit[c]] of one outcome [c]. *)
Record outcome_circuit := {
  oc_meas : list (string * Z);
  oc_prep : option (list string)
}.

Record tomo_datum := {
  td_counts : counts;
  td_shots : Z;
  td_circuit : pydict outcome_circuit
}.

Record tomo_data := {
  tomo_data_data : list tomo_datum;
  tomo_data_meas_basis : string;
  tomo_data_prep_basis : option string
}.

(** ** Post-selection on the success bit: [HHL._tomo_postselect] *)

(** The inner loop over [results.results[j].header.clbit_labels]: the index,
    within its register, of the last label that carries the name of
    [select]. *)
Fixpoint find_select_bitpos (select : option ClassicalRegister)
    (clbit_labels : list (string * Z)) (select_bitpos : option Z)
    : result (option Z) :=
  match clbit_labels with
  | [] => Ok select_bitpos
  | cbit_label :: rest =>
      match select with
      | None => Raise AttributeError
      | Some sel =>
          if String.eqb cbit_label.1 (creg_name sel)
          then find_select_bitpos select rest (Some cbit_label.2)
          else find_select_bitpos select rest select_bitpos
      end
  end.

(** [int(k[-1-select_bitpos])], the success bit of the outcome [k]. *)
Definition success_bit (p : Z) (k : string) : result Z :=
  int_at k (-1 - p).

(** The loop over [all_counts.items()], filling [filt_keys] and
    [filt_counts].  With [select_bitpos = None] the first item raises
    (TypeError of [-1-None]). *)
Fixpoint filter_loop (select_bitpos : option Z) (items : list (string * Z))
    (filt_keys : list string) (filt_counts : list Z)
    : result (list string * list Z) :=
  match items with
  | [] => Ok (filt_keys, filt_counts)
  | (k, v) :: rest =>
      match select_bitpos with
      | None => Raise TypeError
      | Some p =>
          b ← success_bit p k;
          if b =? 1 then
            filter_loop select_bitpos rest
              (filt_keys ++ [py_slice_to k (p - 2)]) (filt_counts ++ [v])
          else filter_loop select_bitpos rest filt_keys filt_counts
      end
  end.

(** [filt_labels]: the filtered counts handed to [marginal_counts], with the
    placeholder when nothing survives. *)
Definition filt_labels (select_bitpos : option Z) (all_counts : counts)
    : result counts :=
  '(filt_keys, filt_counts) ← filter_loop select_bitpos all_counts [] [];
  let filt := py_dict_zip filt_keys filt_counts in
  Ok (if decide (filt = []) then [("0"%string, 0)] else filt).

(** [circuit[c]['meas']]: for the [k]-th measured qubit in increasing order,
    its basis label and the bit [int(c[-1-k])] of the outcome. *)
Definition outcome_meas (meas : list (Z * string)) (c : string)
    : result (list (string * Z)) :=
  let meas_qubits := merge_sort Z.le (meas.*1) in
  mapM (λ kq : nat * Z,
          b ← int_dict_get meas kq.2;
          o ← int_at c (-1 - Z.of_nat kq.1);
          Ok (b, o))
       (zip (seq 0 (length meas_qubits)) meas_qubits).

(** [circuit[c]['prep']], present when [prep] is a non-empty dict. *)
Definition outcome_prep (prep : option (list (Z * string)))
    : result (option (list string)) :=
  match prep with
  | None | Some [] => Ok None
  | Some prep =>
      l ← mapM (int_dict_get prep) (merge_sort Z.le (prep.*1)); Ok (Some l)
  end.

Definition py_truthy {A} (d : option (list A)) : bool :=
  match d with
  | None | Some [] => false
  | Some _ => true
  end.

(** [results]: what [_tomo_postselect] reads from the backend's result. *)
Record Result := {
  get_statevector : QuantumCircuit → result vector;
  get_counts : string → result counts;
  clbit_labels : nat → result (list (string * Z))
}.

(** The functions of qiskit.tools.qcvv.tomography that HHL calls. *)
Record TomographyLib := {
  state_tomography_set : list Z → result tomography_set;
  create_tomography_circuits :
    QuantumCircuit → QuantumRegister → ClassicalRegister → tomography_set →
    result (list QuantumCircuit);
  tomography_circuit_names : tomography_set → string → list string;
  marginal_counts : counts → list Z → result counts;
  fit_tomography_data : tomo_data → result matrix
}.

Section PostSelect.
Context (tomo : TomographyLib).

(** Lines 270-281 for one variant: counts of the variant, filtered on the
    success bit, marginalised over the tomography qubits, and their sum. *)
Definition postselect_counts (select_bitpos : option Z) (all_counts : counts)
    (qubits : list Z) : result (counts * Z) :=
  filt ← filt_labels select_bitpos all_counts;
  cnts ← marginal_counts tomo filt qubits;
  Ok (cnts, py_sum (py_values cnts)).

(** The body of the loop over [enumerate(labels)]; returns the entry
    appended to [data] and the value left in [prep]. *)
Definition postselect_variant (results : Result) (tomoset : tomography_set)
    (select : option ClassicalRegister) (labels : list string) (j : nat)
    : result (tomo_datum * option (list (Z * string))) :=
  cl ← clbit_labels results j;
  select_bitpos ← find_select_bitpos select cl None;
  label ← from_option Ok (Raise IndexError) (labels !! j);
  all_counts ← get_counts results label;
  '(cnts, shots) ← postselect_counts select_bitpos all_counts (ts_qubits tomoset);
  tc ← from_option Ok (Raise IndexError) (ts_circuits tomoset !! j);
  let meas := tc_meas tc in
  let prep := tc_prep tc in
  circuit ← mapM (λ c, m ← outcome_meas meas c;
                       p ← outcome_prep prep;
                       Ok (c, {| oc_meas := m; oc_prep := p |}))
                 (py_keys cnts);
  Ok ({| td_counts := cnts; td_shots := shots; td_circuit := circuit |}, prep).

Fixpoint postselect_loop (results : Result) (tomoset : tomography_set)
    (select : option ClassicalRegister) (labels : list string)
    (js : list nat) (acc : list tomo_datum) (prep : option (list (Z * string)))
    : result (list tomo_datum * option (list (Z * string))) :=
  match js with
  | [] => Ok (acc, prep)
  | j :: js' =>
      '(d, prep') ← postselect_variant results tomoset select labels j;
      postselect_loop results tomoset select labels js' (acc ++ [d]) prep'
  end.

Definition _tomo_postselect (results : Result) (name : string)
    (tomoset : tomography_set) (select : option ClassicalRegister)
    : result tomo_data :=
  let labels := tomography_circuit_names tomo tomoset name in
  '(dat, prep) ← postselect_loop results tomoset select labels
                   (seq 0 (length labels)) [] None;
  if py_truthy prep then
    pb ← from_option Ok (Raise KeyError) (ts_prep_basis tomoset);
    Ok {| tomo_data_data := dat; tomo_data_meas_basis := ts_meas_basis tomoset;
          tomo_data_prep_basis := Some pb |}
  else
    Ok {| tomo_data_data := dat; tomo_data_meas_basis := ts_meas_basis tomoset;
          tomo_data_prep_basis := None |}.
End PostSelect.

(** ** The circuit operations of qiskit that HHL uses *)

(** [QuantumRegister(size, name)]: a register has a positive size. *)
Definition new_QuantumRegister (size : Z) (name : string) : result QuantumRegister :=
  if size <=? 0 then Raise (QiskitError "register size must be positive")
  else Ok {| qreg_name := name; qreg_size := size |}.

Definition register_names (qc : QuantumCircuit) : list (string * (bool * Z)) :=
  ((λ q, (qreg_name q, (true, qreg_size q))) <$> qregs qc) ++
  ((λ c, (creg_name c, (false, creg_size c))) <$> cregs qc).

(** Two circuits are compatible when registers of one name are equal. *)
Definition compatible_regs (qc rhs : QuantumCircuit) : bool :=
  forallb (λ r1, forallb (λ r2 : string * (bool * Z),
                            if String.eqb r2.1 r1.1 then bool_decide (r1 = r2) else true)
                         (register_names rhs))
          (register_names qc).

(** [qc += rhs]: the registers of [rhs] that [qc] lacks are added, and the
    instructions of [rhs] are appended. *)
Definition circuit_iadd (qc rhs : QuantumCircuit) : result QuantumCircuit :=
  if compatible_regs qc rhs then
    Ok {| circ_name := circ_name qc;
          qregs := qregs qc ++ list_difference (qregs rhs) (qregs qc);
          cregs := cregs qc ++ list_difference (cregs rhs) (cregs qc);
          data := data qc ++ data rhs |}
  else Raise (QiskitError "circuits are not compatible").

(** [qc.add_register(c)] for a classical register. *)
Definition add_register (qc : QuantumCircuit) (c : ClassicalRegister)
    : result QuantumCircuit :=
  if bool_decide (c ∈ cregs qc)
  then Raise (QiskitError "register name already exists")
  else Ok {| circ_name := circ_name qc; qregs := qregs qc;
             cregs := cregs qc ++ [c]; data := data qc |}.

(** [qc.measure(s, c)] on two registers: bit [i] of [s] is measured into
    bit [i] of [c]; the registers have one length and belong to [qc]. *)
Definition measure (qc : QuantumCircuit) (s : QuantumRegister)
    (c : ClassicalRegister) : result QuantumCircuit :=
  if bool_decide (qreg_size s = creg_size c) then
    if bool_decide (s ∈ qregs qc) then
      if bool_decide (c ∈ cregs qc) then
        Ok {| circ_name := circ_name qc; qregs := qregs qc; cregs := cregs qc;
              data := data qc ++
                      ((λ i, Measure (qreg_name s, i) (creg_name c, i))
                         <$> seqZ 0 (qreg_size s)) |}
      else Raise (QiskitError "register not in this circuit")
    else Raise (QiskitError "register not in this circuit")
  else Raise (QiskitError "qubit and cbit should have the same length").

(** ** The collaborators of HHL *)

(** What [eigs.construct_circuit] leaves in the attributes of [eigs]. *)
Record eigs_built := {
  eigs_circuit : QuantumCircuit;
  eigs_input_register : QuantumRegister;
  eigs_output_register : QuantumRegister
}.

Record InitialState := {
  init_state_construct_circuit : QuantumRegister → result QuantumCircuit
}.

Record Eigenvalues := {
  get_register_sizes : Z * Z;
  _negative_evals : bool;
  _evo_time : npfloat;
  eigs_construct_circuit : QuantumRegister → result (QuantumCircuit * eigs_built);
  eigs_construct_inverse :
    QuantumCircuit → QuantumRegister → QuantumRegister → result QuantumCircuit
}.

Record Reciprocal := {
  (** returns the circuit and the register left in [_anc] *)
  reciprocal_construct_circuit :
    QuantumRegister → result (QuantumCircuit * QuantumRegister);
  sv_to_resvec : vector → Z → result vector
}.

Record QuantumInstance := {
  is_statevector : bool;
  execute : list QuantumCircuit → result Result
}.

(** numpy.linalg, and the circuit measures read at the end of a run. *)
Record NumpyLinalg := {
  linalg_solve : matrix → vector → result vector;
  linalg_eigvals : matrix → result vector
}.

Record CircuitMeasures := {
  dag_width : QuantumCircuit → result Z;
  dag_depth : QuantumCircuit → result Z;
  number_atomic_gates : QuantumCircuit → result Z
}.

(** ** The HHL object *)

Record HHL := {
  _matrix : matrix;
  _vector : vector;
  _eigs : option Eigenvalues;
  _init_state : option InitialState;
  _reciprocal : option Reciprocal;
  _num_q : Z;
  _num_a : Z;
  _circuit : option QuantumCircuit;
  _io_register : option QuantumRegister;
  _eigenvalue_register : option QuantumRegister;
  _ancilla_register : option QuantumRegister;
  _success_bit : option ClassicalRegister;
  _ret : gmap string pyval;
  _quantum_instance : option QuantumInstance
}.

Definition set_circuit (x : option QuantumCircuit) (h : HHL) : HHL :=
  {| _matrix := _matrix h; _vector := _vector h; _eigs := _eigs h;
     _init_state := _init_state h; _reciprocal := _reciprocal h;
     _num_q := _num_q h; _num_a := _num_a h; _circuit := x;
     _io_register := _io_register h;
     _eigenvalue_register := _eigenvalue_register h;
     _ancilla_register := _ancilla_register h;
     _success_bit := _success_bit h; _ret := _ret h;
     _quantum_instance := _quantum_instance h |}.

Definition set_registers (q a s : option QuantumRegister) (h : HHL) : HHL :=
  {| _matrix := _matrix h; _vector := _vector h; _eigs := _eigs h;
     _init_state := _init_state h; _reciprocal := _reciprocal h;
     _num_q := _num_q h; _num_a := _num_a h; _circuit := _circuit h;
     _io_register := q; _eigenvalue_register := a; _ancilla_register := s;
     _success_bit := _success_bit h; _ret := _ret h;
     _quantum_instance := _quantum_instance h |}.

Definition set_success_bit (c : option ClassicalRegister) (h : HHL) : HHL :=
  {| _matrix := _matrix h; _vector := _vector h; _eigs := _eigs h;
     _init_state := _init_state h; _reciprocal := _reciprocal h;
     _num_q := _num_q h; _num_a := _num_a h; _circuit := _circuit h;
     _io_register := _io_register h;
     _eigenvalue_register := _eigenvalue_register h;
     _ancilla_register := _ancilla_register h;
     _success_bit := c; _ret := _ret h;
     _quantum_instance := _quantum_instance h |}.

(** [self._ret[key] = v] *)
Definition set_ret (key : string) (v : pyval) (h : HHL) : HHL :=
  {| _matrix := _matrix h; _vector := _vector h; _eigs := _eigs h;
     _init_state := _init_state h; _reciprocal := _reciprocal h;
     _num_q := _num_q h; _num_a := _num_a h; _circuit := _circuit h;
     _io_register := _io_register h;
     _eigenvalue_register := _eigenvalue_register h;
     _ancilla_register := _ancilla_register h;
     _success_bit := _success_bit h; _ret := <[key := v]> (_ret h);
     _quantum_instance := _quantum_instance h |}.

(** [QuantumAlgorithm.run] stores the backend before it calls [_run]. *)
Definition set_quantum_instance (qi : QuantumInstance) (h : HHL) : HHL :=
  {| _matrix := _matrix h; _vector := _vector h; _eigs := _eigs h;
     _init_state := _init_state h; _reciprocal := _reciprocal h;
     _num_q := _num_q h; _num_a := _num_a h; _circuit := _circuit h;
     _io_register := _io_register h;
     _eigenvalue_register := _eigenvalue_register h;
     _ancilla_register := _ancilla_register h;
     _success_bit := _success_bit h; _ret := _ret h;
     _quantum_instance := Some qi |}.

(** [HHL.__init__] *)
Definition __init__ (matrix : matrix) (vector : vector)
    (eigs : option Eigenvalues) (init_state : option InitialState)
    (reciprocal : option Reciprocal) (num_q num_a : Z) : HHL :=
  {| _matrix := matrix; _vector := vector; _eigs := eigs;
     _init_state := init_state; _reciprocal := reciprocal;
     _num_q := num_q; _num_a := num_a; _circuit := None;
     _io_register := None; _eigenvalue_register := None;
     _ancilla_register := None; _success_bit := None; _ret := ∅;
     _quantum_instance := None |}.

(** ** The monad of the methods *)

(** The calls of [construct_circuit] and of the two extraction methods, in
    order (a ghost log). *)
Inductive call : Type :=
| CallConstructCircuit (measurement : bool)
| CallStatevectorSimulation
| CallStateTomography.

(** [self], the log, and the counter from which the library draws the
    names of the registers and circuits it is not given a name for. *)
Record World := {
  self : HHL;
  calls : list call;
  instances : nat
}.

Definition M (A : Type) : Type := World → World * result A.

#[global] Instance M_ret : MRet M := λ A a w, (w, Ok a).
#[global] Instance M_bind : MBind M := λ A B f m w,
  match m w with
  | (w', Ok a) => f a w'
  | (w', Raise e) => (w', Raise e)
  end.

Definition lift {A} (r : result A) : M A := λ w, (w, r).
Definition raise {A} (e : exn) : M A := λ w, (w, Raise e).
Definition gets {A} (f : HHL → A) : M A := λ w, (w, Ok (f (self w))).
Definition with_self (f : HHL → HHL) (w : World) : World :=
  {| self := f (self w); calls := calls w; instances := instances w |}.
Definition modify (f : HHL → HHL) : M unit := λ w, (with_self f w, Ok tt).
Definition log (c : call) : M unit := λ w,
  ({| self := self w; calls := calls w ++ [c]; instances := instances w |}, Ok tt).
Definition next_instance : M nat := λ w,
  ({| self := self w; calls := calls w; instances := S (instances w) |},
   Ok (instances w)).

(** An attribute read and used as an object; the use fails when the
    attribute is still [None]. *)
Definition attribute {A} (f : HHL → option A) : M A :=
  o ← gets f; from_option mret (raise AttributeError) o.

(** [ClassicalRegister(size)] and [QuantumCircuit(q)], named by the library. *)
Definition new_ClassicalRegister (size : Z) : M ClassicalRegister :=
  n ← next_instance;
  if size <=? 0 then raise (QiskitError "register size must be positive")
  else mret {| creg_name := "c" +:+ pretty n; creg_size := size |}.

Definition new_QuantumCircuit (q : QuantumRegister) : M QuantumCircuit :=
  n ← next_instance;
  mret {| circ_name := "circuit" +:+ pretty n; qregs := [q]; cregs := [];
          data := [] |}.

(** ** The methods of HHL *)

(** [k[-1] == "1"] counts [v] as a success, anything else as a failure. *)
Fixpoint count_success (items : list (string * Z)) (s f : Z) : result (Z * Z) :=
  match items with
  | [] => Ok (s, f)
  | (k, v) :: rest =>
      c ← py_index k (-1);
      if bool_decide (c = "1"%char) then count_success rest (s + v) f
      else count_success rest s (f + v)
  end.

(** [s/(f+s)] on Python integers. *)
Definition success_ratio (s f : Z) : result npfloat :=
  if f + s =? 0 then Raise ZeroDivisionError else Ok (Some (IZR s / IZR (f + s))%R).

Section Methods.
Context (tomo : TomographyLib) (linalg : NumpyLinalg) (measures : CircuitMeasures).

Definition construct_circuit (measurement : bool) : M QuantumCircuit :=
  log (CallConstructCircuit measurement);;
  num_q ← gets _num_q;
  q ← lift (new_QuantumRegister num_q "io");
  qc ← new_QuantumCircuit q;
  (* InitialState *)
  init_state ← attribute _init_state;
  frag ← lift (init_state_construct_circuit init_state q);
  qc ← lift (circuit_iadd qc frag);
  (* EigenvalueEstimation (QPE) *)
  eigs ← attribute _eigs;
  '(frag, built) ← lift (eigs_construct_circuit eigs q);
  qc ← lift (circuit_iadd qc frag);
  let a := eigs_output_register built in
  (* Reciprocal calculation with rotation *)
  reciprocal ← attribute _reciprocal;
  '(frag, s) ← lift (reciprocal_construct_circuit reciprocal a);
  qc ← lift (circuit_iadd qc frag);
  (* Inverse EigenvalueEstimation *)
  frag ← lift (eigs_construct_inverse eigs (eigs_circuit built)
                 (eigs_input_register built) (eigs_output_register built));
  qc ← lift (circuit_iadd qc frag);
  (* Measurement of the ancilla qubit *)
  qc ← (if measurement then
          c ← new_ClassicalRegister 1;
          qc ← lift (add_register qc c);
          qc ← lift (measure qc s c);
          modify (set_success_bit (Some c));;
          mret qc
        else mret qc);
  modify (set_registers (Some q) (Some a) (Some s));;
  modify (set_circuit (Some qc));;
  mret qc.

Definition _hhl_results (vec : vector) : M unit :=
  modify (set_ret "output_hhl" (VVector vec));;
  (* Calculating the fidelity with the classical solution *)
  matrix ← gets _matrix;
  vector ← gets _vector;
  theo ← lift (linalg_solve linalg matrix vector);
  let theo := np_vdiv theo (np_complex (np_norm theo)) in
  d ← lift (np_dot theo (np_conj <$> vec));
  modify (set_ret "fidelity_hhl_to_classical"
            (VFloat ((λ x, x ^ 2)%R <$> np_abs d)));;
  (* Rescaling the output vector to the real solution vector *)
  tmp_vec ← lift (np_matvec matrix vec);
  let f1 := np_fdiv (np_norm vector) (np_norm tmp_vec) in
  prod ← lift (np_vmul vector (np_conj <$> tmp_vec));
  let angles :=
    (λ z, np_angle (np_add (np_sub z (Some C1)) (Some C1))) <$> prod in
  num_q ← gets _num_q;
  f2 ← lift (match angles with
             | [] => if num_q =? 0 then Raise ZeroDivisionError
                     else Ok (Some (0 / IZR num_q)%R)
             | _ => Ok (np_fdiv (py_fsum angles) (Some (IZR num_q)))
             end);
  modify (set_ret "solution_hhl"
            (VVector (np_vmul_scalar (np_vscale (np_complex f1) vec)
                        (np_exp (np_mul (Some (0, -1)%R) (np_complex f2)))))).

Definition _statevector_simulation : M unit :=
  log CallStatevectorSimulation;;
  quantum_instance ← attribute _quantum_instance;
  circuit ← attribute _circuit;
  res ← lift (execute quantum_instance [circuit]);
  sv ← lift (get_statevector res circuit);
  (* Extract solution vector from statevector *)
  reciprocal ← attribute _reciprocal;
  num_q ← gets _num_q;
  vec ← lift (sv_to_resvec reciprocal sv num_q);
  p ← lift (np_dot vec (np_conj <$> vec));
  modify (set_ret "probability_result" (VComplex p));;
  let vec := np_vdiv vec (np_complex (np_norm vec)) in
  _hhl_results vec.

(** [rho_fit[:, 0]/np.sqrt(rho_fit[0, 0])] *)
Definition tomography_state (rho_fit : matrix) : result vector :=
  col ← np_column0 rho_fit;
  e ← np_entry00 rho_fit;
  Ok (np_vdiv col (np_sqrt e)).

(** [_state_tomography] up to the fit of the density matrix. *)
Definition _state_tomography_fit : M matrix :=
  log CallStateTomography;;
  (* Preparing the state tomography circuits *)
  num_q ← gets _num_q;
  c ← new_ClassicalRegister num_q;
  circuit ← attribute _circuit;
  circuit ← lift (add_register circuit c);
  modify (set_circuit (Some circuit));;
  let tomo_qbits := seqZ 0 num_q in
  tomo_set ← lift (state_tomography_set tomo tomo_qbits);
  io_register ← attribute _io_register;
  tomo_circuits ←
    lift (create_tomography_circuits tomo circuit io_register c tomo_set);
  (* Handling the results *)
  quantum_instance ← attribute _quantum_instance;
  result ← lift (execute quantum_instance tomo_circuits);
  probs ← lift (mapM (λ circ, cnts ← get_counts result (circ_name circ);
                              '(s, f) ← count_success cnts 0 0;
                              success_ratio s f)
                     tomo_circuits);
  modify (set_ret "probability_result" (VFloats probs));;
  (* Filtering the tomo data for valid results, i.e. c0==1 *)
  select ← gets _success_bit;
  tomo_data ←
    lift (_tomo_postselect tomo result (circ_name circuit) tomo_set select);
  (* Fitting the tomography data *)
  lift (fit_tomography_data tomo tomo_data).

Definition _state_tomography : M unit :=
  rho_fit ← _state_tomography_fit;
  vec ← lift (tomography_state rho_fit);
  _hhl_results vec.

Definition _run : M (gmap string pyval) :=
  quantum_instance ← attribute _quantum_instance;
  (if is_statevector quantum_instance then
     construct_circuit false;;
     _statevector_simulation
   else
     construct_circuit true;;
     _state_tomography);;
  (* Adding a bit of general result information *)
  matrix ← gets _matrix;
  modify (set_ret "input_matrix" (VMatrix matrix));;
  vector ← gets _vector;
  modify (set_ret "input_vector" (VVector vector));;
  eig ← lift (linalg_eigvals linalg matrix);
  modify (set_ret "eigenvalues_classical" (VVector eig));;
  sol ← lift (linalg_solve linalg matrix vector);
  modify (set_ret "solution_classical" (VVector sol));;
  circuit ← attribute _circuit;
  width ← lift (dag_width measures circuit);
  modify (set_ret "circuit_width" (VInt width));;
  depth ← lift (dag_depth measures circuit);
  modify (set_ret "circuit_depth" (VInt depth));;
  gates ← lift (number_atomic_gates measures circuit);
  modify (set_ret "gate_count_total" (VInt gates));;
  gets _ret.
End Methods.

(** ** [HHL.init_params] *)

Inductive param : Type :=
| PStr (s : string)
| PInt (n : Z)
| PBool (b : bool)
| PFloat (x : npfloat)
| PVector (v : vector).

(** The parameters dictionary: section name to the dictionary of the section. *)
Definition params : Type := gmap string (gmap string param).

Record LinearSystemInput := {
  input_matrix : matrix;
  input_vector : vector
}.

(** [get_pluggable_class(type, name).init_params(...)] for the three types. *)
Record Pluggables := {
  eigs_init_params : string → params → matrix → result Eigenvalues;
  init_state_init_params : string → params → result InitialState;
  reciprocal_init_params : string → params → result Reciprocal
}.

(** The section keys of [Pluggable]. *)
Definition SECTION_KEY_EIGS : string := "eigs".
Definition SECTION_KEY_INITIAL_STATE : string := "initial_state".
Definition SECTION_KEY_RECIPROCAL : string := "reciprocal".

(** [section['name']] *)
Definition section_name (section : gmap string param) : result string :=
  match section !! "name" with
  | None => Raise KeyError
  | Some (PStr name) => Ok name
  | Some _ => Raise (AquaError "pluggable name is not a string")
  end.

(** [params.get(key)], then used as a dictionary. *)
Definition section_of (ps : params) (key : string) : result (gmap string param) :=
  from_option Ok (Raise TypeError) (ps !! key).

(** *** The logarithm of the row count, in float64 *)

Section Float64.
Local Open Scope R_scope.

(** The binary exponent of a nonzero [x]: the [e] with [2^e <= |x| < 2^(e+1)]. *)
Definition b64_exponent (x : R) : Z := Int_part (ln (Rabs x) / ln 2).

(** The distance between neighbouring float64 values around [x]: 53 bits of
    precision (the range of the exponent is not modelled: a dimension is
    below 2^63 and its logarithm below 63). *)
Definition b64_ulp (x : R) : R := powerRZ 2 (b64_exponent x - 52).

(** Rounding to the nearest integer, a tie to the even one. *)
Definition nearest_even (r : R) : Z :=
  let f := Int_part r in
  if decide (r - IZR f < 1 / 2) then f
  else if decide (1 / 2 < r - IZR f) then (f + 1)%Z
  else if Z.even f then f else (f + 1)%Z.

(** The float64 nearest to [x]. *)
Definition b64_round (x : R) : R :=
  IZR (nearest_even (x / b64_ulp x)) * b64_ulp x.
End Float64.

(** [np.log2(n)] for a Python int [n >= 0]: [n] is converted to float64, and
    the result is the float64 nearest to the logarithm; [np.log2(0)] is
    [-inf]. *)
Definition np_log2 (n : nat) : npfloat :=
  if decide (n = 0%nat) then None
  else Some (b64_round (ln (b64_round (INR n)) / ln 2)).

(** [x % 1] on a float64: [x - floor(x)], exact; nan for a non-finite [x]. *)
Definition np_mod1 (x : npfloat) : npfloat :=
  (λ r, (r - IZR (Int_part r))%R) <$> x.

(** [np.log2(n) % 1 == 0], the negation of the test of line 138 (nan differs
    from 0). *)
Definition log2_is_integer (n : nat) : bool :=
  match np_mod1 (np_log2 n) with
  | Some r => bool_decide (r = 0%R)
  | None => false
  end.

(** Lines 135-141: the two checks on the sizes. *)
Definition check_sizes (matrix : matrix) (vector : vector) : result unit :=
  if negb (length matrix =? length vector)%nat then
    Raise (ValueError
             "Input vector dimension does not match input matrix dimension!")
  else if negb (log2_is_integer (length matrix)) then
    Raise (ValueError "Matrix dimension must be 2**n!")
  else Ok tt.

Section InitParams.
Context (pluggables : Pluggables).

(** Lines 143-163: the three modules are initialised and the object is
    built. *)
Definition init_modules (ps : params) (matrix : matrix) (vector : vector)
    : result HHL :=
  (* Initialize eigenvalue finding module *)
  eigs_params ← section_of ps SECTION_KEY_EIGS;
  name ← section_name eigs_params;
  eigs ← eigs_init_params pluggables name ps matrix;
  let '(num_q, num_a) := get_register_sizes eigs in
  (* Initialize initial state module *)
  let tmpvec := vector in
  init_state_params ← section_of ps SECTION_KEY_INITIAL_STATE;
  let init_state_params :=
    <["state_vector" := PVector tmpvec]>
      (<["num_qubits" := PInt num_q]> init_state_params) in
  let ps := <[SECTION_KEY_INITIAL_STATE := init_state_params]> ps in
  name ← section_name init_state_params;
  init_state ← init_state_init_params pluggables name ps;
  (* Initialize reciprocal rotation module *)
  reciprocal_params ← section_of ps SECTION_KEY_RECIPROCAL;
  let reciprocal_params :=
    <["evo_time" := PFloat (_evo_time eigs)]>
      (<["negative_evals" := PBool (_negative_evals eigs)]> reciprocal_params) in
  let ps := <[SECTION_KEY_RECIPROCAL := reciprocal_params]> ps in
  name ← section_name reciprocal_params;
  reci ← reciprocal_init_params pluggables name ps;
  Ok (__init__ matrix vector (Some eigs) (Some init_state) (Some reci) num_q num_a).

Definition init_params (ps : params) (algo_input : option LinearSystemInput)
    : result HHL :=
  match algo_input with
  | None => Raise (AquaError "LinearSystemInput instance is required.")
  | Some algo_input =>
      let matrix := input_matrix algo_input in
      let vector := input_vector algo_input in
      check_sizes matrix vector;;
      init_modules ps matrix vector
  end.
End InitParams.

(** ** The array operations on finite values *)

Definition cdot (u v : list C) : C :=
  foldr (λ p acc, Cadd (Cmul p.1 p.2) acc) C0 (zip u v).
Definition matvec (A : list (list C)) (v : list C) : list C :=
  (λ row, cdot row v) <$> A.
Definition sumsq (v : list C) : R := foldr (λ x acc, (Cmod2 x + acc)%R) 0%R v.
Definition norm (v : list C) : R := sqrt (sumsq v).

(** A finite array as a numpy array. *)
Definition finite (v : list C) : vector := Some <$> v.
Definition finite_matrix (A : list (list C)) : matrix := finite <$> A.

(** ** Effects of a method *)

(** A method that leaves a component of the state as it is, whether it
    returns or raises. *)
Definition preserves {X A} (proj : World → X) (m : M A) : Prop :=
  ∀ w, proj (m w).1 = proj w.

(** A method that adds exactly [l] to the log of calls. *)
Definition appends {A} (l : list call) (m : M A) : Prop :=
  ∀ w, calls (m w).1 = calls w ++ l.

(** The inputs held by the object. *)
Definition inputs (w : World) : matrix * vector :=
  (_matrix (self w), _vector (self w)).

(** The entry of [_ret] under a key. *)
Definition ret_at (key : string) (w : World) : option pyval :=
  _ret (self w) !! key.

(** Two fallible vectors of one shape: the same exception, or two vectors of
    one length. *)
Definition same_shape (r r' : result vector) : Prop :=
  match r, r' with
  | Ok v, Ok v' => length v = length v'
  | Raise e, Raise e' => e = e'
  | _, _ => False
  end.

(** ** Concrete collaborators, for running the model on examples *)

Module Fixture.
(** A marginaliser: keeps, of every key, the bits of the
    listed qubits (qubit [q] is the character [-1-q]) and adds up the counts
    of keys that coincide. *)
Definition project_key (qubits : list Z) (k : string) : result string :=
  cs ← mapM (λ q, py_index k (-1 - q)) (reverse (merge_sort Z.le qubits));
  Ok (String.string_of_list_ascii cs).

Fixpoint sum_into (d : counts) (k : string) (v : Z) : counts :=
  match d with
  | [] => [(k, v)]
  | (k', v') :: d' =>
      if String.eqb k' k then (k', v' + v) :: d' else (k', v') :: sum_into d' k v
  end.

Fixpoint marginal_sum (qubits : list Z) (items : list (string * Z)) (acc : counts)
    : result counts :=
  match items with
  | [] => Ok acc
  | (k, v) :: rest =>
      k' ← project_key qubits k; marginal_sum qubits rest (sum_into acc k' v)
  end.

Definition marginal_counts_by_projection (d : counts) (qubits : list Z)
    : result counts :=
  marginal_sum qubits d [].

Definition z_basis (qubits : list Z) : tomo_circuit :=
  {| tc_meas := (λ q, (q, "Z"%string)) <$> qubits; tc_prep := None |}.

(** A tomography library with one measurement setting (all qubits in the
    Z basis), the marginaliser by projection, and a fit that returns a
    given matrix. *)
Definition tomo (rho : matrix) : TomographyLib :=
  {| state_tomography_set := λ qubits,
       Ok {| ts_qubits := qubits; ts_circuits := [z_basis qubits];
             ts_meas_basis := "Pauli"; ts_prep_basis := None |};
     create_tomography_circuits := λ circuit _ _ _, Ok [circuit];
     tomography_circuit_names := λ _ name, [name];
     marginal_counts := marginal_counts_by_projection;
     fit_tomography_data := λ _, Ok rho |}.

(** The system of the specification's scenario: A = diag(1, 2),
    b = (1, 1), with the classical solution (1, 1/2). *)
Definition A : list (list C) := [[(1, 0); (0, 0)]; [(0, 0); (2, 0)]]%R.
Definition b : list C := [(1, 0); (1, 0)]%R.
Definition x : list C := [(1, 0); (1 / 2, 0)]%R.

Definition linalg : NumpyLinalg :=
  {| linalg_solve := λ _ _, Ok (finite x);
     linalg_eigvals := λ _, Ok (finite [(1, 0); (2, 0)]%R) |}.

Definition measures : CircuitMeasures :=
  {| dag_width := λ qc, Ok (py_sum (qreg_size <$> qregs qc));
     dag_depth := λ qc, Ok (Z.of_nat (length (data qc)));
     number_atomic_gates := λ qc, Ok (Z.of_nat (length (data qc))) |}.

Definition fragment (name : string) (regs : list QuantumRegister)
    : QuantumCircuit :=
  {| circ_name := name; qregs := regs; cregs := [];
     data := [Gate name ((λ r, (qreg_name r, 0)) <$> regs)] |}.

Definition init_state : InitialState :=
  {| init_state_construct_circuit := λ q, Ok (fragment "init" [q]) |}.

Definition a : QuantumRegister := {| qreg_name := "a"; qreg_size := 1 |}.
Definition anc : QuantumRegister := {| qreg_name := "anc"; qreg_size := 1 |}.

Definition eigs : Eigenvalues :=
  {| get_register_sizes := (1, 1);
     _negative_evals := false;
     _evo_time := Some 1%R;
     eigs_construct_circuit := λ q,
       Ok (fragment "qpe" [q; a],
           {| eigs_circuit := fragment "qpe" [q; a];
              eigs_input_register := q; eigs_output_register := a |});
     eigs_construct_inverse := λ _ q out, Ok (fragment "qpe_dg" [q; out]) |}.

Definition reciprocal : Reciprocal :=
  {| reciprocal_construct_circuit := λ out, Ok (fragment "rot" [out; anc], anc);
     sv_to_resvec := λ sv _, Ok (take 2 sv) |}.

(** A backend that returns amplitudes, and one that returns counts: the
    tomography bit first, the success bit last. *)
Definition statevector_backend (sv : vector) : QuantumInstance :=
  {| is_statevector := true;
     execute := λ _,
       Ok {| get_statevector := λ _, Ok sv;
             get_counts := λ _, Raise (ExternalError "no counts");
             clbit_labels := λ _, Raise IndexError |} |}.

Definition shots_backend (cnts : counts) : QuantumInstance :=
  {| is_statevector := false;
     execute := λ _,
       Ok {| get_statevector := λ _, Raise (ExternalError "no statevector");
             get_counts := λ _, Ok cnts;
             clbit_labels := λ _, Ok [("c1"%string, 0); ("c2"%string, 0)] |} |}.

Definition hhl : HHL :=
  __init__ (finite_matrix A) (finite b) (Some eigs) (Some init_state)
    (Some reciprocal) 1 1.

(** The state in which [QuantumAlgorithm.run] calls [_run]. *)
Definition world (qi : QuantumInstance) : World :=
  {| self := set_quantum_instance qi hhl; calls := []; instances := 0 |}.
End Fixture.

(** ** Further notions for the properties of the methods *)

(** The entries that the filter of [_tomo_postselect] keeps: those whose
    success bit reads 1. *)
Definition passes (p : Z) (k : string) : bool :=
  match success_bit p k with
  | Ok 1 => true
  | _ => false
  end.
Definition survivors (p : Z) (items : list (string * Z)) : list (string * Z) :=
  filter (λ kv, passes p kv.1 = true) items.

(** A key in the format of the backend for the two classical registers of
    the tomography path: the bits of the tomography register, a space, and
    the bit of the success register. *)
Definition backend_key (bits : string) (success : bool) : string :=
  bits +:+ " " +:+ (if success then "1" else "0").

(** The body of the loop that fills [probs] in [_state_tomography], for the
    counts of one tomography circuit: [s/(f+s)]. *)
Definition circuit_probability (cnts : counts) : result npfloat :=
  '(s, f) ← count_success cnts 0 0; success_ratio s f.

(** An entry of the tomography data whose parts agree: the shots are the
    sum of the counts, and there is one circuit entry per outcome. *)
Definition datum_consistent (d : tomo_datum) : Prop :=
  td_shots d = py_sum (py_values (td_counts d)) ∧
  py_keys (td_circuit d) = py_keys (td_counts d).

(** A method that leaves [self] as it was whenever it raises. *)
Definition atomic {A} (m : M A) : Prop :=
  ∀ w e, (m w).2 = Raise e → self (m w).1 = self w.

(** The keys of [_ret], those that [_hhl_results] writes, and those that a
    run writes. *)
Definition ret_keys (w : World) : gset string := dom (_ret (self w)).

Definition hhl_keys : gset string :=
  {["output_hhl"; "fidelity_hhl_to_classical"; "solution_hhl"]}%string.

Definition run_keys : gset string :=
  {["probability_result"]}%string ∪ hhl_keys ∪
  {["input_matrix"; "input_vector"; "eigenvalues_classical";
    "solution_classical"; "circuit_width"; "circuit_depth";
    "gate_count_total"]}%string.

(** What the object is configured with: the three modules, the register
    sizes and the backend. *)
Definition configuration (w : World)
    : option Eigenvalues * option InitialState * option Reciprocal * Z * Z
      * option QuantumInstance :=
  (_eigs (self w), _init_state (self w), _reciprocal (self w),
   _num_q (self w), _num_a (self w), _quantum_instance (self w)).

(** A parameters dictionary with the three sections, modules that ignore
    it, and an input of dimension two, for running [init_params]. *)
Module ParamsFixture.
Definition pluggables : Pluggables :=
  {| eigs_init_params := λ _ _ _, Ok Fixture.eigs;
     init_state_init_params := λ _ _, Ok Fixture.init_state;
     reciprocal_init_params := λ _ _, Ok Fixture.reciprocal |}.

Definition section (name : string) : gmap string param :=
  {["name"%string := PStr name]}.

Definition ps : params :=
  <["eigs"%string := section "EigsQPE"]>
    (<["initial_state"%string := section "CUSTOM"]>
       (<["reciprocal"%string := section "Lookup"]> ∅)).

Definition algo_input : LinearSystemInput :=
  {| input_matrix := [[None; None]; [None; None]];
     input_vector := [None; None] |}.
End ParamsFixture.

(** * Properties *)

(** ** Validation of the input *)

Section Float64Facts.
Local Open Scope R_scope.

Lemma Rabs_bound (x b : R) : Rabs x <= b → - b <= x <= b.
Proof.
  intros H. pose proof (Rle_abs x). pose proof (Rle_abs (- x)) as H'.
  rewrite Rabs_Ropp in H'. lra.
Qed.

Lemma Int_part_IZR (z : Z) : Int_part (IZR z) = z.
Proof. symmetry. apply Int_part_spec. lra. Qed.

Lemma Int_part_between (z : Z) (r : R) : IZR z <= r < IZR z + 1 → Int_part r = z.
Proof. intros [H1 H2]. symmetry. apply Int_part_spec. lra. Qed.

Lemma nearest_even_near (z : Z) (r : R) :
  Rabs (r - IZR z) < 1 / 2 → nearest_even r = z.
Proof.
  intros H. apply Rabs_def2 in H as [H1 H2]. unfold nearest_even.
  destruct (Rle_or_lt (IZR z) r) as [Hle|Hlt].
  - rewrite (Int_part_between z) by lra. rewrite decide_True by lra. done.
  - rewrite (Int_part_between (z - 1)) by (rewrite minus_IZR; lra).
    rewrite minus_IZR.
    rewrite decide_False by lra. rewrite decide_True by lra. lia.
Qed.

Lemma nearest_even_IZR (z : Z) : nearest_even (IZR z) = z.
Proof.
  apply nearest_even_near. rewrite Rminus_diag, Rabs_R0. lra.
Qed.

Lemma nearest_even_error (r : R) : Rabs (IZR (nearest_even r) - r) <= 1 / 2.
Proof.
  unfold nearest_even. destruct (base_Int_part r) as [H1 H2].
  set (f := Int_part r) in *.
  destruct (decide (r - IZR f < 1 / 2)).
  - apply Rabs_le. lra.
  - destruct (decide (1 / 2 < r - IZR f)).
    + rewrite plus_IZR. apply Rabs_le. lra.
    + destruct (Z.even f); [|rewrite plus_IZR]; apply Rabs_le; lra.
Qed.

Lemma ln_2_pos : 0 < ln 2.
Proof. pose proof ln_lt_2. lra. Qed.

Lemma ln_2_lt_1 : ln 2 < 1.
Proof.
  rewrite <- (ln_exp 1). apply ln_increasing; [lra|].
  pose proof (exp_ineq1 1). lra.
Qed.

Lemma ln_le_mono (x y : R) : 0 < x → x <= y → ln x <= ln y.
Proof.
  intros Hx [Hlt| ->]; [|lra]. left. by apply ln_increasing.
Qed.

Lemma ln_pow2 (a : nat) : ln (2 ^ a) = INR a * ln 2.
Proof. apply ln_pow. lra. Qed.

Lemma pow2_pos (a : nat) : 0 < 2 ^ a.
Proof. apply pow_lt. lra. Qed.

(** The exponent of a number in a binade. *)
Lemma b64_exponent_spec (a : nat) (x : R) :
  2 ^ a <= x < 2 ^ (S a) → b64_exponent x = Z.of_nat a.
Proof.
  intros [H1 H2]. pose proof (pow2_pos a) as Ha. pose proof ln_2_pos as Hl.
  unfold b64_exponent. rewrite Rabs_pos_eq by lra.
  apply Int_part_between. rewrite <- INR_IZR_INZ.
  assert (INR a * ln 2 <= ln x) as Hlo.
  { rewrite <- ln_pow2. apply ln_le_mono; lra. }
  assert (ln x < (INR a + 1) * ln 2) as Hhi.
  { rewrite <- S_INR, <- ln_pow2. apply ln_increasing; lra. }
  split.
  - apply (Rmult_le_reg_r (ln 2)); [done|]. unfold Rdiv.
    rewrite Rmult_assoc, Rinv_l, Rmult_1_r by lra. done.
  - apply (Rmult_lt_reg_r (ln 2)); [done|]. unfold Rdiv.
    rewrite Rmult_assoc, Rinv_l, Rmult_1_r by lra. done.
Qed.

Lemma b64_ulp_binade (a : nat) (x : R) :
  (a <= 52)%nat → 2 ^ a <= x < 2 ^ (S a) → b64_ulp x = / 2 ^ (52 - a).
Proof.
  intros Ha Hx. unfold b64_ulp. rewrite (b64_exponent_spec a) by done.
  replace (Z.of_nat a - 52)%Z with (- Z.of_nat (52 - a))%Z by lia.
  by rewrite powerRZ_neg', <- pow_powerRZ.
Qed.

Lemma b64_ulp_pos (x : R) : 0 < b64_ulp x.
Proof. apply powerRZ_lt. lra. Qed.

Lemma b64_round_error (x : R) : Rabs (b64_round x - x) <= b64_ulp x / 2.
Proof.
  pose proof (b64_ulp_pos x) as Hu. unfold b64_round.
  pose proof (nearest_even_error (x / b64_ulp x)) as He.
  replace (IZR (nearest_even (x / b64_ulp x)) * b64_ulp x - x)
    with ((IZR (nearest_even (x / b64_ulp x)) - x / b64_ulp x) * b64_ulp x)
    by (field; lra).
  rewrite Rabs_mult, (Rabs_pos_eq (b64_ulp x)) by lra.
  apply Rmult_le_compat_r with (r := b64_ulp x) in He; lra.
Qed.

Lemma b64_round_0 : b64_round 0 = 0.
Proof.
  unfold b64_round. unfold Rdiv at 1. rewrite Rmult_0_l.
  change 0 with (IZR 0) at 1. rewrite nearest_even_IZR. lra.
Qed.

(** Integers below 2^53 are float64 values. *)
Lemma b64_round_IZR (m : Z) : (0 <= m < 2 ^ 53)%Z → b64_round (IZR m) = IZR m.
Proof.
  intros [Hm0 Hm]. destruct (Z.eq_dec m 0%Z) as [->|Hne]; [apply b64_round_0|].
  assert (0 < m)%Z as Hpos by lia.
  destruct (Z.log2_spec m Hpos) as [Hlo Hhi].
  assert (Z.log2 m < 53)%Z as Hlog by (apply Z.log2_lt_pow2; lia).
  pose proof (Z.log2_nonneg m) as Hnn.
  set (a := Z.to_nat (Z.log2 m)).
  assert (Z.log2 m = Z.of_nat a) as Ha by (unfold a; lia).
  rewrite Ha in Hlo, Hhi.
  assert (2 ^ a <= IZR m < 2 ^ S a) as Hbin.
  { rewrite !pow_IZR. split; [apply IZR_le; lia|apply IZR_lt].
    replace (Z.of_nat (S a)) with (Z.succ (Z.of_nat a)) by lia. done. }
  unfold b64_round. rewrite (b64_ulp_binade a) by (done || lia).
  pose proof (pow2_pos (52 - a)) as Hp.
  replace (IZR m / / 2 ^ (52 - a)) with (IZR (m * 2 ^ Z.of_nat (52 - a))).
  - rewrite nearest_even_IZR, mult_IZR, <- pow_IZR. field. lra.
  - rewrite mult_IZR, <- pow_IZR. field. lra.
Qed.

Lemma b64_round_INR (n : nat) :
  (Z.of_nat n < 2 ^ 53)%Z → b64_round (INR n) = INR n.
Proof. intros Hn. rewrite INR_IZR_INZ. apply b64_round_IZR. lia. Qed.

(** The logarithm separates unequal positive numbers. *)
Lemma ln_gap (a b : R) : 0 < a → a < b → (b - a) / b <= ln b - ln a.
Proof.
  intros Ha Hab.
  assert (ln (a / b) = ln a - ln b) as Hln.
  { unfold Rdiv. rewrite ln_mult, ln_Rinv; [lra|lra|lra|].
    apply Rinv_0_lt_compat. lra. }
  pose proof (exp_ineq1_le (ln (a / b))) as He.
  rewrite exp_ln in He by (apply Rdiv_lt_0_compat; lra).
  rewrite Hln in He.
  replace ((b - a) / b) with (1 - a / b) by (field; lra). lra.
Qed.

Lemma ln_1_plus (x : R) : 0 < x → 0 < ln (1 + x) < x.
Proof.
  intros Hx. split.
  - rewrite <- ln_1. apply ln_increasing; lra.
  - rewrite <- (ln_exp x) at 2. apply ln_increasing; [lra|].
    apply exp_ineq1. lra.
Qed.
End Float64Facts.

Section Log2Check.
Local Open Scope R_scope.

Lemma INR_pow2 (k : nat) : INR (2 ^ k) = 2 ^ k.
Proof. rewrite pow_INR. done. Qed.

Lemma Z_of_nat_pow2 (k : nat) : Z.of_nat (2 ^ k) = (2 ^ Z.of_nat k)%Z.
Proof. by rewrite Nat2Z.inj_pow. Qed.

Lemma log2_exact (k : nat) : ln (2 ^ k) / ln 2 = INR k.
Proof. rewrite ln_pow2. field. pose proof ln_2_pos. lra. Qed.

(** A power of two below 2^53 passes the test. *)
Lemma log2_is_integer_pow2 (k : nat) :
  (k < 53)%nat → log2_is_integer (2 ^ k) = true.
Proof.
  intros Hk. unfold log2_is_integer, np_log2.
  rewrite decide_False by (apply Nat.pow_nonzero; lia).
  rewrite b64_round_INR.
  2:{ rewrite Z_of_nat_pow2. apply Z.pow_lt_mono_r; lia. }
  rewrite INR_pow2, log2_exact.
  rewrite b64_round_INR.
  2:{ apply Z.lt_trans with 53%Z; [lia|done]. }
  cbn [np_mod1 fmap option_fmap option_map].
  rewrite Int_part_INR, <- INR_IZR_INZ, Rminus_diag.
  by rewrite bool_decide_eq_true_2.
Qed.

(** Below 64 the float64 values are at most 2^-47 apart. *)
Lemma b64_ulp_below_64 (y : R) : 1 <= y < 64 → b64_ulp y <= / 2 ^ 47.
Proof.
  intros [H1 H64].
  assert (∃ a : nat, (a <= 5)%nat ∧ 2 ^ a <= y < 2 ^ S a) as (a & Ha & Hbin).
  { destruct (Rlt_dec y 2); [exists 0%nat; simpl; split; [lia|lra]|].
    destruct (Rlt_dec y 4); [exists 1%nat; simpl; split; [lia|lra]|].
    destruct (Rlt_dec y 8); [exists 2%nat; simpl; split; [lia|lra]|].
    destruct (Rlt_dec y 16); [exists 3%nat; simpl; split; [lia|lra]|].
    destruct (Rlt_dec y 32); [exists 4%nat; simpl; split; [lia|lra]|].
    exists 5%nat. simpl. split; [lia|lra]. }
  rewrite (b64_ulp_binade a) by (lia || done).
  apply Rinv_le_contravar; [apply pow2_pos|].
  apply Rle_pow; [lra|lia].
Qed.

(** A number strictly between two consecutive powers of two, below 2^48,
    fails the test: its logarithm is further from both integers than the
    rounding can move it. *)
Lemma log2_is_integer_between (n k : nat) :
  (2 ^ k < n < 2 ^ S k)%nat → (k < 48)%nat → log2_is_integer n = false.
Proof.
  intros [Hlo Hhi] Hk.
  assert (1 <= k)%nat as Hk1.
  { destruct k; [simpl in *; lia|lia]. }
  assert (INR (2 ^ k) < INR n < INR (2 ^ S k)) as [Hlo' Hhi']
    by (split; by apply lt_INR).
  rewrite !INR_pow2 in Hlo', Hhi'.
  pose proof (pow2_pos k) as Hpk. pose proof (pow2_pos (S k)) as HpSk.
  pose proof ln_2_pos as Hl. pose proof ln_2_lt_1 as Hl1.
  unfold log2_is_integer, np_log2.
  rewrite decide_False by lia.
  rewrite b64_round_INR.
  2:{ apply Z.lt_trans with (Z.of_nat (2 ^ S k)); [lia|].
      rewrite Z_of_nat_pow2. apply Z.pow_lt_mono_r; lia. }
  set (y := ln (INR n) / ln 2).
  set (g := / 2 ^ S k).
  assert (0 < g) as Hg by (apply Rinv_0_lt_compat; done).
  assert (/ 2 ^ 48 <= g) as Hg48.
  { apply Rinv_le_contravar; [done|]. apply Rle_pow; [lra|lia]. }
  (* the logarithm is further than [g] from [k] and from [k + 1] *)
  assert (INR k + g < y) as Hylo.
  { pose proof (ln_gap (2 ^ k) (INR n) Hpk Hlo') as Hgap.
    rewrite ln_pow2 in Hgap.
    assert (g < (INR n - 2 ^ k) / INR n) as Hgn.
    { assert (1 <= INR n - 2 ^ k).
      { rewrite <- INR_pow2, <- minus_INR by lia.
        change 1 with (INR 1). apply le_INR. lia. }
      unfold g. apply Rlt_le_trans with (/ INR n).
      - apply Rinv_lt_contravar; [apply Rmult_lt_0_compat; lra|lra].
      - unfold Rdiv. rewrite <- (Rmult_1_l (/ INR n)) at 1.
        apply Rmult_le_compat_r; [|lra].
        left. apply Rinv_0_lt_compat. lra. }
    unfold y. apply (Rmult_lt_reg_r (ln 2)); [done|].
    unfold Rdiv. rewrite Rmult_assoc, Rinv_l, Rmult_1_r by lra. nra. }
  assert (y < INR (S k) - g) as Hyhi.
  { assert (0 < INR n) as Hn0 by lra.
    pose proof (ln_gap (INR n) (2 ^ S k) Hn0 Hhi') as Hgap.
    rewrite ln_pow2 in Hgap.
    assert (g <= (2 ^ S k - INR n) / 2 ^ S k) as Hgn.
    { assert (1 <= 2 ^ S k - INR n).
      { rewrite <- INR_pow2, <- minus_INR by lia.
        change 1 with (INR 1). apply le_INR. lia. }
      unfold g, Rdiv. rewrite <- (Rmult_1_l (/ 2 ^ S k)) at 1.
      apply Rmult_le_compat_r; [|lra].
      left. apply Rinv_0_lt_compat. lra. }
    unfold y. apply (Rmult_lt_reg_r (ln 2)); [done|].
    unfold Rdiv. rewrite Rmult_assoc, Rinv_l, Rmult_1_r by lra. nra. }
  (* and the rounding moves it by at most 2^-48 *)
  assert (1 <= INR k) as HkR by (change 1 with (INR 1); by apply le_INR).
  assert (INR (S k) <= 48) as HSk.
  { rewrite INR_IZR_INZ. apply IZR_le. lia. }
  pose proof (b64_round_error y) as Herr.
  assert (b64_ulp y <= / 2 ^ 47) as Hulp by (apply b64_ulp_below_64; lra).
  assert (/ 2 ^ 47 / 2 = / 2 ^ 48) as H48 by (simpl; lra).
  apply Rabs_bound in Herr.
  assert (INR k < b64_round y < INR k + 1) as [Hr1 Hr2].
  { rewrite S_INR in Hyhi. lra. }
  cbn [np_mod1 fmap option_fmap option_map].
  rewrite (Int_part_between (Z.of_nat k)) by (rewrite <- INR_IZR_INZ; lra).
  rewrite <- INR_IZR_INZ. apply bool_decide_eq_false_2. lra.
Qed.

(** 2^49 + 1 passes the test: its logarithm is 49 plus less than half the
    distance 2^-47 between the float64 values around 49. *)
Lemma log2_is_integer_above_2_49 :
  log2_is_integer (Z.to_nat (2 ^ 49 + 1)) = true.
Proof.
  pose proof ln_2_pos as Hl. pose proof ln_lt_2 as Hl2.
  pose proof (pow2_pos 47) as H47. pose proof (pow2_pos 49) as H49.
  assert (2 ^ 48 = 2 * 2 ^ 47) as E48 by done.
  assert (2 ^ 49 = 2 * 2 ^ 48) as E49 by done.
  assert (0 < 2 ^ 49 + 1)%Z as Hpos by (apply Z.add_pos_pos; [by apply Z.pow_pos_nonneg|done]).
  unfold log2_is_integer, np_log2.
  rewrite decide_False.
  2:{ intros H0. apply (f_equal Z.of_nat) in H0. rewrite Z2Nat.id in H0; lia. }
  rewrite INR_IZR_INZ, Z2Nat.id by lia.
  rewrite b64_round_IZR.
  2:{ split; [lia|]. apply Z.lt_le_trans with (2 ^ 49 + 2 ^ 49)%Z.
      - apply Z.add_lt_mono_l. by apply Z.pow_gt_1.
      - replace (2 ^ 49 + 2 ^ 49)%Z with (2 ^ 50)%Z by done.
        by apply Z.pow_le_mono_r. }
  rewrite plus_IZR. change (IZR (2 ^ 49)) with (IZR (2 ^ Z.of_nat 49)).
  rewrite <- pow_IZR.
  set (δ := ln (1 + / 2 ^ 49) / ln 2).
  assert (ln (2 ^ 49 + 1) / ln 2 = 49 + δ) as ->.
  { replace (2 ^ 49 + 1) with (2 ^ 49 * (1 + / 2 ^ 49)) by (field; lra).
    rewrite ln_mult; [|done|].
    - rewrite ln_pow2. unfold δ. rewrite INR_IZR_INZ. simpl IZR. field. lra.
    - assert (0 < / 2 ^ 49) by by apply Rinv_0_lt_compat. lra. }
  assert (0 < δ < / 2 ^ 48) as [Hδ0 Hδ].
  { assert (0 < / 2 ^ 49) as Hx by by apply Rinv_0_lt_compat.
    destruct (ln_1_plus (/ 2 ^ 49) Hx) as [Hln0 Hln].
    unfold δ. split; [by apply Rdiv_lt_0_compat|].
    apply (Rmult_lt_reg_r (ln 2)); [done|].
    unfold Rdiv. rewrite Rmult_assoc, Rinv_l, Rmult_1_r by lra.
    assert (/ 2 ^ 49 = / 2 ^ 48 / 2) as E by (rewrite E49; field; lra).
    assert (0 < / 2 ^ 48) as H48 by (apply Rinv_0_lt_compat; lra).
    assert (0 < / 2 ^ 48 * (ln 2 - / 2)) by (apply Rmult_lt_0_compat; lra).
    lra. }
  assert (/ 2 ^ 48 < 1) as Hsmall.
  { rewrite <- Rinv_1. apply Rinv_lt_contravar; lra. }
  unfold b64_round.
  rewrite (b64_ulp_binade 5) by (lia || (simpl; lra)).
  change (52 - 5)%nat with 47%nat.
  rewrite (nearest_even_near (49 * 2 ^ Z.of_nat 47)).
  - rewrite mult_IZR, <- pow_IZR.
    cbn [np_mod1 fmap option_fmap option_map].
    replace (49 * 2 ^ 47 * / 2 ^ 47) with (IZR 49) by (field; lra).
    rewrite Int_part_IZR, Rminus_diag. by rewrite bool_decide_eq_true_2.
  - rewrite mult_IZR, <- pow_IZR.
    replace ((49 + δ) / / 2 ^ 47 - 49 * 2 ^ 47) with (δ * 2 ^ 47)
      by (field; lra).
    rewrite Rabs_pos_eq by nra.
    apply Rlt_le_trans with (/ 2 ^ 48 * 2 ^ 47); [nra|].
    rewrite E48. right. field.
Qed.

Lemma not_power_of_two_above_2_49 :
  ¬ ∃ k : nat, Z.to_nat (2 ^ 49 + 1) = (2 ^ k)%nat.
Proof.
  intros [k Hk]. apply (f_equal Z.of_nat) in Hk.
  assert (0 < 2 ^ 49)%Z as Hpos by by apply Z.pow_pos_nonneg.
  rewrite Z2Nat.id, Z_of_nat_pow2 in Hk by lia.
  destruct (Z.le_gt_cases (Z.of_nat k) 49) as [Hle|Hgt].
  - pose proof (Z.pow_le_mono_r 2 (Z.of_nat k) 49). lia.
  - pose proof (Z.pow_le_mono_r 2 50 (Z.of_nat k)).
    assert (2 ^ 50 = 2 ^ 49 + 2 ^ 49)%Z by done. lia.
Qed.
End Log2Check.

Lemma pow2_lt_inv (k : nat) (b : Z) :
  Z.of_nat (2 ^ k) < 2 ^ b → 0 ≤ b → Z.of_nat k < b.
Proof.
  rewrite Z_of_nat_pow2. intros H Hb. by apply (Z.pow_lt_mono_r_iff 2).
Qed.

(** For fewer than 2^48 rows the test of line 138 is exact. *)
Lemma log2_is_integer_spec (n : nat) :
  Z.of_nat n < 2 ^ 48 →
  log2_is_integer n = true ↔ ∃ k : nat, n = (2 ^ k)%nat.
Proof.
  intros Hn. split.
  - intros H. destruct (Nat.eq_dec n 0%nat) as [->|Hn0].
    { unfold log2_is_integer, np_log2 in H. by rewrite decide_True in H. }
    destruct (Nat.log2_spec n) as [Hlo Hhi]; [lia|].
    destruct (Nat.eq_dec (2 ^ Nat.log2 n)%nat n) as [<-|Hne]; [by eexists|].
    rewrite (log2_is_integer_between n (Nat.log2 n)) in H; [done|lia|].
    assert (Z.of_nat (Nat.log2 n) < 48); [|lia].
    apply pow2_lt_inv; lia.
  - intros [k ->]. apply log2_is_integer_pow2.
    assert (Z.of_nat k < 48); [|lia]. apply pow2_lt_inv; lia.
Qed.

Lemma check_sizes_Ok (matrix : matrix) (vector : vector) :
  check_sizes matrix vector = Ok tt ↔
  length vector = length matrix ∧ log2_is_integer (length matrix) = true.
Proof.
  unfold check_sizes.
  destruct (Nat.eqb_spec (length matrix) (length vector)) as [Heq|Hne];
    cbn [negb].
  - destruct (log2_is_integer (length matrix)); cbn [negb]; split.
    + intros _. by split.
    + done.
    + discriminate.
    + intros [_ ?]. discriminate.
  - split; [discriminate|]. intros [? _]. congruence.
Qed.

Lemma check_sizes_ok (matrix : matrix) (vector : vector) :
  Z.of_nat (length matrix) < 2 ^ 48 →
  check_sizes matrix vector = Ok tt ↔
  length vector = length matrix ∧ ∃ n : nat, length matrix = (2 ^ n)%nat.
Proof.
  intros Hn. by rewrite check_sizes_Ok, log2_is_integer_spec.
Qed.

Lemma check_sizes_pow2 (k : nat) (matrix : matrix) (vector : vector) :
  (k < 53)%nat → length matrix = (2 ^ k)%nat → length vector = (2 ^ k)%nat →
  check_sizes matrix vector = Ok tt.
Proof.
  intros Hk Hm Hv. apply check_sizes_Ok. rewrite Hm, Hv.
  split; [done|by apply log2_is_integer_pow2].
Qed.

Lemma bind_Ok {A B} (r : result A) (f : A → result B) (b : B) :
  r ≫= f = Ok b → ∃ a, r = Ok a ∧ f a = Ok b.
Proof. destruct r as [a|e]; simpl; [eauto|discriminate]. Qed.

Lemma is_ok_returned {A} (r : result A) : is_ok r = true ↔ returned r.
Proof. destruct r; split; [by eexists|done|discriminate|by intros [? ?]]. Qed.

Lemma is_ok_not_raised {A} (r : result A) : is_ok r = true → ¬ raised r.
Proof. destruct r; [by intros _ [? ?]|discriminate]. Qed.

Ltac invert_bind H :=
  repeat match type of H with
         | _ ≫= _ = Ok _ =>
             let a := fresh "a" in
             let Ha := fresh "Ha" in
             apply bind_Ok in H as (a & Ha & H)
         | (let '(_, _) := ?p in _) = Ok _ => destruct p; simpl in H
         end.

Lemma init_modules_no_circuit pluggables ps matrix vector hhl :
  init_modules pluggables ps matrix vector = Ok hhl → _circuit hhl = None.
Proof.
  unfold init_modules. intros H. invert_bind H. by inversion H.
Qed.

(** C1.  For a matrix of fewer than 2^48 rows, [init_params] passes the two
    checks on the sizes exactly when the vector is as long as the matrix
    has rows and that number is a power of two; it then goes on to
    initialise the three modules.  When the lengths differ (whatever the
    size), or when they agree, are below 2^48 and are no power of two, it
    raises its own ValueError whatever the pluggable modules are, that is
    before any of them is initialised; and an object that [init_params]
    returns holds no circuit yet.  The power of two is tested on the
    float64 logarithm, though: at 2^49 + 1 rows that logarithm is rounded
    to 49.0, both checks pass for a number of rows that is no power of
    two, and [init_params] goes on to the modules. *)
Theorem init_params_validation (pluggables : Pluggables) (ps : params)
    (algo_input : LinearSystemInput) :
  let matrix := input_matrix algo_input in
  let vector := input_vector algo_input in
  (Z.of_nat (length matrix) < 2 ^ 48 →
     (check_sizes matrix vector = Ok tt ↔
        length vector = length matrix ∧
        ∃ n : nat, length matrix = (2 ^ n)%nat)) ∧
  (check_sizes matrix vector = Ok tt →
     init_params pluggables ps (Some algo_input) =
     init_modules pluggables ps matrix vector) ∧
  (length vector ≠ length matrix →
     ∀ pl, init_params pl ps (Some algo_input) =
           Raise (ValueError
                    "Input vector dimension does not match input matrix dimension!")) ∧
  (length vector = length matrix →
     Z.of_nat (length matrix) < 2 ^ 48 →
     ¬ (∃ n : nat, length matrix = (2 ^ n)%nat) →
     ∀ pl, init_params pl ps (Some algo_input) =
           Raise (ValueError "Matrix dimension must be 2**n!")) ∧
  (∀ hhl, init_params pluggables ps (Some algo_input) = Ok hhl →
          _circuit hhl = None) ∧
  (Z.of_nat (length matrix) = 2 ^ 49 + 1 →
     length vector = length matrix →
     check_sizes matrix vector = Ok tt ∧
     ¬ (∃ n : nat, length matrix = (2 ^ n)%nat) ∧
     init_params pluggables ps (Some algo_input) =
     init_modules pluggables ps matrix vector).
Proof.
  intros matrix vector. split; [apply check_sizes_ok|].
  unfold init_params. fold matrix vector. split_and!.
  - intros ->. done.
  - intros Hne pl. unfold check_sizes.
    destruct (Nat.eqb_spec (length matrix) (length vector)); [congruence|done].
  - intros Heq Hn Hpow pl. unfold check_sizes.
    destruct (Nat.eqb_spec (length matrix) (length vector)); [|congruence].
    rewrite <- log2_is_integer_spec in Hpow by done.
    destruct (log2_is_integer (length matrix)); [done|done].
  - intros hhl. destruct (check_sizes matrix vector); [|discriminate].
    cbn [mbind result_bind]. apply init_modules_no_circuit.
  - intros Hn Hv.
    assert (length matrix = Z.to_nat (2 ^ 49 + 1)) as Hlen.
    { apply Nat2Z.inj. rewrite Hn, Z2Nat.id; [done|].
      apply Z.add_nonneg_nonneg; [by apply Z.pow_nonneg|done]. }
    assert (check_sizes matrix vector = Ok tt) as Hok.
    { apply check_sizes_Ok. split; [done|].
      rewrite Hlen. apply log2_is_integer_above_2_49. }
    split_and!; [done| |by rewrite Hok].
    rewrite Hlen. apply not_power_of_two_above_2_49.
Qed.

(** An input of 2^49 + 1 rows (of no column) that passes the checks. *)
Lemma init_params_validation_witness :
  let n := Z.to_nat (2 ^ 49 + 1) in
  let algo_input :=
    {| input_matrix := replicate n []; input_vector := replicate n None |} in
  check_sizes (input_matrix algo_input) (input_vector algo_input) = Ok tt ∧
  ¬ (∃ k : nat, length (input_matrix algo_input) = (2 ^ k)%nat) ∧
  init_params ParamsFixture.pluggables ParamsFixture.ps (Some algo_input) =
  init_modules ParamsFixture.pluggables ParamsFixture.ps
    (input_matrix algo_input) (input_vector algo_input).
Proof.
  intros n algo_input.
  apply (init_params_validation ParamsFixture.pluggables ParamsFixture.ps
           algo_input).
  - unfold algo_input. cbn [input_matrix]. rewrite length_replicate.
    unfold n. apply Z2Nat.id.
    apply Z.add_nonneg_nonneg; [by apply Z.pow_nonneg|done].
  - unfold algo_input. cbn [input_matrix input_vector].
    by rewrite !length_replicate.
Defined.

(** The scenarios of the specification: a system of dimension 3 is refused
    with the error on the power of two, the system of dimension 2 passes. *)
Example check_sizes_dimension_3 :
  check_sizes (replicate 3 (replicate 3 (Some C0))) (replicate 3 (Some C0)) =
  Raise (ValueError "Matrix dimension must be 2**n!").
Proof.
  unfold check_sizes. rewrite !length_replicate. cbn [Nat.eqb negb].
  by rewrite (log2_is_integer_between 3 1) by (cbn; lia).
Qed.

Example check_sizes_dimension_2 :
  check_sizes (finite_matrix Fixture.A) (finite Fixture.b) = Ok tt.
Proof. by apply (check_sizes_pow2 1); [lia| |]. Qed.

(** ** Post-selection *)

Lemma filter_loop_all_failed select_bitpos items filt_keys filt_counts :
  (∀ k v, (k, v) ∈ items →
     ∃ p, select_bitpos = Some p ∧ success_bit p k = Ok 0) →
  filter_loop select_bitpos items filt_keys filt_counts = Ok (filt_keys, filt_counts).
Proof.
  induction items as [|[k v] items IH]; intros Hall; [done|].
  destruct (Hall k v) as (p & -> & Hbit); [left|].
  simpl. rewrite Hbit. simpl. apply IH.
  intros k' v' Hin. apply (Hall k' v'). by right.
Qed.

(** C3.  When the success bit reads 0 in every entry of the raw counts of a
    variant, no entry survives, and the filtered mapping is the placeholder
    with the one entry "0" -> 0; this mapping is what is handed to the
    marginalisation. *)
Theorem filt_labels_all_failed (tomo : TomographyLib) (select_bitpos : option Z)
    (all_counts : counts) (qubits : list Z) :
  (∀ k v, (k, v) ∈ all_counts →
     ∃ p, select_bitpos = Some p ∧ success_bit p k = Ok 0) →
  filt_labels select_bitpos all_counts = Ok [("0"%string, 0)] ∧
  postselect_counts tomo select_bitpos all_counts qubits =
    (cnts ← marginal_counts tomo [("0"%string, 0)] qubits;
     Ok (cnts, py_sum (py_values cnts))).
Proof.
  intros Hall.
  assert (filt_labels select_bitpos all_counts = Ok [("0"%string, 0)]) as Hfilt.
  { unfold filt_labels. by rewrite filter_loop_all_failed. }
  split; [done|]. unfold postselect_counts. by rewrite Hfilt.
Qed.

Lemma filt_labels_all_failed_witness :
  filt_labels (Some 0) [("01 0"%string, 3); ("11 0"%string, 5)]
    = Ok [("0"%string, 0)] ∧
  postselect_counts (Fixture.tomo []) (Some 0)
      [("01 0"%string, 3); ("11 0"%string, 5)] [0] =
    (cnts ← marginal_counts (Fixture.tomo []) [("0"%string, 0)] [0];
     Ok (cnts, py_sum (py_values cnts))).
Proof.
  apply (filt_labels_all_failed (Fixture.tomo []) (Some 0)
           [("01 0"%string, 3); ("11 0"%string, 5)] [0]).
  intros k v Hin. exists 0. split; [done|].
  apply elem_of_cons in Hin as [[= -> ->]|Hin]; [done|].
  apply elem_of_cons in Hin as [[= -> ->]|Hin]; [done|].
  by apply elem_of_nil in Hin.
Defined.

Lemma py_dict_set_fresh {V} (d : pydict V) (k : string) (v : V) :
  k ∉ py_keys d → py_dict_set d k v = d ++ [(k, v)].
Proof.
  unfold py_keys. induction d as [|[k' v'] d IH]; intros Hk; [done|].
  simpl in *. apply not_elem_of_cons in Hk as [Hne Hk].
  destruct (String.eqb_spec k' k) as [->|_]; [done|].
  by rewrite IH.
Qed.

Lemma py_dict_zip_fresh {V} (d : pydict V) (ks : list string) (vs : list V) :
  NoDup (py_keys d ++ ks) →
  foldl (λ d kv, py_dict_set d kv.1 kv.2) d (zip ks vs) = d ++ zip ks vs.
Proof.
  revert d vs. induction ks as [|k ks IH]; intros d vs Hnd.
  - simpl. by rewrite app_nil_r.
  - destruct vs as [|v vs]; simpl; [by rewrite app_nil_r|].
    apply NoDup_app in Hnd as (Hd & Hdk & Hks).
    apply NoDup_cons in Hks as [Hk Hks].
    rewrite py_dict_set_fresh by (intros Hin; apply (Hdk _ Hin); left).
    rewrite IH.
    + by rewrite <- app_assoc.
    + unfold py_keys in *. rewrite fmap_app. simpl.
      apply NoDup_app. split_and!.
      * apply NoDup_app. split_and!; [done| |apply NoDup_singleton].
        intros x Hx. rewrite list_elem_of_singleton. intros ->.
        apply (Hdk _ Hx). left.
      * intros x Hx Hin. apply elem_of_app in Hx as [Hx|Hx].
        -- apply (Hdk _ Hx). by right.
        -- apply list_elem_of_singleton in Hx as ->. done.
      * done.
Qed.

Lemma py_dict_zip_NoDup {V} (ks : list string) (vs : list V) :
  NoDup ks → py_dict_zip ks vs = zip ks vs.
Proof. intros Hnd. unfold py_dict_zip. by rewrite py_dict_zip_fresh. Qed.

Lemma filter_loop_all_passed p items filt_keys filt_counts :
  (∀ k v, (k, v) ∈ items → success_bit p k = Ok 1) →
  filter_loop (Some p) items filt_keys filt_counts =
  Ok (filt_keys ++ ((λ kv, py_slice_to kv.1 (p - 2)) <$> items),
      filt_counts ++ items.*2).
Proof.
  revert filt_keys filt_counts.
  induction items as [|[k v] items IH]; intros filt_keys filt_counts Hall.
  - simpl. by rewrite !app_nil_r.
  - simpl. rewrite (Hall k v) by left. simpl.
    rewrite IH by (intros k' v' Hin; apply (Hall k' v'); by right).
    by rewrite <- !app_assoc.
Qed.

(** The filtered mapping of a variant whose entries all pass keeps every
    count, as long as no two keys coincide once they are cut. *)
Lemma filt_labels_all_passed p (all_counts : counts) :
  (∀ k v, (k, v) ∈ all_counts → success_bit p k = Ok 1) →
  NoDup ((λ kv, py_slice_to kv.1 (p - 2)) <$> all_counts) →
  ∃ filt, filt_labels (Some p) all_counts = Ok filt ∧
          py_sum (py_values filt) = py_sum (py_values all_counts).
Proof.
  intros Hall Hnd. unfold filt_labels.
  rewrite filter_loop_all_passed by done. simpl.
  rewrite py_dict_zip_NoDup by done.
  destruct all_counts as [|kv all_counts]; simpl.
  - eexists. split; [done|]. done.
  - eexists. split; [done|]. unfold py_values. simpl.
    by rewrite snd_zip by (by rewrite !length_fmap).
Qed.

(** *** The keys that a backend returns *)

Lemma append_cons (c : Ascii.ascii) (s t : string) :
  String c s +:+ t = String c (s +:+ t).
Proof. reflexivity. Qed.

Lemma length_append_cons (s : string) (c : Ascii.ascii) (t : string) :
  String.length (s +:+ String c t) = S (String.length (s +:+ t)).
Proof.
  induction s as [|c' s IH]; [done|].
  rewrite !append_cons. cbn [String.length]. by rewrite IH.
Qed.

Lemma py_index_last_app (s : string) (c : Ascii.ascii) :
  py_index (s +:+ String c "") (-1) = Ok c.
Proof.
  unfold py_index, py_len. change (-1 <? 0) with true. cbn match.
  assert (String.length (s +:+ String c "") = S (String.length s)) as ->.
  { rewrite length_append_cons. f_equal. f_equal.
    induction s as [|c' s IH]; [done|]. rewrite append_cons. by f_equal. }
  replace (0 <=? -1 + Z.of_nat (S (String.length s))) with true
    by (symmetry; apply Z.leb_le; lia).
  replace (-1 + Z.of_nat (S (String.length s)) <? Z.of_nat (S (String.length s)))
    with true by (symmetry; apply Z.ltb_lt; lia).
  cbn [andb].
  replace (Z.to_nat (-1 + Z.of_nat (S (String.length s)))) with (String.length s)
    by lia.
  induction s as [|c' s IH]; [done|].
  rewrite append_cons. cbn [String.length String.get]. apply IH.
Qed.

Lemma backend_key_last (bits : string) (success : bool) :
  py_index (backend_key bits success) (-1) =
  Ok (if success then "1"%char else "0"%char).
Proof.
  unfold backend_key.
  replace (bits +:+ " " +:+ (if success then "1" else "0"))%string
    with ((bits +:+ " ") +:+ String (if success then "1"%char else "0"%char) "").
  - apply py_index_last_app.
  - induction bits as [|c bits IH]; [by destruct success|].
    rewrite !append_cons. f_equal. apply IH.
Qed.

Lemma success_bit_backend_key (bits : string) (success : bool) :
  success_bit 0 (backend_key bits success) = Ok (if success then 1 else 0).
Proof.
  unfold success_bit, int_at. change (-1 - 0) with (-1).
  rewrite backend_key_last. by destruct success.
Qed.

Lemma py_slice_to_backend_key (bits : string) (success : bool) :
  py_slice_to (backend_key bits success) (0 - 2) = bits.
Proof.
  unfold py_slice_to, py_len, backend_key. change (0 - 2 <? 0) with true. cbn match.
  assert (String.length (bits +:+ " " +:+ (if success then "1" else "0"))
          = S (S (String.length bits))) as ->.
  { induction bits as [|c bits IH]; [by destruct success|].
    rewrite append_cons. cbn [String.length]. by rewrite IH. }
  replace (Z.to_nat (Z.max 0 (0 - 2 + Z.of_nat (S (S (String.length bits))))))
    with (String.length bits) by lia.
  induction bits as [|c bits IH]; [by destruct success|].
  rewrite append_cons. cbn [String.length String.substring]. f_equal. apply IH.
Qed.

(** C4.  In the counts that a backend returns for a tomography circuit, a
    key holds the bits of the tomography register, a space, and the bit of
    the success register, which is read at position 0.  For every such
    mapping whose success bit is 1 in every entry, the filter loses no
    count: the filtered mapping is the raw one with the success field cut
    off its keys (the placeholder when the raw mapping is empty), its total
    is the total of the raw counts, and once the marginalisation over the
    target qubits has summed what it is given, [shots] is the total of the
    raw counts. *)
Theorem postselect_keeps_total (tomo : TomographyLib)
    (entries : list (string * Z)) (qubits : list Z) :
  let all_counts : counts := (λ e, (backend_key e.1 true, e.2)) <$> entries in
  NoDup (py_keys all_counts) →
  ∃ filt,
    filt_labels (Some 0) all_counts = Ok filt ∧
    (entries ≠ [] → filt = entries) ∧
    py_sum (py_values filt) = py_sum (py_values all_counts) ∧
    ∀ cnts, marginal_counts tomo filt qubits = Ok cnts →
            py_sum (py_values cnts) = py_sum (py_values filt) →
            postselect_counts tomo (Some 0) all_counts qubits =
            Ok (cnts, py_sum (py_values all_counts)).
Proof.
  intros all_counts Hnd.
  assert (filt_labels (Some 0) all_counts =
          Ok (if decide (entries = []) then [("0"%string, 0)] else entries))
    as Hfilt.
  { unfold filt_labels. rewrite filter_loop_all_passed.
    2:{ intros k v Hin. unfold all_counts in Hin.
        apply list_elem_of_fmap in Hin as ([bits v'] & [= -> ->] & _).
        apply success_bit_backend_key. }
    cbn [mbind result_bind app].
    assert ((λ kv : string * Z, py_slice_to kv.1 (0 - 2)) <$> all_counts =
            entries.*1) as ->.
    { unfold all_counts. rewrite <- list_fmap_compose.
      apply list_fmap_ext. intros _ [bits v] _.
      apply py_slice_to_backend_key. }
    assert (all_counts.*2 = entries.*2) as ->.
    { unfold all_counts. by rewrite <- list_fmap_compose. }
    rewrite py_dict_zip_NoDup.
    - rewrite zip_fst_snd. by destruct entries.
    - assert (py_keys all_counts =
              (λ bits, backend_key bits true) <$> entries.*1) as Hkeys.
      { unfold py_keys, all_counts. rewrite <- !list_fmap_compose.
        by apply list_fmap_ext. }
      rewrite Hkeys in Hnd. by apply NoDup_fmap_1 in Hnd. }
  eexists. split; [exact Hfilt|].
  assert (py_sum (py_values (if decide (entries = [])
                             then [("0"%string, 0)] else entries)) =
          py_sum (py_values all_counts)) as Hsum.
  { unfold all_counts, py_values. destruct (decide (entries = [])) as [->|_].
    - reflexivity.
    - by rewrite <- list_fmap_compose. }
  split_and!.
  - intros Hne. by rewrite decide_False.
  - exact Hsum.
  - intros cnts Hcnts Hkeeps. unfold postselect_counts.
    rewrite Hfilt. cbn [mbind result_bind]. rewrite Hcnts.
    cbn [mbind result_bind]. do 2 f_equal. by etrans.
Qed.

Lemma postselect_keeps_total_witness :
  postselect_counts (Fixture.tomo []) (Some 0)
    [("01 1"%string, 3); ("11 1"%string, 4)] [0; 1] =
  Ok ([("01"%string, 3); ("11"%string, 4)], 7).
Proof.
  destruct (postselect_keeps_total (Fixture.tomo [])
              [("01"%string, 3); ("11"%string, 4)] [0; 1])
    as (filt & _ & Hfilt & _ & Hshots).
  - by apply (bool_decide_unpack _).
  - rewrite (Hfilt ltac:(discriminate)) in Hshots.
    apply (Hshots [("01"%string, 3); ("11"%string, 4)]); reflexivity.
Defined.

(** ** What a method leaves unchanged *)

Section Preserves.
Context {X : Type} (proj : World → X).

Lemma preserves_ret {A} (a : A) : preserves proj (mret a).
Proof. done. Qed.

Lemma preserves_bind {A B} (m : M A) (f : A → M B) :
  preserves proj m → (∀ a, preserves proj (f a)) → preserves proj (m ≫= f).
Proof.
  intros Hm Hf w. unfold mbind, M_bind. specialize (Hm w).
  destruct (m w) as [w' [a|e]]; simpl in *; [|done].
  by rewrite Hf.
Qed.

Lemma preserves_lift {A} (r : result A) : preserves proj (lift r).
Proof. done. Qed.

Lemma preserves_raise {A} (e : exn) : preserves proj (raise e : M A).
Proof. done. Qed.

Lemma preserves_gets {A} (f : HHL → A) : preserves proj (gets f).
Proof. done. Qed.

Lemma preserves_attribute {A} (f : HHL → option A) : preserves proj (attribute f).
Proof.
  apply preserves_bind; [apply preserves_gets|].
  intros [a|]; [apply preserves_ret|apply preserves_raise].
Qed.
End Preserves.

Lemma preserves_inputs_modify (f : HHL → HHL) :
  (∀ h, _matrix (f h) = _matrix h ∧ _vector (f h) = _vector h) →
  preserves inputs (modify f).
Proof. intros Hf w. unfold inputs. simpl. by destruct (Hf (self w)) as [-> ->]. Qed.

Lemma preserves_inputs_log c : preserves inputs (log c).
Proof. done. Qed.

Lemma preserves_inputs_next_instance : preserves inputs next_instance.
Proof. done. Qed.

Lemma preserves_calls_modify f : preserves calls (modify f).
Proof. done. Qed.

Lemma preserves_calls_next_instance : preserves calls next_instance.
Proof. done. Qed.

Ltac preserves_step :=
  lazymatch goal with
  | |- preserves _ (mbind _ _) => apply preserves_bind; [|intros ?]
  | |- preserves _ (mret _) => apply preserves_ret
  | |- preserves _ (lift _) => apply preserves_lift
  | |- preserves _ (raise _) => apply preserves_raise
  | |- preserves _ (gets _) => apply preserves_gets
  | |- preserves _ (attribute _) => apply preserves_attribute
  | |- preserves inputs (modify _) => apply preserves_inputs_modify; by intros []
  | |- preserves inputs (log _) => apply preserves_inputs_log
  | |- preserves inputs next_instance => apply preserves_inputs_next_instance
  | |- preserves calls (modify _) => apply preserves_calls_modify
  | |- preserves calls next_instance => apply preserves_calls_next_instance
  | |- preserves _ (if ?b then _ else _) => destruct b
  | |- preserves _ (match ?x with _ => _ end) => destruct x
  end.

Ltac solve_preserves := repeat preserves_step.

Section MethodsPreserve.
Context (tomo : TomographyLib) (linalg : NumpyLinalg) (measures : CircuitMeasures).

Lemma new_ClassicalRegister_inputs size :
  preserves inputs (new_ClassicalRegister size).
Proof. unfold new_ClassicalRegister. solve_preserves. Qed.

Lemma new_ClassicalRegister_calls size :
  preserves calls (new_ClassicalRegister size).
Proof. unfold new_ClassicalRegister. solve_preserves. Qed.

Lemma construct_circuit_inputs measurement :
  preserves inputs (construct_circuit measurement).
Proof.
  unfold construct_circuit, new_QuantumCircuit. solve_preserves.
  all: try apply new_ClassicalRegister_inputs; solve_preserves.
Qed.

Lemma _hhl_results_inputs vec : preserves inputs (_hhl_results linalg vec).
Proof. unfold _hhl_results. solve_preserves. Qed.

Lemma _hhl_results_calls vec : preserves calls (_hhl_results linalg vec).
Proof. unfold _hhl_results. solve_preserves. Qed.

Lemma _statevector_simulation_inputs :
  preserves inputs (_statevector_simulation linalg).
Proof.
  unfold _statevector_simulation. solve_preserves.
  apply _hhl_results_inputs.
Qed.

Lemma _state_tomography_inputs :
  preserves inputs (_state_tomography tomo linalg).
Proof.
  unfold _state_tomography, _state_tomography_fit. solve_preserves.
  all: first [apply new_ClassicalRegister_inputs | apply _hhl_results_inputs].
Qed.

Lemma _run_inputs : preserves inputs (_run tomo linalg measures).
Proof.
  unfold _run. solve_preserves.
  all: first [apply construct_circuit_inputs
             | apply _statevector_simulation_inputs
             | apply _state_tomography_inputs ].
Qed.
End MethodsPreserve.

(** ** Complex arithmetic *)

Section ComplexFacts.
Local Open Scope R_scope.

Lemma Cmod2_nonneg (a : C) : 0 <= Cmod2 a.
Proof. unfold Cmod2. nra. Qed.

Lemma Cmod_sqr (a : C) : Cmod a ^ 2 = Cmod2 a.
Proof.
  unfold Cmod. simpl. rewrite Rmult_1_r. apply sqrt_sqrt, Cmod2_nonneg.
Qed.

Lemma Cmod2_mul (a b : C) : Cmod2 (Cmul a b) = Cmod2 a * Cmod2 b.
Proof. unfold Cmod2, Cmul. simpl. ring. Qed.

Lemma Cmod2_conj (a : C) : Cmod2 (Cconj a) = Cmod2 a.
Proof. unfold Cmod2, Cconj. simpl. ring. Qed.

Lemma Cmod2_RtoC (x : R) : Cmod2 (RtoC x) = x * x.
Proof. unfold Cmod2, RtoC. simpl. ring. Qed.

Lemma Cmod2_div_real (a : C) (x : R) :
  x ≠ 0 → Cmod2 (Cdiv a (RtoC x)) = Cmod2 a / (x * x).
Proof. intros Hx. unfold Cdiv, RtoC, Cmod2. simpl. field. done. Qed.

Lemma Cmul_conj_scaled (ph t : C) :
  Cmul t (Cconj (Cmul ph t)) = Cmul (Cconj ph) (RtoC (Cmod2 t)).
Proof. unfold Cmul, Cconj, RtoC, Cmod2. simpl. f_equal; ring. Qed.

Lemma Cmul_add_distr_l (c a b : C) :
  Cmul c (Cadd a b) = Cadd (Cmul c a) (Cmul c b).
Proof. unfold Cmul, Cadd. simpl. f_equal; ring. Qed.

Lemma Cmul_C0_r (c : C) : Cmul c C0 = C0.
Proof. unfold Cmul, C0. simpl. f_equal; ring. Qed.

Lemma Cmul_scaled_r (a c1 x c2 : C) :
  Cmul a (Cmul (Cmul c1 x) c2) = Cmul (Cmul c1 c2) (Cmul a x).
Proof. unfold Cmul. simpl. f_equal; ring. Qed.

Lemma RtoC_add (x y : R) : Cadd (RtoC x) (RtoC y) = RtoC (x + y).
Proof. unfold Cadd, RtoC. simpl. f_equal; ring. Qed.

Lemma RtoC_neq_0 (x : R) : x ≠ 0 → RtoC x ≠ C0.
Proof. intros Hx [=]. done. Qed.

Lemma Cmod2_exp_imaginary (t : R) :
  Cmod2 (Cexp (Cmul (0, -1) (RtoC t))) = 1.
Proof.
  unfold Cmod2, Cexp, Cmul, RtoC. simpl.
  replace (0 * t - -1 * 0) with 0 by ring. rewrite exp_0.
  pose proof (sin2_cos2 (0 * 0 + -1 * t)) as H. unfold Rsqr in H. lra.
Qed.

Lemma Cadd_sub_1 (z : C) : Cadd (Csub z C1) C1 = z.
Proof. destruct z. unfold Cadd, Csub, C1. simpl. f_equal; ring. Qed.
End ComplexFacts.

(** ** Finite arrays *)

Section FiniteArrays.
Local Open Scope R_scope.

Lemma length_finite (v : list C) : length (finite v) = length v.
Proof. apply length_fmap. Qed.

Lemma np_sumprod_finite (u v : list C) :
  np_sumprod (finite u) (finite v) = Some (cdot u v).
Proof.
  unfold np_sumprod, cdot, finite. revert v.
  induction u as [|a u IH]; intros [|b v]; simpl; try done.
  by rewrite IH.
Qed.

Lemma np_dot_finite (u v : list C) :
  length u = length v → np_dot (finite u) (finite v) = Ok (Some (cdot u v)).
Proof.
  intros Hlen. unfold np_dot. rewrite !length_finite.
  rewrite decide_True by done. by rewrite np_sumprod_finite.
Qed.

Lemma mapM_result_cons {A B} (f : A → result B) (x : A) (l : list A) :
  mapM f (x :: l) = y ← f x; k ← mapM f l; Ok (y :: k).
Proof. done. Qed.

Lemma np_matvec_finite (A : list (list C)) (v : list C) :
  Forall (λ row, length row = length v) A →
  np_matvec (finite_matrix A) (finite v) = Ok (finite (matvec A v)).
Proof.
  unfold np_matvec, finite_matrix, matvec.
  induction 1 as [|row A Hrow _ IH]; [done|].
  rewrite fmap_cons, mapM_result_cons, np_dot_finite, IH by done. done.
Qed.

Lemma np_sumsq_finite (v : list C) : np_sumsq (finite v) = Some (sumsq v).
Proof.
  unfold np_sumsq, sumsq, finite.
  induction v as [|a v IH]; [done|].
  rewrite fmap_cons. cbn [foldr]. by rewrite IH.
Qed.

Lemma np_norm_finite (v : list C) : np_norm (finite v) = Some (norm v).
Proof. unfold np_norm. by rewrite np_sumsq_finite. Qed.

Lemma np_vdiv_finite (v : list C) (c : C) :
  c ≠ C0 → np_vdiv (finite v) (Some c) = finite ((λ x, Cdiv x c) <$> v).
Proof.
  intros Hc. unfold np_vdiv, finite. rewrite <- !list_fmap_compose.
  apply list_fmap_ext. intros _ x _. simpl. by rewrite decide_False.
Qed.

Lemma np_conj_finite (v : list C) : np_conj <$> finite v = finite (Cconj <$> v).
Proof. unfold finite. by rewrite <- !list_fmap_compose. Qed.

Lemma sumsq_cons (a : C) (v : list C) : sumsq (a :: v) = Cmod2 a + sumsq v.
Proof. done. Qed.

Lemma sumsq_nonneg (v : list C) : 0 <= sumsq v.
Proof.
  induction v as [|a v IH]; [simpl; lra|].
  rewrite sumsq_cons. pose proof (Cmod2_nonneg a). lra.
Qed.

Lemma norm_sqr (v : list C) : norm v * norm v = sumsq v.
Proof. apply sqrt_sqrt, sumsq_nonneg. Qed.

Lemma sumsq_scale (c : C) (v : list C) :
  sumsq (Cmul c <$> v) = Cmod2 c * sumsq v.
Proof.
  induction v as [|a v IH]; [simpl; ring|].
  rewrite fmap_cons, !sumsq_cons, IH, Cmod2_mul. ring.
Qed.

Lemma sumsq_div_real (v : list C) (x : R) :
  x ≠ 0 → sumsq ((λ t, Cdiv t (RtoC x)) <$> v) = sumsq v / (x * x).
Proof.
  intros Hx. induction v as [|a v IH]; [simpl; by field|].
  rewrite fmap_cons, !sumsq_cons, IH, Cmod2_div_real by done. by field.
Qed.

(** A vector divided by its norm has norm one. *)
Lemma sumsq_normalised (v : list C) :
  norm v ≠ 0 → sumsq ((λ t, Cdiv t (RtoC (norm v))) <$> v) = 1.
Proof.
  intros Hn. rewrite sumsq_div_real, norm_sqr by done.
  field. rewrite <- norm_sqr. nra.
Qed.

Lemma cdot_cons (a b : C) (u v : list C) :
  cdot (a :: u) (b :: v) = Cadd (Cmul a b) (cdot u v).
Proof. done. Qed.

Lemma cdot_conj_phase (ph : C) (t : list C) :
  cdot t (Cconj <$> (Cmul ph <$> t)) = Cmul (Cconj ph) (RtoC (sumsq t)).
Proof.
  induction t as [|a t IH].
  - simpl. by rewrite Cmul_C0_r.
  - rewrite !fmap_cons, cdot_cons, sumsq_cons, IH, Cmul_conj_scaled.
    by rewrite <- Cmul_add_distr_l, RtoC_add.
Qed.

(** The product of a vector with its conjugate is the sum of the squared
    moduli. *)
Lemma cdot_conj_self (t : list C) : cdot t (Cconj <$> t) = RtoC (sumsq t).
Proof.
  induction t as [|a t IH]; [done|].
  rewrite fmap_cons, cdot_cons, sumsq_cons, IH, <- RtoC_add. f_equal.
  unfold Cmul, Cconj, RtoC, Cmod2. simpl. f_equal; ring.
Qed.

Lemma cdot_scaled (row : list C) (c1 c2 : C) (v : list C) :
  cdot row ((λ x, Cmul (Cmul c1 x) c2) <$> v) = Cmul (Cmul c1 c2) (cdot row v).
Proof.
  revert v. induction row as [|a row IH]; intros [|x v];
    try (by unfold cdot; simpl; rewrite Cmul_C0_r).
  by rewrite fmap_cons, !cdot_cons, IH, Cmul_scaled_r, Cmul_add_distr_l.
Qed.

Lemma matvec_scaled (A : list (list C)) (c1 c2 : C) (v : list C) :
  matvec A ((λ x, Cmul (Cmul c1 x) c2) <$> v) = Cmul (Cmul c1 c2) <$> matvec A v.
Proof.
  unfold matvec. rewrite <- list_fmap_compose.
  apply list_fmap_ext. intros _ row _. simpl. apply cdot_scaled.
Qed.
End FiniteArrays.

(** ** Running the methods *)

Lemma run_gets {A B} (f : HHL → A) (k : A → M B) w :
  (gets f ≫= k) w = k (f (self w)) w.
Proof. done. Qed.

Lemma run_lift {A B} (r : result A) (k : A → M B) w a :
  r = Ok a → (lift r ≫= k) w = k a w.
Proof. by intros ->. Qed.

Lemma run_attribute {A B} (f : HHL → option A) (k : A → M B) w a :
  f (self w) = Some a → (attribute f ≫= k) w = k a w.
Proof.
  intros Hf. unfold attribute, gets, mbind, M_bind. by rewrite Hf.
Qed.

Lemma run_modify {B} (f : HHL → HHL) (k : unit → M B) w :
  (modify f ≫= k) w = k tt (with_self f w).
Proof. done. Qed.

Lemma run_log {B} (c : call) (k : unit → M B) w :
  (log c ≫= k) w =
  k tt {| self := self w; calls := calls w ++ [c]; instances := instances w |}.
Proof. done. Qed.

Lemma preserves_ret_at_modify key key' v :
  key ≠ key' → preserves (ret_at key) (modify (set_ret key' v)).
Proof. intros Hne w. unfold ret_at. simpl. by rewrite lookup_insert_ne. Qed.

Lemma preserves_ret_at_log key c : preserves (ret_at key) (log c).
Proof. done. Qed.

Ltac preserves_ret_step :=
  lazymatch goal with
  | |- preserves (ret_at _) (modify (set_ret _ _)) =>
      apply preserves_ret_at_modify; done
  | |- preserves (ret_at _) (log _) => apply preserves_ret_at_log
  | |- _ => preserves_step
  end.

Section HhlResults.
Context (linalg : NumpyLinalg).
Local Open Scope R_scope.

(** C6.  When the reconstructed vector is the unit-normalised classical
    solution times a phase factor of modulus one, the fidelity that
    [_hhl_results] stores is 1 (exactly, in the arithmetic of the reals);
    the classical solution [x] is finite and not zero, so that its
    normalisation exists. *)
Theorem fidelity_of_exact_state (w : World) (x : list C) (ph : C) :
  linalg_solve linalg (_matrix (self w)) (_vector (self w)) = Ok (finite x) →
  norm x ≠ 0 →
  Cmod ph = 1 →
  let theo := (λ t, Cdiv t (RtoC (norm x))) <$> x in
  let vec := finite (Cmul ph <$> theo) in
  norm theo = 1 ∧
  ret_at "fidelity_hhl_to_classical" (_hhl_results linalg vec w).1 =
    Some (VFloat (Some 1)).
Proof.
  intros Hsolve Hx Hph theo vec.
  assert (sumsq theo = 1) as Htheo by by apply sumsq_normalised.
  split; [unfold norm; rewrite Htheo; apply sqrt_1|].
  unfold _hhl_results.
  rewrite run_modify, !run_gets. simpl self.
  erewrite run_lift by exact Hsolve.
  rewrite np_norm_finite. simpl np_complex.
  rewrite np_vdiv_finite by by apply RtoC_neq_0.
  fold theo. unfold vec. rewrite np_conj_finite.
  erewrite run_lift; last first.
  { apply np_dot_finite. by rewrite !length_fmap. }
  rewrite run_modify.
  match goal with
  | |- ret_at _ (?rest ?w').1 = _ =>
      assert (preserves (ret_at "fidelity_hhl_to_classical") rest) as ->
  end.
  { repeat preserves_ret_step. }
  unfold ret_at, with_self. cbn [self _ret set_ret]. rewrite lookup_insert_eq.
  cbn [np_abs fmap option_fmap option_map]. do 3 f_equal.
  rewrite cdot_conj_phase, Htheo.
  rewrite Cmod_sqr, Cmod2_mul, Cmod2_conj, Cmod2_RtoC, <- Cmod_sqr, Hph. ring.
Qed.

Lemma np_dot_same_length (u v : vector) :
  length u = length v → np_dot u v = Ok (np_sumprod u v).
Proof. intros Hlen. unfold np_dot. by rewrite decide_True. Qed.

Lemma np_vmul_finite (u v : list C) :
  length u = length v →
  np_vmul (finite u) (finite v) = Ok (finite (zip_with Cmul u v)).
Proof.
  intros Hlen. unfold np_vmul. rewrite !length_finite, decide_True by done.
  f_equal. unfold finite. revert v Hlen.
  induction u as [|a u IH]; intros [|b v] Hlen; simpl in *; try done.
  f_equal. apply IH. lia.
Qed.

Lemma py_fsum_finite (l : list R) (acc : R) :
  foldl np_fadd (Some acc) (Some <$> l) = Some (foldl Rplus acc l).
Proof.
  revert acc. induction l as [|x l IH]; intros acc; [done|].
  rewrite fmap_cons. cbn [foldl]. apply IH.
Qed.

Lemma length_matvec (A : list (list C)) (v : list C) :
  length (matvec A v) = length A.
Proof. apply length_fmap. Qed.

(** C7.  For a finite reconstructed vector [v] with [A.v] nonzero, in a
    system whose shapes agree and whose register size is not zero (it is
    positive whenever [construct_circuit] has returned, see
    [construct_circuit_num_q]),
    [_hhl_results] stores as solution_hhl the vector
    [norm_factor * v * exp(-i * phase_correction)], with
    [norm_factor = |b| / |A.v|] and [phase_correction] the sum of the
    angles of [b_i * conj((A.v)_i)] over the register size, and [A] applied
    to that vector has the norm of [b]. *)
Theorem rescaled_solution_norm (w : World) (A : list (list C)) (b v : list C)
    (theo : vector) :
  _matrix (self w) = finite_matrix A →
  _vector (self w) = finite b →
  linalg_solve linalg (finite_matrix A) (finite b) = Ok theo →
  length theo = length v →
  Forall (λ row, length row = length v) A →
  length b = length A →
  _num_q (self w) ≠ 0%Z →
  norm (matvec A v) ≠ 0 →
  let scaled := matvec A v in
  let norm_factor := norm b / norm scaled in
  let phase_correction :=
    foldl Rplus 0 (Cangle <$> zip_with Cmul b (Cconj <$> scaled))
    / IZR (_num_q (self w)) in
  let rescaled_solution :=
    (λ x, Cmul (Cmul (RtoC norm_factor) x)
               (Cexp (Cmul (0, -1) (RtoC phase_correction)))) <$> v in
  ret_at "solution_hhl" (_hhl_results linalg (finite v) w).1 =
    Some (VVector (finite rescaled_solution)) ∧
  norm (matvec A rescaled_solution) = norm b.
Proof.
  intros HA Hb Hsolve Hlen Hrows Hlenb Hq Hscaled.
  intros scaled norm_factor phase_correction rescaled_solution.
  split.
  - unfold _hhl_results.
    rewrite run_modify, !run_gets. cbn [self with_self _matrix _vector set_ret].
    rewrite HA, Hb.
    erewrite run_lift by exact Hsolve.
    erewrite run_lift; last first.
    { apply np_dot_same_length.
      unfold np_vdiv. by rewrite !length_fmap, length_finite. }
    rewrite run_modify.
    erewrite run_lift by by apply np_matvec_finite.
    fold scaled. rewrite !np_norm_finite, np_conj_finite.
    erewrite run_lift; last first.
    { apply np_vmul_finite. unfold scaled.
      by rewrite length_fmap, length_matvec. }
    rewrite run_gets. cbn [self with_self _num_q set_ret].
    assert (((λ z, np_angle (np_add (np_sub z (Some C1)) (Some C1))) <$>
               finite (zip_with Cmul b (Cconj <$> scaled))) =
            Some <$> (Cangle <$> zip_with Cmul b (Cconj <$> scaled))) as ->.
    { unfold finite. rewrite <- !list_fmap_compose.
      apply list_fmap_ext. intros _ y _. simpl. by rewrite Cadd_sub_1. }
    set (angles := Some <$> (Cangle <$> zip_with Cmul b (Cconj <$> scaled))).
    assert (angles ≠ []) as Hangles.
    { unfold angles, scaled, matvec.
      destruct A as [|row A]; [exfalso; apply Hscaled; apply sqrt_0|].
      by destruct b as [|b0 b]. }
    rewrite (run_lift _ _ _
               (np_fdiv (py_fsum angles) (Some (IZR (_num_q (self w))))))
      by by destruct angles.
    unfold angles, py_fsum. rewrite py_fsum_finite.
    unfold np_fdiv. cbn [mbind option_bind].
    rewrite !decide_False by (done || by apply not_0_IZR).
    fold norm_factor phase_correction.
    unfold ret_at, modify. cbn [self with_self _ret set_ret fst].
    rewrite lookup_insert_eq. do 2 f_equal.
    unfold np_vmul_scalar, np_vscale, finite, rescaled_solution.
    rewrite <- !list_fmap_compose. done.
  - unfold rescaled_solution. rewrite matvec_scaled. fold scaled.
    unfold norm at 1. rewrite sumsq_scale, Cmod2_mul, Cmod2_RtoC.
    rewrite Cmod2_exp_imaginary, Rmult_1_r.
    assert (0 <= norm_factor) as Hnf.
    { unfold norm_factor, Rdiv. apply Rmult_le_pos; [apply sqrt_pos|].
      apply Rlt_le, Rinv_0_lt_compat.
      destruct (sqrt_pos (sumsq scaled)) as [Hpos|Hzero]; [exact Hpos|].
      exfalso. apply Hscaled. symmetry. exact Hzero. }
    rewrite sqrt_mult by (nra || apply sumsq_nonneg).
    rewrite sqrt_square by done.
    fold (norm scaled). unfold norm_factor. by field.
Qed.
End HhlResults.

(** ** The two extraction paths *)

Lemma np_dot_shape (u v v' : vector) :
  length v = length v' →
  (∃ d d', np_dot u v = Ok d ∧ np_dot u v' = Ok d') ∨
  (∃ e, np_dot u v = Raise e ∧ np_dot u v' = Raise e).
Proof.
  intros Hlen. unfold np_dot. rewrite <- Hlen.
  destruct (decide (length u = length v)); eauto.
Qed.

Lemma np_matvec_shape (A : matrix) (v v' : vector) :
  length v = length v' → same_shape (np_matvec A v) (np_matvec A v').
Proof.
  intros Hlen. unfold np_matvec.
  induction A as [|row A IH]; [done|].
  rewrite !mapM_result_cons.
  destruct (np_dot_shape row v v' Hlen) as [(d & d' & -> & ->)|(e & -> & ->)];
    [|done].
  simpl. unfold same_shape in IH.
  destruct (mapM _ A), (mapM _ A); simpl in *; try done. by f_equal.
Qed.

Lemma np_vmul_shape (u v v' : vector) :
  length v = length v' → same_shape (np_vmul u v) (np_vmul u v').
Proof.
  intros Hlen. unfold np_vmul. rewrite <- Hlen.
  destruct (decide (length u = length v)) as [Heq|Hne]; simpl.
  - rewrite !length_zip_with. lia.
  - destruct u as [|x [|??]]; simpl.
    + destruct v as [|y [|??]], v' as [|y' [|??]]; simpl in *; try done.
    + unfold np_vscale. by rewrite !length_fmap.
    + destruct v as [|y [|??]], v' as [|y' [|??]]; simpl in *; try done.
      unfold np_vmul_scalar. by rewrite !length_fmap.
Qed.

Section Paths.
Context (tomo : TomographyLib) (linalg : NumpyLinalg).

Lemma _hhl_results_output (vec : vector) (w : World) :
  ret_at "output_hhl" (_hhl_results linalg vec w).1 = Some (VVector vec).
Proof.
  unfold _hhl_results. rewrite run_modify.
  match goal with
  | |- ret_at _ (?rest ?w').1 = _ =>
      assert (preserves (ret_at "output_hhl") rest) as ->
  end.
  { repeat preserves_ret_step. }
  unfold ret_at, with_self. cbn [self _ret set_ret]. apply lookup_insert_eq.
Qed.

Lemma _hhl_results_ret_other (key : string) (vec : vector) :
  key ≠ "output_hhl"%string → key ≠ "fidelity_hhl_to_classical"%string →
  key ≠ "solution_hhl"%string →
  preserves (ret_at key) (_hhl_results linalg vec).
Proof. intros. unfold _hhl_results. repeat preserves_ret_step. Qed.

(** Whether [_hhl_results] returns, and what it raises, depends on the
    length of the vector only, not on its entries. *)
Lemma _hhl_results_outcome (vec vec' : vector) (w : World) :
  length vec = length vec' →
  (_hhl_results linalg vec w).2 = (_hhl_results linalg vec' w).2.
Proof.
  intros Hlen. unfold _hhl_results, mbind, M_bind, lift, gets, modify.
  cbn [self with_self _matrix _vector _num_q set_ret].
  destruct (linalg_solve linalg _ _) as [theo|e]; [|done].
  destruct (np_dot_shape (np_vdiv theo (np_complex (np_norm theo)))
              (np_conj <$> vec) (np_conj <$> vec'))
    as [(d & d' & -> & ->)|(e & -> & ->)];
    [by rewrite !length_fmap| |done].
  pose proof (np_matvec_shape (_matrix (self w)) vec vec' Hlen) as Hmv.
  destruct (np_matvec _ vec) as [tmp|e], (np_matvec _ vec') as [tmp'|e'];
    simpl in Hmv; try done; [|by subst].
  pose proof (np_vmul_shape (_vector (self w)) (np_conj <$> tmp)
                (np_conj <$> tmp')) as Hvm.
  rewrite !length_fmap in Hvm. specialize (Hvm Hmv).
  destruct (np_vmul _ (np_conj <$> tmp)) as [prod|e],
           (np_vmul _ (np_conj <$> tmp')) as [prod'|e'];
    simpl in Hvm; try done; [|by subst].
  destruct prod as [|z prod], prod' as [|z' prod']; simpl in Hvm; try done.
  rewrite !fmap_nil. by destruct (_num_q (self w) =? 0).
Qed.
End Paths.

Section Reconstruction.
Local Open Scope R_scope.

Lemma Csqrt_0 : Csqrt C0 = C0.
Proof.
  unfold Csqrt, Cmod, Cmod2, C0. simpl.
  rewrite decide_False by lra.
  replace (0 * 0 + 0 * 0) with 0 by ring. rewrite sqrt_0.
  replace ((0 + 0) / 2) with 0 by field.
  replace ((0 - 0) / 2) with 0 by field.
  rewrite sqrt_0. f_equal. ring.
Qed.

Lemma sqrt_quarter : sqrt (1 / 4) = 1 / 2.
Proof.
  replace (1 / 4) with ((1 / 2) * (1 / 2)) by field.
  apply sqrt_square. lra.
Qed.

Lemma Csqrt_quarter : Csqrt (1 / 4, 0) = (1 / 2, 0).
Proof.
  unfold Csqrt, Cmod, Cmod2. simpl.
  rewrite decide_False by lra.
  replace (1 / 4 * (1 / 4) + 0 * 0) with ((1 / 4) * (1 / 4)) by ring.
  rewrite sqrt_square by lra.
  replace ((1 / 4 + 1 / 4) / 2) with (1 / 4) by field.
  replace ((1 / 4 - 1 / 4) / 2) with 0 by field.
  rewrite sqrt_0, sqrt_quarter. f_equal. ring.
Qed.

Lemma np_column0_length (rho : matrix) (col : vector) :
  np_column0 rho = Ok col → length col = length rho.
Proof.
  unfold np_column0. revert col.
  induction rho as [|row rho IH]; intros col H.
  - by inversion H.
  - rewrite mapM_result_cons in H.
    apply bind_Ok in H as (y & _ & H). apply bind_Ok in H as (k & Hk & H).
    inversion H. simpl. f_equal. by apply IH.
Qed.

(** Dividing by a zero scalar leaves no finite entry. *)
Lemma np_vdiv_zero (col : vector) :
  np_vdiv col (Some C0) = replicate (length col) None.
Proof.
  unfold np_vdiv. induction col as [|z col IH]; [done|].
  rewrite fmap_cons, IH. simpl. f_equal.
  unfold np_div. destruct z as [z|]; simpl; [|done].
  by rewrite decide_True.
Qed.

Lemma tomography_state_zero (rho_fit : matrix) (col : vector) :
  np_column0 rho_fit = Ok col →
  np_entry00 rho_fit = Ok (Some C0) →
  tomography_state rho_fit = Ok (replicate (length col) None).
Proof.
  intros Hcol Hentry. unfold tomography_state.
  rewrite Hcol, Hentry. simpl. by rewrite Csqrt_0, np_vdiv_zero.
Qed.
End Reconstruction.

Section PathTheorems.
Context (tomo : TomographyLib) (linalg : NumpyLinalg).
Local Open Scope R_scope.

Lemma _state_tomography_run (w w1 : World) (rho_fit : matrix) (vec : vector) :
  _state_tomography_fit tomo w = (w1, Ok rho_fit) →
  tomography_state rho_fit = Ok vec →
  _state_tomography tomo linalg w = _hhl_results linalg vec w1.
Proof.
  intros Hfit Hvec. unfold _state_tomography.
  unfold mbind at 1, M_bind at 1. rewrite Hfit.
  by rewrite (run_lift _ _ _ _ Hvec).
Qed.

(** C5, as the code has it.  When the first diagonal entry of the fitted
    matrix is zero, the reconstruction raises nothing: the first column is
    divided by [sqrt(0) = 0] entry by entry, which leaves a vector without
    a finite entry; this vector is handed to [_hhl_results] and stored as
    output_hhl, and the method returns or raises exactly as it would on
    the undivided column. *)
Theorem tomography_state_zero_entry (rho_fit : matrix) (col : vector) :
  np_column0 rho_fit = Ok col →
  np_entry00 rho_fit = Ok (Some C0) →
  let vec := replicate (length col) None in
  tomography_state rho_fit = Ok vec ∧
  ∀ w w1, _state_tomography_fit tomo w = (w1, Ok rho_fit) →
    _state_tomography tomo linalg w = _hhl_results linalg vec w1 ∧
    ret_at "output_hhl" (_state_tomography tomo linalg w).1 =
      Some (VVector vec) ∧
    (_state_tomography tomo linalg w).2 = (_hhl_results linalg col w1).2.
Proof.
  intros Hcol Hentry vec.
  pose proof (tomography_state_zero rho_fit col Hcol Hentry) as Hvec.
  split; [done|]. intros w w1 Hfit.
  rewrite (_state_tomography_run w w1 rho_fit vec Hfit Hvec).
  split_and!; [done|apply _hhl_results_output|].
  apply _hhl_results_outcome. unfold vec. by rewrite length_replicate.
Qed.

(** C8.  In the statevector path, with [v] the vector that the reciprocal
    component's [sv_to_resvec] returns for the amplitudes [sv],
    probability_result is [v.dot(v.conj())] and output_hhl is [v] divided by
    its 2-norm, whatever happens later in the method; for a finite [v] the
    first is the sum of the squared moduli of its entries and, when that sum
    is not zero, the second is a vector of norm one. *)
Theorem statevector_extraction (w : World) (qi : QuantumInstance)
    (circuit : QuantumCircuit) (res : Result) (sv : vector)
    (reciprocal : Reciprocal) (v : vector) :
  _quantum_instance (self w) = Some qi →
  _circuit (self w) = Some circuit →
  execute qi [circuit] = Ok res →
  get_statevector res circuit = Ok sv →
  _reciprocal (self w) = Some reciprocal →
  sv_to_resvec reciprocal sv (_num_q (self w)) = Ok v →
  let w' := (_statevector_simulation linalg w).1 in
  ret_at "probability_result" w' = Some (VComplex (np_sumprod v (np_conj <$> v))) ∧
  ret_at "output_hhl" w' = Some (VVector (np_vdiv v (np_complex (np_norm v)))) ∧
  (∀ v0, v = finite v0 →
     ret_at "probability_result" w' = Some (VComplex (Some (RtoC (sumsq v0)))) ∧
     (norm v0 ≠ 0 →
      ∃ u, ret_at "output_hhl" w' = Some (VVector (finite u)) ∧ norm u = 1)).
Proof.
  intros Hqi Hcirc Hexec Hsv Hreci Hvec w'.
  cut (ret_at "probability_result" w' =
         Some (VComplex (np_sumprod v (np_conj <$> v))) ∧
       ret_at "output_hhl" w' =
         Some (VVector (np_vdiv v (np_complex (np_norm v))))).
  { intros [Hp Ho]. split_and!; [done|done|]. intros v0 ->. split.
    - by rewrite Hp, np_conj_finite, np_sumprod_finite, cdot_conj_self.
    - intros Hn. eexists. rewrite Ho, np_norm_finite. simpl np_complex.
      rewrite np_vdiv_finite by by apply RtoC_neq_0. split; [done|].
      unfold norm at 1. rewrite sumsq_normalised by done. apply sqrt_1. }
  subst w'.
  unfold _statevector_simulation.
  rewrite run_log.
  rewrite (run_attribute _ _ _ qi) by done.
  rewrite (run_attribute _ _ _ circuit) by done.
  rewrite (run_lift _ _ _ _ Hexec), (run_lift _ _ _ _ Hsv).
  rewrite (run_attribute _ _ _ reciprocal) by done.
  rewrite run_gets. cbn [self _num_q].
  rewrite (run_lift _ _ _ _ Hvec).
  rewrite (run_lift _ _ _ (np_sumprod v (np_conj <$> v)))
    by (apply np_dot_same_length; by rewrite length_fmap).
  rewrite run_modify. split.
  - rewrite _hhl_results_ret_other by done.
    unfold ret_at, with_self. cbn [self _ret set_ret]. apply lookup_insert_eq.
  - apply _hhl_results_output.
Qed.
End PathTheorems.

Section Closed.
Local Open Scope R_scope.

Lemma tomography_state_zero_entry_witness :
  let rho := finite_matrix [[(0, 0); (0, 0)]; [(0, 0); (1, 0)]] in
  tomography_state rho = Ok [None; None] ∧
  ∀ w w1, _state_tomography_fit (Fixture.tomo rho) w = (w1, Ok rho) →
    _state_tomography (Fixture.tomo rho) Fixture.linalg w =
      _hhl_results Fixture.linalg [None; None] w1 ∧
    ret_at "output_hhl" (_state_tomography (Fixture.tomo rho) Fixture.linalg w).1 =
      Some (VVector [None; None]) ∧
    (_state_tomography (Fixture.tomo rho) Fixture.linalg w).2 =
      (_hhl_results Fixture.linalg (finite [(0, 0); (0, 0)]) w1).2.
Proof.
  exact (tomography_state_zero_entry
           (Fixture.tomo (finite_matrix [[(0, 0); (0, 0)]; [(0, 0); (1, 0)]]))
           Fixture.linalg
           (finite_matrix [[(0, 0); (0, 0)]; [(0, 0); (1, 0)]])
           (finite [(0, 0); (0, 0)]) eq_refl eq_refl).
Defined.

(** The claim C5 fails on the code: with a fitted matrix whose first
    diagonal entry is zero, the reconstructed vector is [nan, nan] and a
    whole run on a shots backend returns its record. *)
Lemma zero_entry_raises_nothing :
  let rho := finite_matrix [[(0, 0); (0, 0)]; [(0, 0); (1, 0)]] in
  let cnts : counts := [("0 1"%string, 3); ("1 1"%string, 1); ("0 0"%string, 4)]%Z in
  let r := _run (Fixture.tomo rho) Fixture.linalg Fixture.measures
             (Fixture.world (Fixture.shots_backend cnts)) in
  np_entry00 rho = Ok (Some C0) ∧
  tomography_state rho = Ok [None; None] ∧
  is_ok r.2 = true ∧
  ¬ raised r.2.
Proof.
  intros rho cnts r.
  assert (is_ok r.2 = true) as Hok by reflexivity.
  split_and!.
  - reflexivity.
  - exact (tomography_state_zero rho (finite [(0, 0); (0, 0)]) eq_refl eq_refl).
  - exact Hok.
  - by apply is_ok_not_raised.
Qed.

Lemma statevector_extraction_witness :
  let v := finite [(1, 0); (0, 0)] in
  let w := with_self (set_circuit (Some (Fixture.fragment "hhl" [Fixture.anc])))
             (Fixture.world (Fixture.statevector_backend
                               (finite [(1, 0); (0, 0); (0, 0); (0, 0)]))) in
  let w' := (_statevector_simulation Fixture.linalg w).1 in
  ret_at "probability_result" w' = Some (VComplex (np_sumprod v (np_conj <$> v))) ∧
  ret_at "output_hhl" w' = Some (VVector (np_vdiv v (np_complex (np_norm v)))).
Proof.
  intros v w.
  destruct (statevector_extraction Fixture.linalg w _ _ _ _ _ v
              eq_refl eq_refl eq_refl eq_refl eq_refl eq_refl)
    as (Hp & Ho & _).
  exact (conj Hp Ho).
Defined.

(** C2, at an input on which the code departs from it.  For the fitted
    density matrix diag(1/4, 3/4), the first column over the square root
    of the first diagonal entry is (1/2, 0), of norm 1/2, and
    [_state_tomography] hands this very vector to [_hhl_results]: nothing
    normalises it (the statevector path divides by the norm first). *)
Theorem tomography_state_not_normalised :
  let rho := finite_matrix [[(1 / 4, 0); (0, 0)]; [(0, 0); (3 / 4, 0)]] in
  let vec := finite [(1 / 2, 0); (0, 0)] in
  tomography_state rho = Ok vec ∧
  np_norm vec = Some (1 / 2) ∧
  np_norm vec ≠ Some 1 ∧
  ∀ tomo linalg w w1,
    _state_tomography_fit tomo w = (w1, Ok rho) →
    _state_tomography tomo linalg w = _hhl_results linalg vec w1 ∧
    ret_at "output_hhl" (_state_tomography tomo linalg w).1 = Some (VVector vec).
Proof.
  intros rho vec.
  assert (tomography_state rho = Ok vec) as Hvec.
  { unfold tomography_state, rho, vec. simpl.
    rewrite Csqrt_quarter. unfold np_div. simpl.
    rewrite !decide_False by (intros [=]; lra).
    assert (Cdiv (1 / 4, 0) (1 / 2, 0) = (1 / 2, 0)) as ->
      by (unfold Cdiv, Cmod2; simpl; f_equal; field).
    assert (Cdiv (0, 0) (1 / 2, 0) = (0, 0)) as ->
      by (unfold Cdiv, Cmod2; simpl; f_equal; field).
    done. }
  assert (np_norm vec = Some (1 / 2)) as Hnorm.
  { unfold vec. rewrite np_norm_finite. f_equal.
    unfold norm, sumsq, Cmod2. simpl.
    replace (1 / 2 * (1 / 2) + 0 * 0 + (0 * 0 + 0 * 0 + 0)) with (1 / 4) by field.
    apply sqrt_quarter. }
  split_and!; [done|done| |].
  - rewrite Hnorm. intros [=]. lra.
  - intros tomo linalg w w1 Hfit.
    rewrite (_state_tomography_run tomo linalg w w1 rho vec Hfit Hvec).
    split; [done|apply _hhl_results_output].
Qed.
End Closed.

(** ** The specification's system, as a concrete run *)

Section Witnesses.
Local Open Scope R_scope.

Lemma Fixture_norm_x : norm Fixture.x ≠ 0.
Proof.
  unfold norm. apply Rgt_not_eq, sqrt_lt_R0.
  unfold Fixture.x, sumsq, Cmod2. simpl. lra.
Qed.

Lemma Cmod_i : Cmod (0, 1) = 1.
Proof.
  unfold Cmod, Cmod2. simpl.
  replace (0 * 0 + 1 * 1) with 1 by ring. apply sqrt_1.
Qed.

Lemma fidelity_of_exact_state_witness :
  ret_at "fidelity_hhl_to_classical"
    (_hhl_results Fixture.linalg
       (finite (Cmul (0, 1) <$>
                  ((λ t, Cdiv t (RtoC (norm Fixture.x))) <$> Fixture.x)))
       (Fixture.world (Fixture.statevector_backend []))).1 =
  Some (VFloat (Some 1)).
Proof.
  exact (proj2 (fidelity_of_exact_state Fixture.linalg
                  (Fixture.world (Fixture.statevector_backend []))
                  Fixture.x (0, 1) eq_refl Fixture_norm_x Cmod_i)).
Defined.

Lemma Fixture_scaled : norm (matvec Fixture.A [(1, 0); (0, 0)]) ≠ 0.
Proof.
  unfold norm. apply Rgt_not_eq, sqrt_lt_R0.
  unfold Fixture.A, matvec, cdot, sumsq, Cmod2, Cadd, Cmul, C0. simpl. lra.
Qed.

Lemma rescaled_solution_norm_witness :
  ∃ sol,
    ret_at "solution_hhl"
      (_hhl_results Fixture.linalg (finite [(1, 0); (0, 0)])
         (Fixture.world (Fixture.statevector_backend []))).1 =
      Some (VVector (finite sol)) ∧
    norm (matvec Fixture.A sol) = norm Fixture.b.
Proof.
  eexists.
  apply (rescaled_solution_norm Fixture.linalg
           (Fixture.world (Fixture.statevector_backend []))
           Fixture.A Fixture.b [(1, 0); (0, 0)] (finite Fixture.x)).
  - reflexivity.
  - reflexivity.
  - reflexivity.
  - reflexivity.
  - repeat constructor.
  - reflexivity.
  - simpl. lia.
  - exact Fixture_scaled.
Defined.
End Witnesses.

(** ** The run as a whole *)

Lemma M_bind_Ok {A B} (m : M A) (f : A → M B) (w w' : World) (b : B) :
  (m ≫= f) w = (w', Ok b) → ∃ w1 a, m w = (w1, Ok a) ∧ f a w1 = (w', Ok b).
Proof.
  unfold mbind, M_bind. destruct (m w) as [w1 [a|e]]; [eauto|discriminate].
Qed.

Lemma run_bind {A B} (m : M A) (f : A → M B) (w : World) :
  (m ≫= f) w = match m w with
               | (w', Ok a) => f a w'
               | (w', Raise e) => (w', Raise e)
               end.
Proof. done. Qed.

Lemma lift_Ok {A} (r : result A) (w w' : World) (a : A) :
  lift r w = (w', Ok a) → w' = w ∧ r = Ok a.
Proof. unfold lift. by intros [= -> ->]. Qed.

Lemma attribute_Ok {A} (f : HHL → option A) (w w' : World) (a : A) :
  attribute f w = (w', Ok a) → w' = w ∧ f (self w) = Some a.
Proof.
  unfold attribute, gets, mbind, M_bind.
  destruct (f (self w)); simpl; [by intros [= -> ->]|discriminate].
Qed.

Lemma appends_log {A} (c : call) (k : unit → M A) :
  (∀ u, preserves calls (k u)) → appends [c] (log c ≫= k).
Proof. intros Hk w. rewrite run_log. by rewrite Hk. Qed.

Lemma appends_bind {A B} (l : list call) (m : M A) (f : A → M B) :
  appends l m → (∀ a, preserves calls (f a)) → appends l (m ≫= f).
Proof.
  intros Hm Hf w. unfold mbind, M_bind. specialize (Hm w).
  destruct (m w) as [w1 [a|e]]; simpl in *; [|done]. by rewrite Hf.
Qed.

Lemma appends_then {A B} (l1 l2 : list call) (m : M A) (f : A → M B) (w : World) :
  appends l1 m → (∀ a, appends l2 (f a)) →
  (calls ((m ≫= f) w).1 = calls w ++ l1 ++ l2) ∨
  (calls ((m ≫= f) w).1 = calls w ++ l1 ∧ raised ((m ≫= f) w).2).
Proof.
  intros Hm Hf. unfold mbind, M_bind. specialize (Hm w).
  destruct (m w) as [w1 [a|e]]; simpl in *.
  - left. by rewrite Hf, Hm, <- app_assoc.
  - right. split; [done|by eexists].
Qed.

Section Run.
Context (tomo : TomographyLib) (linalg : NumpyLinalg) (measures : CircuitMeasures).

Lemma construct_circuit_appends (measurement : bool) :
  appends [CallConstructCircuit measurement] (construct_circuit measurement).
Proof.
  unfold construct_circuit. apply appends_log. intros _.
  unfold new_QuantumCircuit. solve_preserves.
  all: try apply new_ClassicalRegister_calls; solve_preserves.
Qed.

Lemma _statevector_simulation_appends :
  appends [CallStatevectorSimulation] (_statevector_simulation linalg).
Proof.
  unfold _statevector_simulation. apply appends_log. intros _.
  solve_preserves. apply _hhl_results_calls.
Qed.

Lemma _state_tomography_appends :
  appends [CallStateTomography] (_state_tomography tomo linalg).
Proof.
  unfold _state_tomography. apply appends_bind.
  - unfold _state_tomography_fit. apply appends_log. intros _.
    solve_preserves. apply new_ClassicalRegister_calls.
  - intros rho_fit. solve_preserves. apply _hhl_results_calls.
Qed.

Lemma _run_calls (w : World) (qi : QuantumInstance) :
  _quantum_instance (self w) = Some qi →
  let measurement := negb (is_statevector qi) in
  let path := if is_statevector qi then CallStatevectorSimulation
              else CallStateTomography in
  let r := _run tomo linalg measures w in
  (calls r.1 = calls w ++ [CallConstructCircuit measurement; path] ∨
   (calls r.1 = calls w ++ [CallConstructCircuit measurement] ∧ raised r.2)).
Proof.
  intros Hqi measurement path r. subst r. unfold _run.
  rewrite (run_attribute _ _ _ qi) by done.
  set (extraction := if is_statevector qi then _ else _).
  assert (calls (extraction w).1 =
            calls w ++ [CallConstructCircuit measurement; path] ∨
          (calls (extraction w).1 = calls w ++ [CallConstructCircuit measurement]
           ∧ raised (extraction w).2)) as Hpath.
  { unfold extraction, measurement, path. destruct (is_statevector qi); simpl.
    - apply (appends_then [_] [_]); [apply construct_circuit_appends|].
      intros _. apply _statevector_simulation_appends.
    - apply (appends_then [_] [_]); [apply construct_circuit_appends|].
      intros _. apply _state_tomography_appends. }
  rewrite (run_bind extraction).
  destruct (extraction w) as [w1 [[]|e]]; simpl in *.
  - destruct Hpath as [Hpath|[_ [e He]]]; [|simpl in He; discriminate]. left.
    match goal with
    | |- calls (?rest ?w').1 = _ => assert (preserves calls rest) as ->
    end; [|done].
    solve_preserves.
  - destruct Hpath as [Hpath|[Hpath _]]; [by left|].
    right. split; [done|by eexists].
Qed.
End Run.

Lemma run_assoc {A B D} (m : M A) (f : A → M B) (g : B → M D) (w : World) :
  ((m ≫= f) ≫= g) w = (m ≫= λ a, f a ≫= g) w.
Proof. unfold mbind, M_bind. by destruct (m w) as [w1 [a|e]]. Qed.

Lemma run_ret {A B} (a : A) (k : A → M B) (w : World) : (mret a ≫= k) w = k a w.
Proof. done. Qed.

Lemma run_next_instance {B} (k : nat → M B) (w : World) :
  (next_instance ≫= k) w =
  k (instances w)
    {| self := self w; calls := calls w; instances := S (instances w) |}.
Proof. done. Qed.

Lemma run_lift_Ok {A B} (r : result A) (k : A → M B) (w w' : World) (b : B) :
  (lift r ≫= k) w = (w', Ok b) → ∃ a, r = Ok a ∧ k a w = (w', Ok b).
Proof. destruct r as [a|e]; [eauto|discriminate]. Qed.

Lemma run_attribute_Ok {A B} (f : HHL → option A) (k : A → M B)
    (w w' : World) (b : B) :
  (attribute f ≫= k) w = (w', Ok b) →
  ∃ a, f (self w) = Some a ∧ k a w = (w', Ok b).
Proof.
  unfold attribute, gets, mbind, M_bind.
  destruct (f (self w)) as [a|]; simpl; [eauto|discriminate].
Qed.

(** One step of a run that is known to return. *)
Ltac run_Ok H :=
  lazymatch type of H with
  | ((_ ≫= _) ≫= _) _ = _ => rewrite run_assoc in H
  | (log _ ≫= _) _ = _ => rewrite run_log in H
  | (gets _ ≫= _) _ = _ => rewrite run_gets in H
  | (modify _ ≫= _) _ = _ => rewrite run_modify in H
  | (next_instance ≫= _) _ = _ => rewrite run_next_instance in H
  | (mret _ ≫= _) _ = _ => rewrite run_ret in H
  | (lift _ ≫= _) _ = (_, Ok _) =>
      let a := fresh "a" in
      let Ha := fresh "Ha" in
      apply run_lift_Ok in H as (a & Ha & H)
  | (attribute _ ≫= _) _ = (_, Ok _) =>
      let a := fresh "a" in
      let Ha := fresh "Ha" in
      apply run_attribute_Ok in H as (a & Ha & H)
  | (let '(_, _) := ?p in _) _ = _ => destruct p
  end;
  cbn [self calls instances with_self] in *.

Lemma measure_Ok (qc qc' : QuantumCircuit) (s : QuantumRegister)
    (c : ClassicalRegister) :
  measure qc s c = Ok qc' →
  qreg_size s = creg_size c ∧ qregs qc' = qregs qc ∧ cregs qc' = cregs qc ∧
  data qc' = data qc ++ ((λ i, Measure (qreg_name s, i) (creg_name c, i))
                           <$> seqZ 0 (qreg_size s)).
Proof.
  unfold measure. repeat case_bool_decide; try discriminate.
  by intros [= <-].
Qed.

Lemma add_register_Ok (qc qc' : QuantumCircuit) (c : ClassicalRegister) :
  add_register qc c = Ok qc' →
  qregs qc' = qregs qc ∧ cregs qc' = cregs qc ++ [c] ∧ data qc' = data qc.
Proof.
  unfold add_register. case_bool_decide; [discriminate|]. by intros [= <-].
Qed.

Lemma construct_circuit_measurement (w w1 : World) (qc1 : QuantumCircuit) :
  construct_circuit true w = (w1, Ok qc1) →
  ∃ w0 qc0 c s,
    construct_circuit false w = (w0, Ok qc0) ∧
    creg_size c = 1 ∧ qreg_size s = 1 ∧
    _ancilla_register (self w1) = Some s ∧
    _success_bit (self w1) = Some c ∧
    _success_bit (self w0) = _success_bit (self w) ∧
    _circuit (self w1) = Some qc1 ∧
    _circuit (self w0) = Some qc0 ∧
    qregs qc1 = qregs qc0 ∧
    cregs qc1 = cregs qc0 ++ [c] ∧
    data qc1 = data qc0 ++ [Measure (qreg_name s, 0) (creg_name c, 0)].
Proof.
  intros H. unfold construct_circuit, new_QuantumCircuit in *.
  unfold new_ClassicalRegister in H. cbn [Z.leb Z.compare] in H.
  repeat run_Ok H.
  injection H as <- <-.
  apply measure_Ok in Ha12 as (Hsize & Hq & Hc & Hd).
  apply add_register_Ok in Ha11 as (Hq' & Hc' & Hd').
  cbn [creg_size creg_name] in *.
  eexists _, a8, _, q1. split.
  { rewrite run_log, run_gets, (run_lift _ _ _ _ Ha), run_assoc,
      run_next_instance, run_ret.
    cbn [self calls instances].
    erewrite run_attribute by exact Ha0.
    rewrite (run_lift _ _ _ _ Ha1), (run_lift _ _ _ _ Ha2).
    erewrite run_attribute by exact Ha3.
    rewrite (run_lift _ _ _ _ Ha4), (run_lift _ _ _ _ Ha5).
    erewrite run_attribute by exact Ha6.
    rewrite (run_lift _ _ _ _ Ha7), (run_lift _ _ _ _ Ha8),
      (run_lift _ _ _ _ Ha9), (run_lift _ _ _ _ Ha10).
    rewrite run_ret, !run_modify. reflexivity. }
  cbn [self with_self _ancilla_register _success_bit _circuit set_circuit
         set_registers set_success_bit creg_size creg_name].
  split_and!; try done.
  all: by rewrite ?Hq, ?Hq', ?Hc, ?Hc', ?Hd, ?Hd', ?Hsize.
Qed.


(** [_hhl_results] is reached with a positive register size only: a circuit
    that [construct_circuit] has built has an [io] register of [_num_q]
    qubits, and a register has a positive size. *)
Lemma construct_circuit_num_q (measurement : bool) (w w' : World)
    (qc : QuantumCircuit) :
  construct_circuit measurement w = (w', Ok qc) →
  0 < _num_q (self w) ∧ _num_q (self w') = _num_q (self w).
Proof.
  intros H. split.
  - unfold construct_circuit in H. run_Ok H. run_Ok H.
    apply run_lift_Ok in H as (q & Hq & _).
    unfold new_QuantumRegister in Hq.
    by destruct (Z.leb_spec (_num_q (self w)) 0).
  - assert (preserves (λ w, _num_q (self w)) (construct_circuit measurement))
      as Hnum.
    { unfold construct_circuit, new_QuantumCircuit, new_ClassicalRegister.
      repeat first [ preserves_step | done ]. }
    specialize (Hnum w). by rewrite H in Hnum.
Qed.

Section RunTheorems.
Context (tomo : TomographyLib) (linalg : NumpyLinalg) (measures : CircuitMeasures).


Lemma _run_record (w w' : World) (ret : gmap string pyval) :
  _run tomo linalg measures w = (w', Ok ret) →
  ret = _ret (self w') ∧
  ret !! "input_matrix"%string = Some (VMatrix (_matrix (self w))) ∧
  ret !! "input_vector"%string = Some (VVector (_vector (self w))).
Proof.
  intros H. unfold _run in H. run_Ok H.
  apply M_bind_Ok in H as (w1 & [] & Hpath & H).
  assert (inputs w1 = inputs w) as [= Hm Hv].
  { assert (preserves inputs
              (if is_statevector a
               then construct_circuit false;; _statevector_simulation linalg
               else construct_circuit true;; _state_tomography tomo linalg))
      as Hpres.
    { solve_preserves.
      all: first [apply construct_circuit_inputs
                 | apply _statevector_simulation_inputs
                 | apply _state_tomography_inputs ]. }
    specialize (Hpres w). by rewrite Hpath in Hpres. }
  repeat run_Ok H.
  unfold gets in H. injection H as <- <-.
  cbn [self with_self _ret set_ret _matrix _vector].
  split_and!; [done| |].
  - rewrite !lookup_insert_ne by done. by rewrite lookup_insert_eq, Hm.
  - rewrite !lookup_insert_ne by done. by rewrite lookup_insert_eq, Hv.
Qed.

(** C10.  [_run] leaves [_matrix] and [_vector] as they were, whether it
    returns or raises; the record it returns is [_ret], and its entries
    input_matrix and input_vector are those unchanged inputs; for an
    object built by [__init__], they are the arguments of [__init__]. *)
Theorem run_keeps_inputs (w : World) :
  let r := _run tomo linalg measures w in
  _matrix (self r.1) = _matrix (self w) ∧
  _vector (self r.1) = _vector (self w) ∧
  (∀ ret, r.2 = Ok ret →
     ret = _ret (self r.1) ∧
     ret !! "input_matrix"%string = Some (VMatrix (_matrix (self w))) ∧
     ret !! "input_vector"%string = Some (VVector (_vector (self w)))) ∧
  (∀ matrix vector eigs init_state reciprocal num_q num_a,
     self w = __init__ matrix vector eigs init_state reciprocal num_q num_a ∨
     (∃ qi, self w = set_quantum_instance qi
              (__init__ matrix vector eigs init_state reciprocal num_q num_a)) →
     _matrix (self r.1) = matrix ∧ _vector (self r.1) = vector).
Proof.
  intros r.
  pose proof (_run_inputs tomo linalg measures w) as [= Hm Hv]. fold r in Hm, Hv.
  split_and!; [done|done| |].
  - intros ret Hret. apply _run_record.
    subst r. destruct (_run tomo linalg measures w) as [w' res].
    simpl in *. by subst.
  - intros matrix vector eigs init_state reciprocal num_q num_a Hself.
    rewrite Hm, Hv. by destruct Hself as [->|[qi ->]].
Qed.
End RunTheorems.


(** * Further properties of the code *)

(** ** Further properties of the post-selection *)

Lemma py_sum_acc (a : Z) (l : list Z) : foldl Z.add a l = a + py_sum l.
Proof.
  unfold py_sum. revert a. induction l as [|x l IH]; intros a; simpl; [lia|].
  rewrite (IH (a + x)), (IH (0 + x)). lia.
Qed.

Lemma py_sum_cons (x : Z) (l : list Z) : py_sum (x :: l) = x + py_sum l.
Proof. unfold py_sum. simpl. apply py_sum_acc. Qed.

Lemma py_sum_app (l1 l2 : list Z) : py_sum (l1 ++ l2) = py_sum l1 + py_sum l2.
Proof.
  induction l1 as [|x l1 IH]; [done|].
  rewrite <- app_comm_cons, !py_sum_cons, IH. lia.
Qed.

Lemma py_sum_nonneg (l : list Z) : Forall (λ v, 0 ≤ v) l → 0 ≤ py_sum l.
Proof.
  induction 1 as [|x l Hx _ IH]; [done|]. rewrite py_sum_cons. lia.
Qed.

(** The loop keeps the survivors, in order, under their cut keys. *)
Lemma filter_loop_survivors (p : Z) (items : list (string * Z))
    (filt_keys : list string) (filt_counts : list Z) :
  Forall (λ kv, is_ok (success_bit p kv.1) = true) items →
  filter_loop (Some p) items filt_keys filt_counts =
  Ok (filt_keys ++ ((λ kv, py_slice_to kv.1 (p - 2)) <$> survivors p items),
      filt_counts ++ (survivors p items).*2).
Proof.
  intros Hall. revert filt_keys filt_counts.
  induction Hall as [|[k v] items Hk _ IH]; intros filt_keys filt_counts.
  - simpl. by rewrite !app_nil_r.
  - unfold survivors. rewrite filter_cons. simpl in *. unfold passes.
    destruct (success_bit p k) as [b|e]; [|done]. simpl.
    destruct (Z.eqb_spec b 1) as [->|Hb].
    + rewrite decide_True by done. rewrite IH. simpl.
      by rewrite <- !app_assoc.
    + rewrite decide_False; [apply IH|].
      destruct b as [|[]|]; try done.
Qed.

Lemma filter_loop_raises (p : Z) (pre post : list (string * Z)) (k : string)
    (v : Z) (e : exn) (filt_keys : list string) (filt_counts : list Z) :
  Forall (λ kv, is_ok (success_bit p kv.1) = true) pre →
  success_bit p k = Raise e →
  filter_loop (Some p) (pre ++ (k, v) :: post) filt_keys filt_counts = Raise e.
Proof.
  intros Hpre Hk. revert filt_keys filt_counts.
  induction Hpre as [|[k' v'] pre Hk' _ IH]; intros filt_keys filt_counts.
  - simpl. by rewrite Hk.
  - simpl in *. destruct (success_bit p k') as [b|]; [|done]. simpl.
    destruct (b =? 1); apply IH.
Qed.

(** X1.  The loop of [_tomo_postselect] over the raw counts keeps, in their
    order, exactly the entries whose character at [-1-select_bitpos] reads
    as the integer 1, each under its key cut at [select_bitpos-2], when
    that character can be read in every key; and the first key in which it
    cannot (the key is too short, or the character is no digit) makes the
    loop raise that error, whatever comes after. *)
Theorem filter_loop_keeps_survivors (p : Z) (items : list (string * Z)) :
  (Forall (λ kv, is_ok (success_bit p kv.1) = true) items →
   filter_loop (Some p) items [] [] =
   Ok ((λ kv, py_slice_to kv.1 (p - 2)) <$> survivors p items,
       (survivors p items).*2)) ∧
  (∀ pre k v post e,
     items = pre ++ (k, v) :: post →
     Forall (λ kv, is_ok (success_bit p kv.1) = true) pre →
     success_bit p k = Raise e →
     filter_loop (Some p) items [] [] = Raise e).
Proof.
  split.
  - intros Hall. by rewrite filter_loop_survivors.
  - intros pre k v post e -> Hpre Hk. by apply filter_loop_raises.
Qed.

Lemma filter_loop_keeps_survivors_witness :
  filter_loop (Some 0) [("01 1"%string, 3); ("01 0"%string, 5)] [] [] =
  Ok (["01"%string], [3]).
Proof.
  exact (proj1 (filter_loop_keeps_survivors 0
                  [("01 1"%string, 3); ("01 0"%string, 5)])
           ltac:(repeat constructor)).
Defined.

Lemma py_dict_set_values_nonneg (d : counts) (k : string) (v : Z) :
  Forall (λ x, 0 ≤ x) (py_values d) → 0 ≤ v →
  Forall (λ x, 0 ≤ x) (py_values (py_dict_set d k v)) ∧
  py_sum (py_values (py_dict_set d k v)) ≤ py_sum (py_values d) + v.
Proof.
  unfold py_values. intros Hd Hv.
  induction d as [|[k' v'] d IH].
  - cbn [py_dict_set fmap list_fmap snd]. split; [by repeat constructor|].
    rewrite py_sum_cons. unfold py_sum. simpl. lia.
  - rewrite fmap_cons in Hd. apply Forall_cons in Hd as [Hv' Hd].
    cbn [snd] in Hv'. cbn [py_dict_set].
    destruct (String.eqb k' k); rewrite !fmap_cons; cbn [snd].
    + split; [by constructor|]. rewrite !py_sum_cons. lia.
    + destruct (IH Hd) as [IH1 IH2].
      split; [by constructor|]. rewrite !py_sum_cons. lia.
Qed.

Lemma py_dict_zip_total_le (d : counts) (ks : list string) (vs : list Z) :
  Forall (λ x, 0 ≤ x) (py_values d) → Forall (λ x, 0 ≤ x) vs →
  let d' := foldl (λ d kv, py_dict_set d kv.1 kv.2) d (zip ks vs) in
  Forall (λ x, 0 ≤ x) (py_values d') ∧
  py_sum (py_values d') ≤ py_sum (py_values d) + py_sum vs.
Proof.
  intros Hd Hvs. revert d ks Hd.
  induction Hvs as [|v vs Hv Hvs IH]; intros d ks Hd.
  - destruct ks; simpl; (split; [done|]); unfold py_sum at 3; simpl; lia.
  - destruct ks as [|k ks]; simpl.
    + split; [done|].
      assert (0 ≤ py_sum (v :: vs)) by (apply py_sum_nonneg; by constructor).
      lia.
    + destruct (py_dict_set_values_nonneg d k v Hd Hv) as [H1 H2].
      destruct (IH (py_dict_set d k v) ks H1) as [H3 H4].
      split; [done|]. rewrite py_sum_cons. lia.
Qed.

Lemma filter_loop_counts (select_bitpos : option Z) (items : list (string * Z))
    (ks ks' : list string) (vs vs' : list Z) :
  Forall (λ kv, 0 ≤ kv.2) items →
  filter_loop select_bitpos items ks vs = Ok (ks', vs') →
  ∃ kept, vs' = vs ++ kept ∧ Forall (λ x, 0 ≤ x) kept ∧
          py_sum kept ≤ py_sum (py_values items).
Proof.
  intros Hitems. revert ks vs.
  induction Hitems as [|[k v] items Hv _ IH]; intros ks vs H.
  - injection H as <- <-. exists []. by rewrite app_nil_r.
  - cbn [filter_loop] in H. cbn [snd] in Hv.
    destruct select_bitpos as [p|]; [|discriminate].
    destruct (success_bit p k) as [b|]; [|discriminate].
    cbn [mbind result_bind] in H.
    unfold py_values in *. rewrite fmap_cons, py_sum_cons. cbn [snd].
    destruct (b =? 1).
    + apply IH in H as (kept & -> & Hkept & Hsum).
      exists (v :: kept). rewrite <- app_assoc. split; [done|].
      split; [by constructor|]. rewrite py_sum_cons. lia.
    + apply IH in H as (kept & -> & Hkept & Hsum).
      exists kept. split; [done|]. split; [done|]. lia.
Qed.

(** X2.  Post-selection never adds counts: for raw counts that are not
    negative, the values of [filt_labels] sum to at most the sum of the raw
    counts and to at least 0, also when cut keys collide and when the
    placeholder is returned. *)
Theorem filt_labels_total_bounded (select_bitpos : option Z)
    (all_counts filt : counts) :
  Forall (λ kv, 0 ≤ kv.2) all_counts →
  filt_labels select_bitpos all_counts = Ok filt →
  0 ≤ py_sum (py_values filt) ≤ py_sum (py_values all_counts).
Proof.
  intros Hcounts H. unfold filt_labels in H.
  destruct (filter_loop select_bitpos all_counts [] []) as [[ks vs]|] eqn:Hloop;
    [|discriminate].
  simpl in H. injection H as <-.
  apply filter_loop_counts in Hloop as (kept & -> & Hkept & Hsum); [|done].
  rewrite app_nil_l.
  destruct (py_dict_zip_total_le [] ks kept) as [Hnn Hle]; [done|done|].
  fold (py_dict_zip ks kept) in Hnn, Hle.
  assert (0 ≤ py_sum (py_values all_counts)) as Hraw.
  { apply py_sum_nonneg. unfold py_values. by apply Forall_fmap. }
  destruct (decide (py_dict_zip ks kept = [])).
  - change (py_sum (py_values [("0"%string, 0)])) with 0. lia.
  - apply py_sum_nonneg in Hnn.
    change (py_sum (py_values (@nil (string * Z)))) with 0 in Hle. lia.
Qed.

Lemma filt_labels_total_bounded_witness :
  0 ≤ py_sum (py_values [("0"%string, 4)]) ≤
  py_sum (py_values [("011"%string, 3); ("001"%string, 4)]).
Proof.
  apply (filt_labels_total_bounded (Some 0)
           [("011"%string, 3); ("001"%string, 4)] [("0"%string, 4)]).
  - repeat constructor; simpl; lia.
  - reflexivity.
Defined.

(** ** The probability loop of the tomography path *)

Lemma py_index_last_Ok (k : string) :
  k ≠ ""%string → is_ok (py_index k (-1)) = true.
Proof.
  intros Hk. unfold py_index, py_len. 
  change (-1 <? 0) with true. cbn match.
  destruct k as [|c k]; [done|]. cbn [String.length].
  replace (0 <=? -1 + Z.of_nat (S (String.length k))) with true
    by (symmetry; apply Z.leb_le; lia).
  replace (-1 + Z.of_nat (S (String.length k)) <? Z.of_nat (S (String.length k)))
    with true by (symmetry; apply Z.ltb_lt; lia).
  cbn [andb].
  replace (Z.to_nat (-1 + Z.of_nat (S (String.length k)))) with (String.length k)
    by lia.
  clear Hk. revert c. induction k as [|c' k IH]; intros c; [done|].
  cbn [String.length]. change (String.get (S (String.length k)) (String c (String c' k)))
    with (String.get (String.length k) (String c' k)). apply IH.
Qed.

Lemma py_index_empty (i : Z) : py_index "" i = Raise IndexError.
Proof.
  unfold py_index, py_len. cbn [String.length]. change (Z.of_nat 0) with 0.
  destruct (i <? 0) eqn:Hi.
  - destruct (0 <=? i + 0) eqn:H1; [|done]. apply Z.leb_le in H1.
    apply Z.ltb_lt in Hi. lia.
  - destruct (0 <=? i) eqn:H1; [|done]. rewrite Hi. done.
Qed.

(** The two counters of the probability loop split the total. *)
Lemma count_success_split (items : list (string * Z)) (s f s' f' : Z) :
  count_success items s f = Ok (s', f') →
  s' + f' = s + f + py_sum (py_values items) ∧
  (Forall (λ kv, 0 ≤ kv.2) items → s ≤ s' ∧ f ≤ f').
Proof.
  revert s f. induction items as [|[k v] items IH]; intros s f H.
  - injection H as <- <-. change (py_sum (py_values [])) with 0. split; lia.
  - cbn [count_success] in H.
    destruct (py_index k (-1)) as [c|]; [|discriminate].
    cbn [mbind result_bind] in H. unfold py_values. rewrite fmap_cons, py_sum_cons.
    cbn [snd]. fold (py_values items).
    destruct (bool_decide (c = "1"%char)); apply IH in H as [H1 H2];
      (split; [lia|]); intros Hnn; apply Forall_cons in Hnn as [Hv Hnn];
      cbn [snd] in Hv; specialize (H2 Hnn); lia.
Qed.

Lemma count_success_Ok (items : list (string * Z)) (s f : Z) :
  Forall (λ kv, kv.1 ≠ ""%string) items →
  is_ok (count_success items s f) = true.
Proof.
  intros Hitems. revert s f.
  induction Hitems as [|[k v] items Hk _ IH]; intros s f; [done|].
  cbn [count_success]. cbn [fst] in Hk. apply py_index_last_Ok in Hk.
  destruct (py_index k (-1)) as [c|]; [|done].
  cbn [mbind result_bind]. destruct (bool_decide (c = "1"%char)); apply IH.
Qed.

(** X3.  The entry of probability_result of one tomography circuit, for
    counts that are not negative and keys that are not empty: the division
    raises ZeroDivisionError when the counts sum to zero, and is a number
    between 0 and 1 otherwise. *)
Theorem circuit_probability_range (cnts : counts) :
  Forall (λ kv, kv.1 ≠ ""%string ∧ 0 ≤ kv.2) cnts →
  (py_sum (py_values cnts) = 0 →
   circuit_probability cnts = Raise ZeroDivisionError) ∧
  (py_sum (py_values cnts) ≠ 0 →
   ∃ p : R, circuit_probability cnts = Ok (Some p) ∧ (0 <= p <= 1)%R).
Proof.
  intros Hc.
  assert (Forall (λ kv : string * Z, kv.1 ≠ ""%string) cnts) as Hk
    by (eapply Forall_impl; [exact Hc|]; by intros ? []).
  assert (Forall (λ kv : string * Z, 0 ≤ kv.2) cnts) as Hv
    by (eapply Forall_impl; [exact Hc|]; by intros ? []).
  pose proof (count_success_Ok cnts 0 0 Hk) as Hok.
  unfold circuit_probability.
  destruct (count_success cnts 0 0) as [[s f]|] eqn:Hcs; [|done].
  apply count_success_split in Hcs as [Hsum Hnn]. specialize (Hnn Hv).
  cbn [mbind result_bind]. unfold success_ratio. split; intros Ht.
  - replace (f + s =? 0) with true; [done|]. symmetry. apply Z.eqb_eq. lia.
  - replace (f + s =? 0) with false by (symmetry; apply Z.eqb_neq; lia).
    eexists. split; [reflexivity|].
    assert (0 < IZR (f + s))%R as Hpos by (apply IZR_lt; lia).
    assert (0 <= IZR s)%R as Hs by (apply IZR_le; lia).
    assert (IZR s <= IZR (f + s))%R as Hle by (apply IZR_le; lia).
    split.
    + apply Rmult_le_pos; [done|]. left. by apply Rinv_0_lt_compat.
    + apply (Rmult_le_reg_r (IZR (f + s))); [done|].
      unfold Rdiv. rewrite Rmult_assoc, Rinv_l, Rmult_1_r, Rmult_1_l; [done|].
      lra.
Qed.

Lemma circuit_probability_range_witness :
  (py_sum (py_values [("01 1"%string, 3); ("01 0"%string, 1)]) = 0 →
   circuit_probability [("01 1"%string, 3); ("01 0"%string, 1)]
     = Raise ZeroDivisionError) ∧
  (py_sum (py_values [("01 1"%string, 3); ("01 0"%string, 1)]) ≠ 0 →
   ∃ p : R, circuit_probability [("01 1"%string, 3); ("01 0"%string, 1)]
              = Ok (Some p) ∧ (0 <= p <= 1)%R).
Proof.
  apply (circuit_probability_range [("01 1"%string, 3); ("01 0"%string, 1)]).
  repeat constructor; simpl; (done || lia).
Defined.

(** ** Keys in the format of the backend *)

Lemma passes_backend_key (bits : string) (success : bool) :
  passes 0 (backend_key bits success) = success.
Proof. unfold passes. rewrite success_bit_backend_key. by destruct success. Qed.

Lemma survivors_backend (entries : list (string * bool * Z)) :
  survivors 0 ((λ e, (backend_key e.1.1 e.1.2, e.2)) <$> entries) =
  (λ e, (backend_key e.1.1 e.1.2, e.2)) <$> filter (λ e, e.1.2 = true) entries.
Proof.
  unfold survivors. induction entries as [|[[bits b] v] entries IH]; [done|].
  rewrite fmap_cons, !filter_cons. cbn [fst snd].
  rewrite passes_backend_key. destruct b.
  - rewrite !decide_True by done. rewrite fmap_cons. f_equal. apply IH.
  - rewrite !decide_False by done. apply IH.
Qed.

(** X4.  On counts in the format of the backend (distinct keys
    ["<bits> <success bit>"], success register at position 0) the filter
    returns exactly the counts of the successful outcomes, in order, under
    their bits; the placeholder [{'0': 0}] when there is none. *)
Theorem filt_labels_backend_format (entries : list (string * bool * Z)) :
  let all_counts := (λ e, (backend_key e.1.1 e.1.2, e.2)) <$> entries in
  let kept := (λ e, (e.1.1, e.2)) <$> filter (λ e, e.1.2 = true) entries in
  NoDup (py_keys all_counts) →
  filt_labels (Some 0) all_counts =
  Ok (if decide (kept = []) then [("0"%string, 0)] else kept).
Proof.
  intros all_counts kept Hnd. unfold filt_labels.
  rewrite filter_loop_survivors.
  2:{ apply Forall_fmap, Forall_forall. intros [[bits b] v] _. cbn [fst snd compose].
      by rewrite success_bit_backend_key. }
  cbn [mbind result_bind app]. unfold all_counts.
  rewrite survivors_backend.
  rewrite <- !list_fmap_compose.
  assert ((λ kv : string * Z, py_slice_to kv.1 (0 - 2)) ∘
            (λ e : string * bool * Z, (backend_key e.1.1 e.1.2, e.2))
          = (λ e, py_slice_to (backend_key e.1.1 e.1.2) (0 - 2))) as -> by done.
  erewrite (list_fmap_ext (λ e, py_slice_to (backend_key e.1.1 e.1.2) (0 - 2))
              (λ e : string * bool * Z, e.1.1)).
  2:{ intros ? [[bits b] v] _. apply py_slice_to_backend_key. }
  rewrite py_dict_zip_NoDup.
  - assert (zip ((λ e : string * bool * Z, e.1.1) <$> filter (λ e, e.1.2 = true) entries)
              ((snd ∘ (λ e : string * bool * Z, (backend_key e.1.1 e.1.2, e.2))) <$>
                 filter (λ e, e.1.2 = true) entries) = kept) as ->; [|done].
    unfold kept. generalize (filter (λ e : string * bool * Z, e.1.2 = true) entries).
    intros l. induction l as [|e l IH]; [done|].
    rewrite !fmap_cons. cbn [zip zip_with compose snd]. f_equal. apply IH.
  - (* the successful entries have distinct bits, as their keys are distinct *)
    unfold all_counts, py_keys in Hnd. rewrite <- list_fmap_compose in Hnd.
    clear kept all_counts. induction entries as [|[[bits b] v] entries IH]; [constructor|].
    rewrite fmap_cons in Hnd. apply NoDup_cons in Hnd as [Hnotin Hnd].
    rewrite filter_cons. cbn [fst snd]. destruct b.
    + rewrite decide_True by done. rewrite fmap_cons. apply NoDup_cons.
      split; [|by apply IH]. cbn [fst]. intros Hin. apply Hnotin.
      apply list_elem_of_fmap in Hin as ([[bits' b'] v'] & Hbits & Hin).
      apply list_elem_of_filter in Hin as [Hb' Hin]. cbn [fst snd] in *. subst.
      apply list_elem_of_fmap. by exists (bits', true, v').
    + rewrite decide_False by done. by apply IH.
Qed.

Lemma filt_labels_backend_format_witness :
  filt_labels (Some 0)
    [("01 1"%string, 3); ("01 0"%string, 5); ("10 1"%string, 2)] =
  Ok [("01"%string, 3); ("10"%string, 2)].
Proof.
  apply (filt_labels_backend_format
           [("01"%string, true, 3); ("01"%string, false, 5); ("10"%string, true, 2)]).
  compute_done.
Defined.

(** ** The probabilities and the post-selection read the same bit *)

Lemma py_int_one (c : Ascii.ascii) (b : Z) :
  py_int c = Ok b → (b =? 1) = bool_decide (c = "1"%char).
Proof.
  unfold py_int. intros H.
  destruct ((48 <=? Z.of_nat (nat_of_ascii c)) && (Z.of_nat (nat_of_ascii c) <=? 57));
    [|discriminate].
  injection H as <-. destruct (bool_decide_reflect (c = "1"%char)) as [->|Hc].
  - done.
  - apply Z.eqb_neq. intros Hn. apply Hc.
    rewrite <- (ascii_nat_embedding c).
    replace (nat_of_ascii c) with 49%nat by lia. done.
Qed.

Lemma count_success_filter_loop (items : list (string * Z))
    (ks ks' : list string) (vs vs' : list Z) (s f : Z) :
  filter_loop (Some 0) items ks vs = Ok (ks', vs') →
  count_success items s f =
  Ok (s + (py_sum vs' - py_sum vs),
      f + (py_sum (py_values items) - (py_sum vs' - py_sum vs))).
Proof.
  revert ks vs s f. induction items as [|[k v] items IH]; intros ks vs s f H.
  - injection H as <- <-. cbn [count_success].
    change (py_sum (py_values [])) with 0. f_equal. f_equal; lia.
  - cbn [filter_loop] in H. unfold success_bit, int_at in H.
    change (-1 - 0) with (-1) in H. cbn [count_success].
    destruct (py_index k (-1)) as [c|]; [|discriminate].
    cbn [mbind result_bind] in H |- *.
    destruct (py_int c) as [b|] eqn:Hb; [|discriminate].
    cbn [mbind result_bind] in H. apply py_int_one in Hb. rewrite Hb in H.
    unfold py_values. rewrite fmap_cons, py_sum_cons. cbn [snd].
    fold (py_values items).
    destruct (bool_decide (c = "1"%char)).
    + rewrite (IH _ _ _ _ H). rewrite py_sum_app, py_sum_cons.
      change (py_sum []) with 0. f_equal. f_equal; lia.
    + rewrite (IH _ _ _ _ H). f_equal. f_equal; lia.
Qed.

(** X5.  The probability loop and the post-selection read the same bit
    when the success bit is at position 0: whenever the filter returns,
    the successes [s] of the probability loop are the sum of the kept
    counts and the failures [f] are the rest of the total. *)
Theorem probability_counts_postselected (items : list (string * Z))
    (filt_keys : list string) (filt_counts : list Z) :
  filter_loop (Some 0) items [] [] = Ok (filt_keys, filt_counts) →
  count_success items 0 0 =
  Ok (py_sum filt_counts, py_sum (py_values items) - py_sum filt_counts).
Proof.
  intros H. rewrite (count_success_filter_loop _ _ _ _ _ 0 0 H).
  change (py_sum []) with 0. f_equal. f_equal; lia.
Qed.

Lemma probability_counts_postselected_witness :
  count_success [("01 1"%string, 3); ("01 0"%string, 5); ("10 1"%string, 2)] 0 0 =
  Ok (py_sum [3; 2],
      py_sum (py_values [("01 1"%string, 3); ("01 0"%string, 5); ("10 1"%string, 2)])
      - py_sum [3; 2]).
Proof.
  apply (probability_counts_postselected _ ["01"; "10"]%string [3; 2]).
  reflexivity.
Defined.

(** ** The position of the success bit *)

Lemma find_select_bitpos_last (sel : ClassicalRegister)
    (clbit_labels : list (string * Z)) (select_bitpos : option Z) :
  find_select_bitpos (Some sel) clbit_labels select_bitpos =
  Ok (from_option Some select_bitpos
        (last (filter (λ l, l.1 = creg_name sel) clbit_labels).*2)).
Proof.
  revert select_bitpos.
  induction clbit_labels as [|[name i] cl IH]; intros select_bitpos; [done|].
  cbn [find_select_bitpos fst snd]. rewrite filter_cons. cbn [fst].
  destruct (String.eqb_spec name (creg_name sel)) as [Hn|Hn].
  - rewrite decide_True by done. rewrite IH, fmap_cons. cbn [snd].
    rewrite last_cons.
    by destruct (last (filter (λ l : string * Z, l.1 = creg_name sel) cl).*2).
  - rewrite decide_False by done. apply IH.
Qed.

(** X6.  The position of the success bit is the index of the last
    classical-bit label that carries the name of the success register, and
    [None] when no label does; without a success register ([select] is
    [None]) the first label raises AttributeError. *)
Theorem select_bitpos_last_match (clbit_labels : list (string * Z)) :
  ∀ select : option ClassicalRegister,
  match select with
  | Some sel =>
      find_select_bitpos select clbit_labels None =
      Ok (last (filter (λ l, l.1 = creg_name sel) clbit_labels).*2)
  | None =>
      find_select_bitpos select clbit_labels None =
      if decide (clbit_labels = []) then Ok None else Raise AttributeError
  end.
Proof.
  intros [sel|].
  - rewrite find_select_bitpos_last.
    by destruct (last (filter (λ l, l.1 = creg_name sel) clbit_labels).*2).
  - by destruct clbit_labels.
Qed.

(** X7.  When no classical-bit label of a tomography circuit carries the
    name of the success register and the circuit has counts, the
    post-selection of that circuit raises TypeError (of [-1-None]). *)
Theorem postselect_variant_without_success_bit (tomo : TomographyLib)
    (results : Result) (tomoset : tomography_set) (sel : ClassicalRegister)
    (labels : list string) (j : nat) (cl : list (string * Z)) (label : string)
    (all_counts : counts) :
  clbit_labels results j = Ok cl →
  Forall (λ l, l.1 ≠ creg_name sel) cl →
  labels !! j = Some label →
  get_counts results label = Ok all_counts →
  all_counts ≠ [] →
  postselect_variant tomo results tomoset (Some sel) labels j = Raise TypeError.
Proof.
  intros Hcl Hnone Hlabel Hcounts Hne. unfold postselect_variant.
  rewrite Hcl. cbn [mbind result_bind].
  rewrite find_select_bitpos_last.
  assert (filter (λ l : string * Z, l.1 = creg_name sel) cl = []) as ->.
  { clear Hcl. induction Hnone as [|l cl Hl _ IH]; [done|].
    rewrite filter_cons. rewrite decide_False by done. apply IH. }
  cbn [fmap list_fmap last from_option mbind result_bind].
  rewrite Hlabel. cbn [from_option mbind result_bind]. rewrite Hcounts.
  cbn [mbind result_bind]. unfold postselect_counts, filt_labels.
  destruct all_counts as [|[k v] rest]; [done|]. reflexivity.
Qed.

Lemma postselect_variant_without_success_bit_witness :
  postselect_variant (Fixture.tomo [])
    {| get_statevector := λ _, Raise KeyError;
       get_counts := λ _, Ok [("01 1"%string, 3)];
       clbit_labels := λ _, Ok [("c1"%string, 0); ("c1"%string, 1)] |}
    {| ts_qubits := [0; 1]; ts_circuits := []; ts_meas_basis := "Pauli";
       ts_prep_basis := None |}
    (Some {| creg_name := "c0"; creg_size := 1 |}) ["circuit_meas_ZZ"%string] 0 =
  Raise TypeError.
Proof.
  apply (postselect_variant_without_success_bit _ _ _ _ _ _
           [("c1"%string, 0); ("c1"%string, 1)] "circuit_meas_ZZ"%string
           [("01 1"%string, 3)]); try reflexivity.
  - repeat constructor; discriminate.
  - discriminate.
Defined.

(** ** The tomography data that [_tomo_postselect] returns *)

Lemma mapM_result_keys {A B} (f : A → result (A * B)) (l : list A)
    (l' : list (A * B)) :
  (∀ c y, f c = Ok y → y.1 = c) → mapM f l = Ok l' → l'.*1 = l.
Proof.
  intros Hf. revert l'. induction l as [|x l IH]; intros l' H.
  - by injection H as <-.
  - rewrite mapM_result_cons in H.
    destruct (f x) as [y|] eqn:Hy; [|discriminate]. cbn [mbind result_bind] in H.
    destruct (mapM f l) as [k|]; [|discriminate].
    cbn [mbind result_bind] in H. injection H as <-.
    rewrite fmap_cons. f_equal; [by apply Hf|by apply IH].
Qed.

Lemma postselect_variant_consistent (tomo : TomographyLib) (results : Result)
    (tomoset : tomography_set) (select : option ClassicalRegister)
    (labels : list string) (j : nat) (d : tomo_datum)
    (prep : option (list (Z * string))) :
  postselect_variant tomo results tomoset select labels j = Ok (d, prep) →
  datum_consistent d ∧ (j < length labels)%nat ∧
  tc_prep <$> ts_circuits tomoset !! j = Some prep.
Proof.
  unfold postselect_variant. intros H.
  destruct (clbit_labels results j) as [cl|]; [|discriminate].
  cbn [mbind result_bind] in H.
  destruct (find_select_bitpos select cl None) as [p|]; [|discriminate].
  cbn [mbind result_bind] in H.
  destruct (labels !! j) as [label|] eqn:Hlabel; [|discriminate].
  cbn [from_option mbind result_bind] in H.
  destruct (get_counts results label) as [all_counts|]; [|discriminate].
  cbn [mbind result_bind] in H. unfold postselect_counts in H.
  destruct (filt_labels p all_counts) as [filt|]; [|discriminate].
  cbn [mbind result_bind] in H.
  destruct (marginal_counts tomo filt (ts_qubits tomoset)) as [cnts|];
    [|discriminate].
  cbn [mbind result_bind] in H.
  destruct (ts_circuits tomoset !! j) as [tc|]; [|discriminate].
  cbn [from_option mbind result_bind] in H.
  match type of H with
  | context [mapM ?f ?l] => destruct (mapM f l) as [circuit|] eqn:Hcirc
  end; [|discriminate].
  cbn [mbind result_bind] in H. injection H as <- <-.
  split; [split; [done|]|split; [|done]].
  - cbn [td_circuit td_counts]. unfold py_keys at 1.
    apply (mapM_result_keys _ _ _) in Hcirc; [done|].
    intros c y Hy.
    destruct (outcome_meas (tc_meas tc) c); [|discriminate].
    cbn [mbind result_bind] in Hy.
    destruct (outcome_prep (tc_prep tc)); [|discriminate].
    cbn [mbind result_bind] in Hy. by injection Hy as <-.
  - by apply lookup_lt_Some in Hlabel.
Qed.

Lemma postselect_loop_data (tomo : TomographyLib) (results : Result)
    (tomoset : tomography_set) (labels : list string) (js : list nat) :
  ∀ (select : option ClassicalRegister) (acc : list tomo_datum)
    (prep : option (list (Z * string))) (dat : list tomo_datum)
    (prep' : option (list (Z * string))),
  postselect_loop tomo results tomoset select labels js acc prep = Ok (dat, prep') →
  ∃ new, dat = acc ++ new ∧ length new = length js ∧
         Forall datum_consistent new ∧
         prep' = match last js with
                 | Some j => default None (tc_prep <$> ts_circuits tomoset !! j)
                 | None => prep
                 end.
Proof.
  intros sel. induction js as [|j js IH]; intros acc prep dat prep' H.
  - injection H as <- <-. exists []. by rewrite app_nil_r.
  - cbn [postselect_loop] in H.
    destruct (postselect_variant tomo results tomoset sel labels j)
      as [[d prep1]|] eqn:Hvar; [|discriminate].
    cbn [mbind result_bind] in H.
    apply postselect_variant_consistent in Hvar as (Hd & _ & Hprep).
    apply IH in H as (new & -> & Hlen & Hnew & Hp).
    exists (d :: new). rewrite <- app_assoc. split; [done|].
    split; [by rewrite !length_cons, Hlen|]. split; [by constructor|].
    rewrite last_cons. destruct (last js); [done|].
    subst prep'. by rewrite Hprep.
Qed.

(** X8.  The tomography data that [_tomo_postselect] returns has one entry
    per circuit label; in every entry the shots are the sum of the counts
    and there is one circuit entry per outcome; the measurement basis is
    the one of the tomography set; and the preparation basis is present
    exactly when the last circuit has a non-empty [prep]. *)
Theorem _tomo_postselect_data (tomo : TomographyLib) (results : Result)
    (name : string) (tomoset : tomography_set) (td : tomo_data) :
  ∀ select : option ClassicalRegister,
  _tomo_postselect tomo results name tomoset select = Ok td →
  let labels := tomography_circuit_names tomo tomoset name in
  length (tomo_data_data td) = length labels ∧
  Forall datum_consistent (tomo_data_data td) ∧
  tomo_data_meas_basis td = ts_meas_basis tomoset ∧
  tomo_data_prep_basis td =
    match length labels with
    | O => None
    | S n => if py_truthy (default None (tc_prep <$> ts_circuits tomoset !! n))
             then ts_prep_basis tomoset else None
    end.
Proof.
  intros sel H labels. unfold _tomo_postselect in H. fold labels in H.
  destruct (postselect_loop tomo results tomoset sel labels
              (seq 0 (length labels)) [] None) as [[dat prep]|] eqn:Hloop;
    [|discriminate].
  cbn [mbind result_bind] in H.
  apply postselect_loop_data in Hloop as (new & -> & Hlen & Hnew & Hprep).
  rewrite length_seq in Hlen. rewrite app_nil_l in H.
  assert (prep = match length labels with
                 | O => None
                 | S n => default None (tc_prep <$> ts_circuits tomoset !! n)
                 end) as Hprep'.
  { rewrite Hprep. destruct (length labels) as [|n]; [done|].
    rewrite seq_S, last_snoc. done. }
  clear Hprep. destruct (length labels) as [|n] eqn:Hn.
  - subst prep. cbn [py_truthy] in H. injection H as <-. done.
  - subst prep.
    destruct (py_truthy (default None (tc_prep <$> ts_circuits tomoset !! n))).
    + destruct (ts_prep_basis tomoset) as [pb|]; [|discriminate].
      cbn [from_option mbind result_bind] in H. injection H as <-. done.
    + injection H as <-. done.
Qed.

Lemma _tomo_postselect_data_witness :
  length (tomo_data_data
    {| tomo_data_data :=
         [{| td_counts := [("01"%string, 3)]; td_shots := 3;
             td_circuit :=
               [("01"%string,
                 {| oc_meas := [("Z"%string, 1); ("Z"%string, 0)];
                    oc_prep := None |})] |}];
       tomo_data_meas_basis := "Pauli";
       tomo_data_prep_basis := None |}) = 1%nat ∧
  Forall datum_consistent (tomo_data_data
    {| tomo_data_data :=
         [{| td_counts := [("01"%string, 3)]; td_shots := 3;
             td_circuit :=
               [("01"%string,
                 {| oc_meas := [("Z"%string, 1); ("Z"%string, 0)];
                    oc_prep := None |})] |}];
       tomo_data_meas_basis := "Pauli";
       tomo_data_prep_basis := None |}) ∧
  tomo_data_meas_basis
    {| tomo_data_data :=
         [{| td_counts := [("01"%string, 3)]; td_shots := 3;
             td_circuit :=
               [("01"%string,
                 {| oc_meas := [("Z"%string, 1); ("Z"%string, 0)];
                    oc_prep := None |})] |}];
       tomo_data_meas_basis := "Pauli";
       tomo_data_prep_basis := None |} = "Pauli"%string ∧
  tomo_data_prep_basis
    {| tomo_data_data :=
         [{| td_counts := [("01"%string, 3)]; td_shots := 3;
             td_circuit :=
               [("01"%string,
                 {| oc_meas := [("Z"%string, 1); ("Z"%string, 0)];
                    oc_prep := None |})] |}];
       tomo_data_meas_basis := "Pauli";
       tomo_data_prep_basis := None |} = None.
Proof.
  apply (_tomo_postselect_data (Fixture.tomo [])
           {| get_statevector := λ _, Raise KeyError;
              get_counts := λ _, Ok [("01 1"%string, 3); ("11 0"%string, 4)];
              clbit_labels :=
                λ _, Ok [("c0"%string, 0); ("c1"%string, 0); ("c1"%string, 1)] |}
           "circuit"
           {| ts_qubits := [0; 1]; ts_circuits := [Fixture.z_basis [0; 1]];
              ts_meas_basis := "Pauli"; ts_prep_basis := None |}
           _ (Some {| creg_name := "c0"; creg_size := 1 |})).
  vm_compute. reflexivity.
Defined.

(** ** [construct_circuit] stores its results at the end *)

Lemma atomic_bind {A B} (m : M A) (f : A → M B) :
  preserves self m → (∀ a, atomic (f a)) → atomic (m ≫= f).
Proof.
  intros Hm Hf w e. rewrite run_bind. specialize (Hm w).
  destruct (m w) as [w' [a|e']]; cbn [fst snd] in *.
  - intros H. rewrite <- Hm. by eapply Hf.
  - done.
Qed.

Lemma atomic_preserves {A} (m : M A) : preserves self m → atomic m.
Proof. intros Hm w e _. apply Hm. Qed.

Lemma atomic_modify {A} (f : HHL → HHL) (k : M A) :
  (∀ w, is_ok (k w).2 = true) → atomic (modify f ≫= λ _, k).
Proof.
  intros Hk w e. rewrite run_modify. intros H.
  specialize (Hk (with_self f w)). by rewrite H in Hk.
Qed.

Lemma preserves_self_log (c : call) : preserves self (log c).
Proof. done. Qed.

Lemma preserves_self_next_instance : preserves self next_instance.
Proof. done. Qed.

Lemma atomic_bind_total {A B} (m : M A) (f : A → M B) :
  atomic m → (∀ a w, is_ok (f a w).2 = true) → atomic (m ≫= f).
Proof.
  intros Hm Hf w e. rewrite run_bind. specialize (Hm w).
  destruct (m w) as [w' [a|e']] eqn:Hmw; cbn [fst snd] in *.
  - intros H. specialize (Hf a w'). by rewrite H in Hf.
  - intros _. by eapply Hm.
Qed.

Lemma new_ClassicalRegister_self (size : Z) :
  preserves self (new_ClassicalRegister size).
Proof.
  unfold new_ClassicalRegister.
  apply preserves_bind; [done|]. intros n.
  destruct (size <=? 0); [apply preserves_raise|apply preserves_ret].
Qed.

Ltac atomic_step :=
  lazymatch goal with
  | |- atomic (modify _ ≫= _) => apply atomic_modify; by intros ?
  | |- atomic (mret _) => apply atomic_preserves, preserves_ret
  | |- atomic ((if _ then _ else _) ≫= _) =>
      apply atomic_bind_total; [|by intros ? ?]
  | |- atomic (mbind _ _) => apply atomic_bind; [|intros ?]
  | |- atomic (if ?b then _ else _) => destruct b
  | |- atomic (match ?x with _ => _ end) => destruct x
  | |- preserves self (log _) => apply preserves_self_log
  | |- preserves self next_instance => apply preserves_self_next_instance
  | |- preserves self (new_ClassicalRegister _) => apply new_ClassicalRegister_self
  | |- preserves _ _ => preserves_step
  end.

(** X9.  [construct_circuit] assigns the attributes of the object at its
    end only: when it raises, [self] is as it was before the call. *)
Theorem construct_circuit_atomic (measurement : bool) (w : World) (e : exn) :
  (construct_circuit measurement w).2 = Raise e →
  self (construct_circuit measurement w).1 = self w.
Proof.
  revert w e. change (atomic (construct_circuit measurement)).
  unfold construct_circuit, new_QuantumCircuit.
  (* the stages may raise and assign nothing; the assignments at the end,
     and the one after the measurement, are followed by nothing that raises *)
  repeat atomic_step.
Qed.

Lemma construct_circuit_atomic_witness :
  self (construct_circuit true
          {| self := __init__ [] [] None None None 1 0; calls := [];
             instances := 0 |}).1 =
  __init__ [] [] None None None 1 0.
Proof.
  apply (construct_circuit_atomic true
           {| self := __init__ [] [] None None None 1 0; calls := [];
              instances := 0 |}
           AttributeError).
  reflexivity.
Defined.

Lemma circuit_iadd_Ok (qc rhs qc' : QuantumCircuit) :
  circuit_iadd qc rhs = Ok qc' →
  circ_name qc' = circ_name qc ∧ data qc' = data qc ++ data rhs ∧
  qregs qc ⊆ qregs qc' ∧ cregs qc' = cregs qc ++ list_difference (cregs rhs) (cregs qc).
Proof.
  unfold circuit_iadd. destruct (compatible_regs qc rhs); [|discriminate].
  intros [= <-]. cbn. split_and!; try done.
  intros x Hx. apply elem_of_app. by left.
Qed.

(** X10.  When [construct_circuit] returns without measurement, the
    instructions of the circuit are those of the four stages in order:
    state preparation on the io register, eigenvalue estimation on the io
    register, the reciprocal rotation on the output register of the
    eigenvalue estimation, and the inverse eigenvalue estimation on the
    registers of the first; the io register, that output register and the
    ancilla of the rotation are stored with the circuit, and nothing else
    in [self] changes. *)
Theorem construct_circuit_stages (w w' : World) (qc : QuantumCircuit) :
  construct_circuit false w = (w', Ok qc) →
  ∃ init_state eigs reciprocal f_init f_eigs built f_rec s f_inv,
    let q := {| qreg_name := "io"; qreg_size := _num_q (self w) |} in
    _init_state (self w) = Some init_state ∧
    _eigs (self w) = Some eigs ∧
    _reciprocal (self w) = Some reciprocal ∧
    init_state_construct_circuit init_state q = Ok f_init ∧
    eigs_construct_circuit eigs q = Ok (f_eigs, built) ∧
    reciprocal_construct_circuit reciprocal (eigs_output_register built)
      = Ok (f_rec, s) ∧
    eigs_construct_inverse eigs (eigs_circuit built) (eigs_input_register built)
      (eigs_output_register built) = Ok f_inv ∧
    data qc = data f_init ++ data f_eigs ++ data f_rec ++ data f_inv ∧
    q ∈ qregs qc ∧
    self w' = set_circuit (Some qc)
                (set_registers (Some q) (Some (eigs_output_register built))
                   (Some s) (self w)).
Proof.
  intros H. unfold construct_circuit, new_QuantumCircuit in H.
  repeat run_Ok H.
  injection H as <- <-.
  unfold new_QuantumRegister in Ha.
  destruct (_num_q (self w) <=? 0); [discriminate|]. injection Ha as <-.
  apply circuit_iadd_Ok in Ha2 as (Hn1 & Hd1 & Hq1 & _).
  apply circuit_iadd_Ok in Ha5 as (Hn2 & Hd2 & Hq2 & _).
  apply circuit_iadd_Ok in Ha8 as (Hn3 & Hd3 & Hq3 & _).
  apply circuit_iadd_Ok in Ha10 as (Hn4 & Hd4 & Hq4 & _).
  cbn [data circ_name qregs] in *.
  eexists _, _, _, _, _, _, _, _, _. cbn zeta.
  split_and!; try eassumption.
  - rewrite Hd4, Hd3, Hd2, Hd1. by rewrite <- !app_assoc.
  - apply Hq4, Hq3, Hq2, Hq1. set_solver.
  - reflexivity.
Qed.

Lemma construct_circuit_stages_witness :
  let w := Fixture.world (Fixture.statevector_backend []) in
  ∃ w' qc,
    construct_circuit false w = (w', Ok qc) ∧
    ∃ init_state eigs reciprocal f_init f_eigs built f_rec s f_inv,
      let q := {| qreg_name := "io"; qreg_size := _num_q (self w) |} in
      _init_state (self w) = Some init_state ∧
      _eigs (self w) = Some eigs ∧
      _reciprocal (self w) = Some reciprocal ∧
      init_state_construct_circuit init_state q = Ok f_init ∧
      eigs_construct_circuit eigs q = Ok (f_eigs, built) ∧
      reciprocal_construct_circuit reciprocal (eigs_output_register built)
        = Ok (f_rec, s) ∧
      eigs_construct_inverse eigs (eigs_circuit built) (eigs_input_register built)
        (eigs_output_register built) = Ok f_inv ∧
      data qc = data f_init ++ data f_eigs ++ data f_rec ++ data f_inv ∧
        q ∈ qregs qc ∧
      self w' = set_circuit (Some qc)
                  (set_registers (Some q) (Some (eigs_output_register built))
                     (Some s) (self w)).
Proof.
  intros w. eexists _, _. split; [lazy -[IZR]; reflexivity|].
  apply (construct_circuit_stages w). lazy -[IZR]. reflexivity.
Defined.

(** ** [_hhl_results] on arrays whose shapes agree *)

Section HhlResultsShapes.
Context (linalg : NumpyLinalg).

Lemma np_matvec_Ok (A : matrix) (v : vector) :
  Forall (λ row, length row = length v) A →
  ∃ t, np_matvec A v = Ok t ∧ length t = length A.
Proof.
  unfold np_matvec. induction 1 as [|row A Hrow _ (t & IH & Hlen)].
  - by exists [].
  - rewrite mapM_result_cons, (np_dot_same_length _ _ Hrow), IH.
    eexists. split; [reflexivity|]. by rewrite !length_cons, Hlen.
Qed.

(** [_hhl_results] on arrays whose shapes agree: the three entries, whatever
    the values are. *)
Lemma _hhl_results_run (w : World) (vec theo : vector) :
  linalg_solve linalg (_matrix (self w)) (_vector (self w)) = Ok theo →
  length theo = length vec →
  Forall (λ row, length row = length vec) (_matrix (self w)) →
  length (_vector (self w)) = length (_matrix (self w)) →
  _matrix (self w) ≠ [] ∨ _num_q (self w) ≠ 0 →
  ∃ f1 ph,
    _hhl_results linalg vec w =
    (with_self
       (set_ret "solution_hhl"
          (VVector (np_vmul_scalar (np_vscale f1 vec) ph)))
       (with_self
          (set_ret "fidelity_hhl_to_classical"
             (VFloat ((λ x, x ^ 2)%R <$>
                        np_abs (np_sumprod
                                  (np_vdiv theo (np_complex (np_norm theo)))
                                  (np_conj <$> vec)))))
          (with_self (set_ret "output_hhl" (VVector vec)) w)),
     Ok tt).
Proof.
  intros Hsolve Hlen Hrows Hb Hne. unfold _hhl_results.
  rewrite run_modify, !run_gets. cbn [self with_self _matrix _vector set_ret].
  rewrite (run_lift _ _ _ _ Hsolve).
  rewrite (run_lift _ _ _ (np_sumprod
             (np_vdiv theo (np_complex (np_norm theo))) (np_conj <$> vec))).
  2:{ apply np_dot_same_length. unfold np_vdiv. by rewrite !length_fmap. }
  rewrite run_modify. cbn [self with_self _matrix _vector set_ret].
  destruct (np_matvec_Ok _ _ Hrows) as (tmp & Htmp & Hlt).
  rewrite (run_lift _ _ _ _ Htmp).
  rewrite (run_lift _ _ _ (zip_with np_mul (_vector (self w)) (np_conj <$> tmp))).
  2:{ unfold np_vmul. rewrite decide_True; [done|]. rewrite length_fmap. lia. }
  rewrite run_gets. cbn [self with_self _num_q set_ret].
  assert (∃ f2, match (λ z, np_angle (np_add (np_sub z (Some C1)) (Some C1))) <$>
                      zip_with np_mul (_vector (self w)) (np_conj <$> tmp) with
                | [] => if _num_q (self w) =? 0 then Raise ZeroDivisionError
                        else Ok (Some (0 / IZR (_num_q (self w)))%R)
                | _ => Ok (np_fdiv
                             (py_fsum ((λ z, np_angle (np_add (np_sub z (Some C1)) (Some C1))) <$>
                                zip_with np_mul (_vector (self w)) (np_conj <$> tmp)))
                             (Some (IZR (_num_q (self w)))))
                end = Ok f2) as [f2 Hf2].
  { destruct (_matrix (self w)) as [|row A] eqn:HA.
    - destruct Hne as [|Hq]; [done|].
      destruct (_vector (self w)); [|done]. cbn [zip_with fmap list_fmap].
      apply Z.eqb_neq in Hq. rewrite Hq. by eexists.
    - destruct (_vector (self w)) as [|b0 b]; [done|].
      destruct tmp as [|t0 tmp]; [done|]. by eexists. }
  rewrite (run_lift _ _ _ _ Hf2). by eexists _, _.
Qed.

(** X11.  On arrays whose shapes agree (a classical solution of the length
    of the vector, rows of that length, as many rows as entries of the
    right-hand side, at least one row) [_hhl_results] returns, whatever the
    values are, finite or not; it writes the three keys output_hhl,
    fidelity_hhl_to_classical and solution_hhl and no other, and
    solution_hhl has the length of the vector. *)
Theorem _hhl_results_returns (w : World) (vec theo : vector) :
  linalg_solve linalg (_matrix (self w)) (_vector (self w)) = Ok theo →
  length theo = length vec →
  Forall (λ row, length row = length vec) (_matrix (self w)) →
  length (_vector (self w)) = length (_matrix (self w)) →
  _matrix (self w) ≠ [] →
  let r := _hhl_results linalg vec w in
  r.2 = Ok tt ∧
  dom (_ret (self r.1)) =
    dom (_ret (self w)) ∪
    {["output_hhl"; "fidelity_hhl_to_classical"; "solution_hhl"]}%string ∧
  ∃ sol, ret_at "solution_hhl" r.1 = Some (VVector sol) ∧
         length sol = length vec.
Proof.
  intros Hsolve Hlen Hrows Hb Hne r. subst r.
  destruct (_hhl_results_run w vec theo) as (f1 & ph & ->);
    [done|done|done|done|by left|].
  unfold ret_at. cbn [fst snd self with_self _ret set_ret].
  split; [done|]. split.
  - rewrite !dom_insert_L. apply set_eq. intros x.
    rewrite !elem_of_union, !elem_of_singleton. tauto.
  - eexists. rewrite lookup_insert_eq. split; [done|].
    unfold np_vmul_scalar, np_vscale. by rewrite !length_fmap.
Qed.
End HhlResultsShapes.

Section HhlResultsShapesWitness.
Local Open Scope R_scope.

Lemma _hhl_results_returns_witness :
  let r := _hhl_results Fixture.linalg [None; Some (1, 0)]
             (Fixture.world (Fixture.statevector_backend [])) in
  r.2 = Ok tt ∧
  dom (_ret (self r.1)) =
    dom (_ret (self (Fixture.world (Fixture.statevector_backend [])))) ∪
    {["output_hhl"; "fidelity_hhl_to_classical"; "solution_hhl"]}%string ∧
  ∃ sol, ret_at "solution_hhl" r.1 = Some (VVector sol) ∧
         length sol = length [None; Some (1, 0)].
Proof.
  apply (_hhl_results_returns Fixture.linalg
           (Fixture.world (Fixture.statevector_backend []))
           [None; Some (1, 0)] (finite Fixture.x)).
  - reflexivity.
  - reflexivity.
  - repeat constructor.
  - reflexivity.
  - discriminate.
Defined.
End HhlResultsShapesWitness.

(** ** The record that a run returns *)

Section RunRecord.
Context (tomo : TomographyLib) (linalg : NumpyLinalg) (measures : CircuitMeasures).

Lemma ret_keys_set_ret (key : string) (v : pyval) (w : World) :
  ret_keys (with_self (set_ret key v) w) = {[key]} ∪ ret_keys w.
Proof. unfold ret_keys. cbn [self with_self _ret set_ret]. apply dom_insert_L. Qed.

Ltac solve_keys :=
  unfold ret_keys, hhl_keys in *;
  cbn [self with_self _ret set_ret set_circuit set_registers set_success_bit] in *;
  rewrite ?dom_insert_L;
  apply set_eq; intros ?;
  repeat match goal with H : dom _ = _ |- _ => rewrite H; clear H end;
  rewrite ?elem_of_union, ?elem_of_singleton; tauto.

Lemma _hhl_results_Ok_keys (vec : vector) (w w' : World) :
  _hhl_results linalg vec w = (w', Ok tt) →
  ret_keys w' = ret_keys w ∪ hhl_keys ∧ _circuit (self w') = _circuit (self w).
Proof.
  intros H. unfold _hhl_results in H. repeat run_Ok H.
  unfold modify in H. injection H as <-. split; [|done]. solve_keys.
Qed.

Lemma _statevector_simulation_Ok_keys (w w' : World) :
  _statevector_simulation linalg w = (w', Ok tt) →
  ret_keys w' = ret_keys w ∪ {["probability_result"%string]} ∪ hhl_keys ∧
  _circuit (self w') = _circuit (self w).
Proof.
  intros H. unfold _statevector_simulation in H. repeat run_Ok H.
  apply _hhl_results_Ok_keys in H as [Hk Hc]. split; [|done].
  rewrite Hk. clear. solve_keys.
Qed.

Lemma _state_tomography_Ok_keys (w w' : World) :
  _state_tomography tomo linalg w = (w', Ok tt) →
  ret_keys w' = ret_keys w ∪ {["probability_result"%string]} ∪ hhl_keys ∧
  ∃ circuit c,
    _circuit (self w) = Some circuit ∧
    creg_size c = _num_q (self w) ∧
    _circuit (self w') =
      Some {| circ_name := circ_name circuit; qregs := qregs circuit;
              cregs := cregs circuit ++ [c]; data := data circuit |}.
Proof.
  intros H. unfold _state_tomography, _state_tomography_fit in H.
  unfold new_ClassicalRegister in H.
  repeat run_Ok H.
  destruct (_num_q (self w) <=? 0); [discriminate|].
  repeat run_Ok H.
  apply _hhl_results_Ok_keys in H as [Hk Hc].
  cbn [self with_self _circuit set_ret set_circuit] in Hc.
  split.
  - rewrite Hk. clear. solve_keys.
  - unfold add_register in Ha0. case_bool_decide; [discriminate|].
    injection Ha0 as <-. eexists _, _. split; [exact Ha|]. split; [|exact Hc].
    done.
Qed.

Lemma construct_circuit_ret (measurement : bool) :
  preserves (λ w, _ret (self w)) (construct_circuit measurement).
Proof.
  unfold construct_circuit, new_QuantumCircuit, new_ClassicalRegister.
  repeat first [ preserves_step | done ].
Qed.

Lemma _run_path_Ok (w w1 : World) (qi : QuantumInstance) :
  (if is_statevector qi
   then construct_circuit false;; _statevector_simulation linalg
   else construct_circuit true;; _state_tomography tomo linalg) w = (w1, Ok tt) →
  inputs w1 = inputs w ∧
  ret_keys w1 = ret_keys w ∪ {["probability_result"%string]} ∪ hhl_keys.
Proof.
  intros H. split.
  - assert (preserves inputs
              (if is_statevector qi
               then construct_circuit false;; _statevector_simulation linalg
               else construct_circuit true;; _state_tomography tomo linalg))
      as Hin.
    { destruct (is_statevector qi); apply preserves_bind; intros;
        first [ apply construct_circuit_inputs
              | apply _statevector_simulation_inputs
              | apply _state_tomography_inputs ]. }
    specialize (Hin w). by rewrite H in Hin.
  - destruct (is_statevector qi);
      apply M_bind_Ok in H as (w0 & qc & Hc & H);
      [pose proof (construct_circuit_ret false w) as Hret
      |pose proof (construct_circuit_ret true w) as Hret];
      rewrite Hc in Hret; cbn [fst] in Hret.
    + apply _statevector_simulation_Ok_keys in H as [-> _].
      unfold ret_keys. by rewrite Hret.
    + apply _state_tomography_Ok_keys in H as [-> _].
      unfold ret_keys. by rewrite Hret.
Qed.

(** X12.  The record of a run that returns: the classical eigenvalues and
    the classical solution of the inputs (so both computations succeeded),
    the width, depth and gate count of the circuit that the object holds
    at the end, and, beyond the keys that [_ret] had, exactly the eleven
    keys of a run. *)
Theorem run_record_complete (w w' : World) (ret : gmap string pyval) :
  _run tomo linalg measures w = (w', Ok ret) →
  ∃ eig sol circuit width depth gates,
    linalg_eigvals linalg (_matrix (self w)) = Ok eig ∧
    linalg_solve linalg (_matrix (self w)) (_vector (self w)) = Ok sol ∧
    _circuit (self w') = Some circuit ∧
    dag_width measures circuit = Ok width ∧
    dag_depth measures circuit = Ok depth ∧
    number_atomic_gates measures circuit = Ok gates ∧
    ret !! "eigenvalues_classical"%string = Some (VVector eig) ∧
    ret !! "solution_classical"%string = Some (VVector sol) ∧
    ret !! "circuit_width"%string = Some (VInt width) ∧
    ret !! "circuit_depth"%string = Some (VInt depth) ∧
    ret !! "gate_count_total"%string = Some (VInt gates) ∧
    dom ret = dom (_ret (self w)) ∪ run_keys.
Proof.
  intros H. unfold _run in H.
  apply run_attribute_Ok in H as (qi & _ & H).
  apply M_bind_Ok in H as (w1 & [] & Hpath & H).
  apply _run_path_Ok in Hpath as [Hin Hkeys].
  unfold inputs in Hin. injection Hin as Hm Hv.
  repeat run_Ok H.
  unfold gets in H. injection H as <- <-.
  cbn [self with_self _circuit _matrix _vector _ret set_ret] in *.
  rewrite Hm, Hv in *.
  eexists _, _, _, _, _, _. split_and!; try eassumption.
  - by rewrite !lookup_insert_ne, lookup_insert by done.
  - by rewrite !lookup_insert_ne, lookup_insert by done.
  - by rewrite !lookup_insert_ne, lookup_insert by done.
  - by rewrite !lookup_insert_ne, lookup_insert by done.
  - by rewrite lookup_insert.
  - rewrite !dom_insert_L. fold (ret_keys w1). rewrite Hkeys.
    unfold run_keys, ret_keys, hhl_keys. apply set_eq. intros x.
    rewrite !elem_of_union, !elem_of_singleton. tauto.
Qed.
End RunRecord.

Lemma run_record_complete_witness :
  let rho := finite_matrix [[(1, 0); (0, 0)]; [(0, 0); (0, 0)]]%R in
  let cnts : counts := [("0 1"%string, 3); ("1 1"%string, 1); ("0 0"%string, 4)] in
  let r := _run (Fixture.tomo rho) Fixture.linalg Fixture.measures
             (Fixture.world (Fixture.shots_backend cnts)) in
  ∃ ret, r.2 = Ok ret ∧ dom ret = run_keys.
Proof.
  intros rho cnts r.
  assert (is_ok r.2 = true) as Hok by reflexivity.
  destruct r as [w' [ret|e]] eqn:Hrun; [|discriminate Hok].
  exists ret. split; [reflexivity|].
  destruct (run_record_complete _ _ _ _ _ _ Hrun)
    as (eig & sol & circuit & width & depth & gates & H).
  destruct H as (_ & _ & _ & _ & _ & _ & _ & _ & _ & _ & _ & ->).
  change (dom (_ret (self (Fixture.world (Fixture.shots_backend cnts)))))
    with (dom (∅ : gmap string pyval)).
  rewrite dom_empty_L. apply (left_id_L ∅ (∪)).
Defined.

(** ** The fidelity is bounded by the squared norm of the vector *)

Section Fidelity.
Context (linalg : NumpyLinalg).
Local Open Scope R_scope.

Lemma cauchy_schwarz_step (p1 p2 s1 s2 α β A B : R) :
  0 <= α → 0 <= β → 0 <= A → 0 <= B →
  p1 * p1 + p2 * p2 = α * β →
  s1 * s1 + s2 * s2 <= A * B →
  (p1 + s1) * (p1 + s1) + (p2 + s2) * (p2 + s2) <= (α + A) * (β + B).
Proof.
  intros Hα Hβ HA HB Hp Hs.
  set (t := p1 * s1 + p2 * s2).
  assert (t * t <= (α * β) * (A * B)) as Ht.
  { rewrite <- Hp. apply Rle_trans with ((p1 * p1 + p2 * p2) * (s1 * s1 + s2 * s2)).
    - assert ((p1 * p1 + p2 * p2) * (s1 * s1 + s2 * s2) - t * t
              = Rsqr (p1 * s2 - p2 * s1)) as Heq by (unfold t, Rsqr; ring).
      pose proof (Rle_0_sqr (p1 * s2 - p2 * s1)). lra.
    - apply Rmult_le_compat_l; [nra|done]. }
  assert (0 <= α * B + β * A) as Hpos by nra.
  assert ((2 * t) * (2 * t) <= (α * B + β * A) * (α * B + β * A)) as Hsq.
  { assert ((α * B + β * A) * (α * B + β * A) - 4 * ((α * β) * (A * B))
            = Rsqr (α * B - β * A)) as Heq by (unfold Rsqr; ring).
    pose proof (Rle_0_sqr (α * B - β * A)). lra. }
  assert (2 * t <= α * B + β * A) as Hlin.
  { destruct (Rle_or_lt (2 * t) (α * B + β * A)) as [|Hgt]; [done|].
    assert ((α * B + β * A) * (α * B + β * A) < (2 * t) * (2 * t)); [|lra].
    apply Rmult_le_0_lt_compat; lra. }
  unfold t in Hlin.
  replace ((p1 + s1) * (p1 + s1) + (p2 + s2) * (p2 + s2))
    with ((p1 * p1 + p2 * p2) + (s1 * s1 + s2 * s2) + 2 * (p1 * s1 + p2 * s2))
    by ring.
  replace ((α + A) * (β + B)) with (α * β + A * B + (α * B + β * A)) by ring.
  lra.
Qed.

Lemma cauchy_schwarz (u v : list C) :
  Cmod2 (cdot u v) <= sumsq u * sumsq v.
Proof.
  revert v. induction u as [|a u IH]; intros [|b v].
  - unfold cdot, Cmod2, C0. simpl. lra.
  - unfold cdot, Cmod2, C0. simpl. lra.
  - unfold cdot, Cmod2, C0. simpl. lra.
  - rewrite cdot_cons, !sumsq_cons.
    pose proof (Cmod2_mul a b) as Hab. specialize (IH v).
    pose proof (Cmod2_nonneg a). pose proof (Cmod2_nonneg b).
    pose proof (sumsq_nonneg u). pose proof (sumsq_nonneg v).
    unfold Cmod2 at 1. unfold Cadd. cbn [fst snd].
    apply cauchy_schwarz_step; try done.
Qed.

Lemma sumsq_conj (v : list C) : sumsq (Cconj <$> v) = sumsq v.
Proof.
  induction v as [|a v IH]; [done|].
  by rewrite fmap_cons, !sumsq_cons, IH, Cmod2_conj.
Qed.

Lemma fidelity_finite (w : World) (x v : list C) :
  linalg_solve linalg (_matrix (self w)) (_vector (self w)) = Ok (finite x) →
  norm x ≠ 0 →
  length x = length v →
  ret_at "fidelity_hhl_to_classical" (_hhl_results linalg (finite v) w).1 =
    Some (VFloat (Some (Cmod2 (cdot ((λ t, Cdiv t (RtoC (norm x))) <$> x)
                                     (Cconj <$> v))))).
Proof.
  intros Hsolve Hx Hlen.
  set (theo := (λ t, Cdiv t (RtoC (norm x))) <$> x).
  unfold _hhl_results.
  rewrite run_modify, !run_gets. simpl self.
  erewrite run_lift by exact Hsolve.
  rewrite np_norm_finite. simpl np_complex.
  rewrite np_vdiv_finite by by apply RtoC_neq_0.
  fold theo. rewrite np_conj_finite.
  erewrite run_lift; last first.
  { apply np_dot_finite. unfold theo. by rewrite !length_fmap. }
  rewrite run_modify.
  match goal with
  | |- ret_at _ (?rest ?w').1 = _ =>
      assert (preserves (ret_at "fidelity_hhl_to_classical") rest) as ->
  end.
  { repeat preserves_ret_step. }
  unfold ret_at, with_self. cbn [self _ret set_ret]. rewrite lookup_insert_eq.
  cbn [np_abs fmap option_fmap option_map]. do 3 f_equal.
  apply Cmod_sqr.
Qed.

(** X13.  For a finite vector [v] and a finite classical solution that is
    not zero, the fidelity that [_hhl_results] stores lies between 0 and
    the squared norm of [v] (Cauchy-Schwarz, in the arithmetic of the
    reals); it is at most 1 for a vector of norm 1. *)
Theorem fidelity_bounded (w : World) (x v : list C) :
  linalg_solve linalg (_matrix (self w)) (_vector (self w)) = Ok (finite x) →
  norm x ≠ 0 →
  length x = length v →
  ∃ f, ret_at "fidelity_hhl_to_classical" (_hhl_results linalg (finite v) w).1 =
         Some (VFloat (Some f)) ∧
       0 <= f <= sumsq v ∧
       (norm v = 1 → f <= 1).
Proof.
  intros Hsolve Hx Hlen.
  set (theo := (λ t, Cdiv t (RtoC (norm x))) <$> x).
  assert (sumsq theo = 1) as Htheo by by apply sumsq_normalised.
  exists (Cmod2 (cdot theo (Cconj <$> v))). split.
  - by apply fidelity_finite.
  - pose proof (cauchy_schwarz theo (Cconj <$> v)) as Hcs.
    rewrite Htheo, sumsq_conj, Rmult_1_l in Hcs.
    split; [split; [apply Cmod2_nonneg|done]|].
    intros Hv. rewrite <- norm_sqr, Hv in Hcs. lra.
Qed.

Lemma cdot_conj_scale (ph : C) (u v : list C) :
  cdot u (Cconj <$> (Cmul ph <$> v)) = Cmul (Cconj ph) (cdot u (Cconj <$> v)).
Proof.
  revert v. induction u as [|a u IH]; intros [|x v];
    try (by unfold cdot; simpl; rewrite Cmul_C0_r).
  rewrite !fmap_cons, !cdot_cons, IH, Cmul_add_distr_l. f_equal.
  unfold Cmul, Cconj. simpl. f_equal; ring.
Qed.

(** X14.  The fidelity does not see a global phase: for a finite [v], a
    finite classical solution that is not zero and a factor [ph] of
    modulus 1, [_hhl_results] stores the same fidelity for [ph*v] as for
    [v] (in the arithmetic of the reals). *)
Theorem fidelity_phase_invariant (w : World) (x v : list C) (ph : C) :
  linalg_solve linalg (_matrix (self w)) (_vector (self w)) = Ok (finite x) →
  norm x ≠ 0 →
  length x = length v →
  Cmod ph = 1 →
  ret_at "fidelity_hhl_to_classical"
    (_hhl_results linalg (finite (Cmul ph <$> v)) w).1 =
  ret_at "fidelity_hhl_to_classical" (_hhl_results linalg (finite v) w).1.
Proof.
  intros Hsolve Hx Hlen Hph.
  rewrite (fidelity_finite w x v) by done.
  rewrite (fidelity_finite w x (Cmul ph <$> v)) by by rewrite ?length_fmap.
  do 3 f_equal.
  rewrite cdot_conj_scale, Cmod2_mul, Cmod2_conj, <- Cmod_sqr, Hph. ring.
Qed.
End Fidelity.

Section FidelityWitness.
Local Open Scope R_scope.

Lemma fidelity_bounded_witness :
  ∃ f, ret_at "fidelity_hhl_to_classical"
         (_hhl_results Fixture.linalg (finite [(1, 0); (0, 0)])
            (Fixture.world (Fixture.statevector_backend []))).1 =
         Some (VFloat (Some f)) ∧
       0 <= f <= sumsq [(1, 0); (0, 0)] ∧
       (norm [(1, 0); (0, 0)] = 1 → f <= 1).
Proof.
  apply (fidelity_bounded Fixture.linalg
           (Fixture.world (Fixture.statevector_backend []))
           Fixture.x [(1, 0); (0, 0)]).
  - reflexivity.
  - exact Fixture_norm_x.
  - reflexivity.
Defined.

Lemma fidelity_phase_invariant_witness :
  ret_at "fidelity_hhl_to_classical"
    (_hhl_results Fixture.linalg (finite (Cmul (0, 1) <$> [(1, 0); (0, 0)]))
       (Fixture.world (Fixture.statevector_backend []))).1 =
  ret_at "fidelity_hhl_to_classical"
    (_hhl_results Fixture.linalg (finite [(1, 0); (0, 0)])
       (Fixture.world (Fixture.statevector_backend []))).1.
Proof.
  apply (fidelity_phase_invariant Fixture.linalg
           (Fixture.world (Fixture.statevector_backend []))
           Fixture.x [(1, 0); (0, 0)] (0, 1)).
  - reflexivity.
  - exact Fixture_norm_x.
  - reflexivity.
  - exact Cmod_i.
Defined.
End FidelityWitness.

(** ** A success branch of amplitude zero *)

Section ZeroBranch.
Context (linalg : NumpyLinalg).
Local Open Scope R_scope.

Lemma sumsq_zero (v : list C) : sumsq v = 0 → v = replicate (length v) C0.
Proof.
  induction v as [|a v IH]; [done|]. rewrite sumsq_cons. intros H.
  pose proof (Cmod2_nonneg a) as Ha. pose proof (sumsq_nonneg v) as Hv.
  assert (Cmod2 a = 0) as Ha0 by lra. assert (sumsq v = 0) as Hv0 by lra.
  cbn [length replicate]. rewrite <- (IH Hv0). f_equal.
  destruct a as [x y]. unfold Cmod2 in Ha0. cbn [fst snd] in Ha0.
  unfold C0. f_equal; nra.
Qed.

Lemma np_vdiv_by_zero (v : vector) :
  np_vdiv v (Some C0) = replicate (length v) None.
Proof.
  unfold np_vdiv. induction v as [|a v IH]; [done|].
  rewrite fmap_cons, IH. cbn [length replicate]. f_equal.
  destruct a as [a|]; [|done]. cbn. by rewrite decide_True.
Qed.

Lemma np_sumprod_nan_r (u : vector) (n : nat) :
  n ≠ 0%nat → length u = n → np_sumprod u (replicate n None) = None.
Proof.
  destruct n as [|n]; [done|]. intros _.
  destruct u as [|a u]; [done|]. intros _. unfold np_sumprod.
  cbn [replicate zip zip_with foldr fst snd].
  unfold np_add, np_mul, np_lift2. by destruct a.
Qed.

(** X16.  In the statevector path, when the vector of the success branch
    is zero (of at least one entry, in a square system), the method
    returns: probability_result is 0, and output_hhl, the fidelity and
    solution_hhl are nan, with no exception. *)
Theorem statevector_zero_branch (w : World) (qi : QuantumInstance)
    (circuit : QuantumCircuit) (res : Result) (sv : vector)
    (reciprocal : Reciprocal) (v0 : list C) (theo : vector) :
  _quantum_instance (self w) = Some qi →
  _circuit (self w) = Some circuit →
  execute qi [circuit] = Ok res →
  get_statevector res circuit = Ok sv →
  _reciprocal (self w) = Some reciprocal →
  sv_to_resvec reciprocal sv (_num_q (self w)) = Ok (finite v0) →
  norm v0 = 0 →
  v0 ≠ [] →
  linalg_solve linalg (_matrix (self w)) (_vector (self w)) = Ok theo →
  length theo = length v0 →
  Forall (λ row, length row = length v0) (_matrix (self w)) →
  length (_matrix (self w)) = length v0 →
  length (_vector (self w)) = length v0 →
  let r := _statevector_simulation linalg w in
  let nan := replicate (length v0) None in
  r.2 = Ok tt ∧
  ret_at "probability_result" r.1 = Some (VComplex (Some C0)) ∧
  ret_at "output_hhl" r.1 = Some (VVector nan) ∧
  ret_at "fidelity_hhl_to_classical" r.1 = Some (VFloat None) ∧
  ret_at "solution_hhl" r.1 = Some (VVector nan).
Proof.
  intros Hqi Hcirc Hexec Hsv Hreci Hvec Hnorm Hne Hsolve Hlen Hrows HA Hb r nan.
  subst r. unfold _statevector_simulation.
  rewrite run_log.
  rewrite (run_attribute _ _ _ qi) by done.
  rewrite (run_attribute _ _ _ circuit) by done.
  rewrite (run_lift _ _ _ _ Hexec), (run_lift _ _ _ _ Hsv).
  rewrite (run_attribute _ _ _ reciprocal) by done.
  rewrite run_gets. cbn [self _num_q].
  rewrite (run_lift _ _ _ _ Hvec).
  rewrite (run_lift _ _ _ (np_sumprod (finite v0) (np_conj <$> finite v0)))
    by (apply np_dot_same_length; by rewrite length_fmap).
  rewrite run_modify.
  assert (sumsq v0 = 0) as Hss.
  { rewrite <- norm_sqr, Hnorm. ring. }
  rewrite np_conj_finite, np_sumprod_finite, cdot_conj_self, Hss.
  rewrite np_norm_finite, Hnorm. cbn [np_complex fmap option_fmap option_map].
  change (RtoC 0) with C0. rewrite np_vdiv_by_zero, length_finite. fold nan.
  match goal with
  | |- context [_hhl_results linalg nan ?w1] =>
      destruct (_hhl_results_run linalg w1 nan theo) as (f1 & ph & ->)
  end.
  - done.
  - unfold nan. by rewrite length_replicate.
  - cbn [self with_self _matrix set_ret]. unfold nan.
    by rewrite length_replicate.
  - cbn [self with_self _matrix _vector set_ret]. by rewrite HA, Hb.
  - left. cbn [self with_self _matrix set_ret]. intros HA'.
    rewrite HA' in HA. by destruct v0.
  - unfold ret_at. cbn [fst snd self with_self _ret set_ret].
    split; [done|].
    rewrite !lookup_insert_ne by done. rewrite lookup_insert_eq.
    split; [done|].
    rewrite lookup_insert_ne by done. rewrite lookup_insert_ne by done.
    rewrite lookup_insert_eq. split; [done|].
    rewrite lookup_insert_ne by done. rewrite lookup_insert_eq.
    split.
    + do 2 f_equal. unfold nan. rewrite fmap_replicate.
      change (np_conj None) with (@None C).
      rewrite np_sumprod_nan_r; [done|by destruct v0|].
      unfold np_vdiv. by rewrite length_fmap.
    + rewrite lookup_insert_eq. do 2 f_equal.
      unfold np_vmul_scalar, np_vscale, nan. rewrite !fmap_replicate.
      f_equal. unfold np_mul, np_lift2. by destruct f1.
Qed.
End ZeroBranch.

Section ZeroBranchWitness.
Local Open Scope R_scope.

Lemma norm_zero_vector : norm [(0, 0); (0, 0)] = 0.
Proof.
  unfold norm, sumsq, Cmod2. simpl.
  replace (0 * 0 + 0 * 0 + (0 * 0 + 0 * 0 + 0)) with 0 by ring. apply sqrt_0.
Qed.

Lemma statevector_zero_branch_witness :
  let w := with_self (set_circuit (Some (Fixture.fragment "hhl" [Fixture.anc])))
             (Fixture.world (Fixture.statevector_backend
                               (finite [(0, 0); (0, 0); (0, 0); (0, 0)]))) in
  let r := _statevector_simulation Fixture.linalg w in
  let nan := replicate (length [(0, 0); (0, 0)]) None in
  r.2 = Ok tt ∧
  ret_at "probability_result" r.1 = Some (VComplex (Some C0)) ∧
  ret_at "output_hhl" r.1 = Some (VVector nan) ∧
  ret_at "fidelity_hhl_to_classical" r.1 = Some (VFloat None) ∧
  ret_at "solution_hhl" r.1 = Some (VVector nan).
Proof.
  intros w.
  apply (statevector_zero_branch Fixture.linalg w _ _ _ _ _
           [(0, 0); (0, 0)] (finite Fixture.x)
           eq_refl eq_refl eq_refl eq_refl eq_refl eq_refl).
  - exact norm_zero_vector.
  - discriminate.
  - reflexivity.
  - reflexivity.
  - repeat constructor.
  - reflexivity.
  - reflexivity.
Defined.
End ZeroBranchWitness.

(** ** What the tomography path hands to the fit *)

Section TomographyPath.
Context (tomo : TomographyLib).

Lemma mapM_result_Forall2 {A B} (f : A → result B) (l : list A) (l' : list B) :
  mapM f l = Ok l' → Forall2 (λ x y, f x = Ok y) l l'.
Proof.
  revert l'. induction l as [|x l IH]; intros l' H.
  - injection H as <-. constructor.
  - rewrite mapM_result_cons in H.
    destruct (f x) as [y|] eqn:Hy; [|discriminate]. cbn [mbind result_bind] in H.
    destruct (mapM f l) as [k|]; [|discriminate].
    cbn [mbind result_bind] in H. injection H as <-.
    constructor; [done|by apply IH].
Qed.

Lemma circuit_probability_Ok (cnts : counts) (p : npfloat) :
  circuit_probability cnts = Ok p → py_sum (py_values cnts) ≠ 0.
Proof.
  unfold circuit_probability. intros H.
  destruct (count_success cnts 0 0) as [[s f]|] eqn:Hcs; [|discriminate].
  cbn [mbind result_bind] in H. unfold success_ratio in H.
  destruct (Z.eqb_spec (f + s) 0) as [|Hne]; [discriminate|].
  apply count_success_split in Hcs as [Hsum _]. lia.
Qed.

(** X17.  When the tomography path reaches the fit, the circuit of the
    object has got one more classical register, of [_num_q] bits; the
    tomography circuits were made from that circuit and executed once;
    probability_result holds one entry per tomography circuit, the success
    ratio of its counts, which do not sum to zero; and the fit received the
    post-selection of that same result on the success bit. *)
Theorem _state_tomography_fit_data (w w' : World) (rho : matrix) :
  _state_tomography_fit tomo w = (w', Ok rho) →
  ∃ qi circuit c io tomo_set tomo_circuits result probs tomo_data,
    let measured :=
      {| circ_name := circ_name circuit; qregs := qregs circuit;
         cregs := cregs circuit ++ [c]; data := data circuit |} in
    _quantum_instance (self w) = Some qi ∧
    _circuit (self w) = Some circuit ∧
    _io_register (self w) = Some io ∧
    creg_size c = _num_q (self w) ∧
    state_tomography_set tomo (seqZ 0 (_num_q (self w))) = Ok tomo_set ∧
    create_tomography_circuits tomo measured io c tomo_set = Ok tomo_circuits ∧
    execute qi tomo_circuits = Ok result ∧
    Forall2 (λ circ p, ∃ cnts, get_counts result (circ_name circ) = Ok cnts ∧
                               circuit_probability cnts = Ok p ∧
                               py_sum (py_values cnts) ≠ 0)
            tomo_circuits probs ∧
    _tomo_postselect tomo result (circ_name circuit) tomo_set
      (_success_bit (self w)) = Ok tomo_data ∧
    fit_tomography_data tomo tomo_data = Ok rho ∧
    self w' = set_ret "probability_result" (VFloats probs)
                (set_circuit (Some measured) (self w)).
Proof.
  intros H. unfold _state_tomography_fit, new_ClassicalRegister in H.
  repeat run_Ok H.
  destruct (_num_q (self w) <=? 0); [discriminate|].
  repeat run_Ok H.
  apply lift_Ok in H as [-> Hfit].
  unfold add_register in Ha0. case_bool_decide; [discriminate|].
  injection Ha0 as <-. cbn [circ_name] in *.
  match goal with
  | Hm : mapM _ _ = Ok _ |- _ =>
      apply mapM_result_Forall2 in Hm; rename Hm into Hprobs
  end.
  eexists _, _, _, _, _, _, _, _, _. cbn zeta.
  split_and!; try eassumption; try reflexivity.
  eapply Forall2_impl; [exact Hprobs|]. intros circ p Hp. cbn beta in Hp.
  match type of Hp with
  | context [get_counts ?r ?n] => destruct (get_counts r n) as [cnts|]
  end; [|discriminate].
  cbn [mbind result_bind] in Hp. exists cnts. split; [done|].
  split; [exact Hp|]. by apply circuit_probability_Ok in Hp.
Qed.
End TomographyPath.

Lemma _state_tomography_fit_data_witness :
  let cnts : counts := [("0 1"%string, 3); ("1 1"%string, 1); ("0 0"%string, 4)] in
  let w := (construct_circuit true
              (Fixture.world (Fixture.shots_backend cnts))).1 in
  ∃ w' rho probs,
    _state_tomography_fit (Fixture.tomo []) w = (w', Ok rho) ∧
    ret_at "probability_result" w' = Some (VFloats probs) ∧
    length probs = 1%nat.
Proof.
  intros cnts w.
  assert (is_ok (_state_tomography_fit (Fixture.tomo []) w).2 = true) as Hok
    by reflexivity.
  destruct (_state_tomography_fit (Fixture.tomo []) w) as [w' [rho|e]] eqn:Hrun;
    [|discriminate Hok].
  destruct (_state_tomography_fit_data _ _ _ _ Hrun)
    as (qi & circuit & c & io & tomo_set & tomo_circuits & result & probs & td & H).
  destruct H as (_ & _ & _ & _ & _ & Hcreate & _ & Hprobs & _ & _ & Hself).
  exists w', rho, probs. split; [reflexivity|]. split.
  - unfold ret_at. rewrite Hself. apply lookup_insert_eq.
  - apply Forall2_length in Hprobs. rewrite <- Hprobs.
    injection Hcreate as <-. reflexivity.
Defined.

(** ** What [init_params] hands to the three modules *)

Section InitWiring.
Context (pluggables : Pluggables).

Lemma section_of_Ok (ps : params) (key : string) (sec : gmap string param) :
  section_of ps key = Ok sec → ps !! key = Some sec.
Proof. unfold section_of. destruct (ps !! key); [by intros [= ->]|discriminate]. Qed.

Lemma section_name_Ok (sec : gmap string param) (name : string) :
  section_name sec = Ok name → sec !! "name"%string = Some (PStr name).
Proof.
  unfold section_name. destruct (sec !! "name"%string) as [[]|]; try discriminate.
  by intros [= ->].
Qed.

(** X18.  When [init_params] returns, the three sections exist and carry
    a name; the eigenvalue module was initialised from the parameters as
    given, the initial state from the parameters with num_qubits and
    state_vector set in its section, and the reciprocal from those with
    negative_evals and evo_time of the eigenvalue module set in its
    section; the object holds the inputs, the three modules and the
    register sizes of the eigenvalue module. *)
Theorem init_params_wiring (ps : params) (algo_input : LinearSystemInput)
    (hhl : HHL) :
  init_params pluggables ps (Some algo_input) = Ok hhl →
  ∃ eigs init_state reci e_sec i_sec r_sec e_name i_name r_name,
    let matrix := input_matrix algo_input in
    let vector := input_vector algo_input in
    let ps1 :=
      <["initial_state"%string :=
          <["state_vector"%string := PVector vector]>
            (<["num_qubits"%string := PInt (get_register_sizes eigs).1]> i_sec)]>
        ps in
    let ps2 :=
      <["reciprocal"%string :=
          <["evo_time"%string := PFloat (_evo_time eigs)]>
            (<["negative_evals"%string := PBool (_negative_evals eigs)]> r_sec)]>
        ps1 in
    ps !! "eigs"%string = Some e_sec ∧
    e_sec !! "name"%string = Some (PStr e_name) ∧
    eigs_init_params pluggables e_name ps matrix = Ok eigs ∧
    ps !! "initial_state"%string = Some i_sec ∧
    i_sec !! "name"%string = Some (PStr i_name) ∧
    init_state_init_params pluggables i_name ps1 = Ok init_state ∧
    ps !! "reciprocal"%string = Some r_sec ∧
    r_sec !! "name"%string = Some (PStr r_name) ∧
    reciprocal_init_params pluggables r_name ps2 = Ok reci ∧
    hhl = __init__ matrix vector (Some eigs) (Some init_state) (Some reci)
            (get_register_sizes eigs).1 (get_register_sizes eigs).2.
Proof.
  intros H. unfold init_params in H.
  apply bind_Ok in H as ([] & _ & H). unfold init_modules in H.
  apply bind_Ok in H as (e_sec & He_sec & H). apply section_of_Ok in He_sec.
  apply bind_Ok in H as (e_name & He_name & H). apply section_name_Ok in He_name.
  apply bind_Ok in H as (eigs & Heigs & H).
  destruct (get_register_sizes eigs) as [num_q num_a] eqn:Hsizes.
  apply bind_Ok in H as (i_sec & Hi_sec & H). apply section_of_Ok in Hi_sec.
  apply bind_Ok in H as (i_name & Hi_name & H). apply section_name_Ok in Hi_name.
  rewrite !lookup_insert_ne in Hi_name by done.
  apply bind_Ok in H as (init_state & Hinit & H).
  apply bind_Ok in H as (r_sec & Hr_sec & H). apply section_of_Ok in Hr_sec.
  unfold params in Hr_sec. rewrite lookup_insert_ne in Hr_sec by done.
  apply bind_Ok in H as (r_name & Hr_name & H). apply section_name_Ok in Hr_name.
  rewrite !lookup_insert_ne in Hr_name by done.
  apply bind_Ok in H as (reci & Hreci & H).
  injection H as <-.
  exists eigs, init_state, reci, e_sec, i_sec, r_sec, e_name, i_name, r_name.
  rewrite Hsizes. cbn [fst snd]. split_and!; done.
Qed.

(** X19.  With sizes that pass the checks, [init_params] does not return
    when one of the three sections is missing from the parameters; a
    missing eigs section raises TypeError. *)
Theorem init_params_missing_section (ps : params)
    (algo_input : LinearSystemInput) :
  check_sizes (input_matrix algo_input) (input_vector algo_input) = Ok tt →
  ps !! "eigs"%string = None ∨
  ps !! "initial_state"%string = None ∨
  ps !! "reciprocal"%string = None →
  ∃ e, init_params pluggables ps (Some algo_input) = Raise e ∧
       (ps !! "eigs"%string = None → e = TypeError).
Proof.
  intros Hsizes Hmissing. unfold init_params. rewrite Hsizes.
  cbn [mbind result_bind].
  unfold init_modules, section_of, SECTION_KEY_EIGS, SECTION_KEY_INITIAL_STATE,
    SECTION_KEY_RECIPROCAL.
  destruct (ps !! "eigs"%string) as [e_sec|] eqn:He; [|exists TypeError; split; [done|by intros]].
  cbn [from_option mbind result_bind].
  destruct (section_name e_sec) as [e_name|e]; [|exists e; split; [done|by intros]].
  cbn [mbind result_bind].
  destruct (eigs_init_params pluggables e_name ps _) as [eigs|e]; [|exists e; split; [done|by intros]].
  cbn [mbind result_bind].
  destruct (get_register_sizes eigs) as [num_q num_a].
  destruct (ps !! "initial_state"%string) as [i_sec|] eqn:Hi;
    [|exists TypeError; split; [done|by intros]].
  cbn [from_option mbind result_bind].
  match goal with
  | |- context [section_name ?s] => destruct (section_name s) as [i_name|e]
  end; [|exists e; split; [done|by intros]].
  cbn [mbind result_bind].
  match goal with
  | |- context [init_state_init_params ?p ?n ?q] =>
      destruct (init_state_init_params p n q) as [init_state|e]
  end; [|exists e; split; [done|by intros]].
  cbn [mbind result_bind].
  unfold params in *. rewrite lookup_insert_ne by done.
  destruct (ps !! "reciprocal"%string) as [r_sec|] eqn:Hr;
    [|exists TypeError; split; [done|by intros]].
  by destruct Hmissing as [|[|]].
Qed.
End InitWiring.

Lemma init_params_wiring_witness :
  ∃ hhl,
    init_params ParamsFixture.pluggables ParamsFixture.ps
      (Some ParamsFixture.algo_input) = Ok hhl ∧
    _num_q hhl = 1 ∧ _num_a hhl = 1.
Proof.
  assert (is_ok (init_params ParamsFixture.pluggables ParamsFixture.ps
                   (Some ParamsFixture.algo_input)) = true) as Hok.
  { unfold init_params. rewrite (check_sizes_pow2 1) by (lia || done).
    reflexivity. }
  destruct (init_params ParamsFixture.pluggables ParamsFixture.ps
              (Some ParamsFixture.algo_input)) as [hhl|e] eqn:Hinit;
    [|discriminate Hok].
  exists hhl. split; [reflexivity|].
  destruct (init_params_wiring _ _ _ _ Hinit)
    as (eigs & init_state & reci & e_sec & i_sec & r_sec & e_name & i_name
        & r_name & H).
  destruct H as (_ & _ & Heigs & _ & _ & _ & _ & _ & _ & ->).
  injection Heigs as <-. split; reflexivity.
Defined.

Lemma init_params_missing_section_witness :
  ∃ e, init_params ParamsFixture.pluggables ∅ (Some ParamsFixture.algo_input)
       = Raise e ∧
       ((∅ : params) !! "eigs"%string = None → e = TypeError).
Proof.
  apply (init_params_missing_section ParamsFixture.pluggables ∅
           ParamsFixture.algo_input).
  - by apply (check_sizes_pow2 1); [lia| |].
  - left. reflexivity.
Defined.

(** ** A run keeps the configuration of the object *)

Section RunConfiguration.
Context (tomo : TomographyLib) (linalg : NumpyLinalg) (measures : CircuitMeasures).

Lemma preserves_configuration_set_ret (key : string) (v : pyval) :
  preserves configuration (modify (set_ret key v)).
Proof. intros w. reflexivity. Qed.

Lemma preserves_configuration_set_circuit (qc : option QuantumCircuit) :
  preserves configuration (modify (set_circuit qc)).
Proof. intros w. reflexivity. Qed.

Lemma preserves_configuration_set_registers (q a s : option QuantumRegister) :
  preserves configuration (modify (set_registers q a s)).
Proof. intros w. reflexivity. Qed.

Lemma preserves_configuration_set_success_bit (c : option ClassicalRegister) :
  preserves configuration (modify (set_success_bit c)).
Proof. intros w. reflexivity. Qed.

Lemma preserves_configuration_log (c : call) : preserves configuration (log c).
Proof. intros w. reflexivity. Qed.

Lemma preserves_configuration_next_instance :
  preserves configuration next_instance.
Proof. intros w. reflexivity. Qed.

Ltac configuration_step :=
  lazymatch goal with
  | |- preserves configuration (modify (set_ret _ _)) =>
      apply preserves_configuration_set_ret
  | |- preserves configuration (modify (set_circuit _)) =>
      apply preserves_configuration_set_circuit
  | |- preserves configuration (modify (set_registers _ _ _)) =>
      apply preserves_configuration_set_registers
  | |- preserves configuration (modify (set_success_bit _)) =>
      apply preserves_configuration_set_success_bit
  | |- preserves configuration (log _) => apply preserves_configuration_log
  | |- preserves configuration next_instance =>
      apply preserves_configuration_next_instance
  | |- preserves _ _ => preserves_step
  end.

Lemma _hhl_results_configuration (vec : vector) :
  preserves configuration (_hhl_results linalg vec).
Proof. unfold _hhl_results. repeat configuration_step. Qed.

Lemma construct_circuit_configuration (measurement : bool) :
  preserves configuration (construct_circuit measurement).
Proof.
  unfold construct_circuit, new_QuantumCircuit, new_ClassicalRegister.
  repeat configuration_step.
Qed.

Lemma _statevector_simulation_configuration :
  preserves configuration (_statevector_simulation linalg).
Proof.
  unfold _statevector_simulation. repeat configuration_step.
  apply _hhl_results_configuration.
Qed.

Lemma _state_tomography_configuration :
  preserves configuration (_state_tomography tomo linalg).
Proof.
  unfold _state_tomography, _state_tomography_fit, new_ClassicalRegister.
  repeat configuration_step.
  all: apply _hhl_results_configuration.
Qed.

(** X20.  A run, whether it returns or raises, leaves the three modules,
    the register sizes and the backend of the object as they were. *)
Theorem run_keeps_configuration (w : World) :
  configuration (_run tomo linalg measures w).1 = configuration w.
Proof.
  revert w. change (preserves configuration (_run tomo linalg measures)).
  unfold _run. repeat configuration_step.
  all: first [ apply construct_circuit_configuration
             | apply _statevector_simulation_configuration
             | apply _state_tomography_configuration ].
Qed.
End RunConfiguration.
